(** * firehose-to-syslog: the caching package

    A shallow embedding of [caching_boltdb.go], [caching_memory.go] and the
    disabled backend ([CachingEmpty]), and the properties of the read-through
    lookup, the normalisation before a write, and the app assembly.

    Go values are modelled as follows.
    - [string] is a byte string: Rocq's [string].
    - [time.Time] and [time.Duration] are integers ([Z]) counting
      nanoseconds; [time.Time{}] is [0].
    - [float64] is [spec_float] with the binary64 parameters, so that
      [+], [*] and [/] round exactly as IEEE 754 prescribes.
    - [map[string]T] is [gmap string T]; a nil map reads like the empty one.
    - [interface{}] values decoded from JSON are the type [iface].
    - a function returning [(T, error)] returns a [result T].
    - everything outside the package (clock, random source, HTTP client,
      UUID parser, gob encoder, bolt transactions) is read from an
      environment [Env]; every interaction is appended to a trace.
    - calls run one after the other: the mutex of the in-memory backend
      is not modelled, nor are [Open] and [Close] of the bolt file. *)

From Stdlib Require Import ZArith Ascii String List Bool Lia.
From Stdlib Require Import Floats.SpecFloat.
From stdpp Require Import base option gmap strings list.

Local Open Scope string_scope.
Local Open Scope Z_scope.

(** ** Data model *)

#[local] Set Warnings "-register-all".

(** A JSON value decoded into [interface{}] by [encoding/json]. *)
Inductive iface : Type :=
| INil
| IBool (b : bool)
| IFloat64 (f : spec_float)
| IString (s : string)
| ISlice (l : list iface)
| IMap (l : list (string * iface)).

(** [type entity struct] *)
Record entity : Type := mkEntity {
  Name : string;
  SpaceGUID : string;
  OrganizationGUID : string;
  Environment : gmap string iface;
  TTL : Z
}.

(** [entity{}] *)
Definition zero_entity : entity :=
  {| Name := ""; SpaceGUID := ""; OrganizationGUID := "";
     Environment := ∅; TTL := 0 |}.

Definition set_Name (s : string) (e : entity) : entity :=
  {| Name := s; SpaceGUID := SpaceGUID e;
     OrganizationGUID := OrganizationGUID e;
     Environment := Environment e; TTL := TTL e |}.

Definition set_TTL (t : Z) (e : entity) : entity :=
  {| Name := Name e; SpaceGUID := SpaceGUID e;
     OrganizationGUID := OrganizationGUID e;
     Environment := Environment e; TTL := t |}.

(** [x == "true"] for [x] of type [interface{}]: the dynamic type must be
    [string] and the value equal. *)
Definition iface_eq_string (x : iface) (s : string) : bool :=
  match x with
  | IString t => String.eqb t s
  | _ => false
  end.

(** [func (e *entity) appIsOptOut() bool]; a missing key reads as the nil
    interface. *)
Definition appIsOptOut (e : entity) : bool :=
  iface_eq_string (default INil (Environment e !! "F2S_DISABLE_LOGGING")) "true".

(** Modelled from the spec: the declaration of [type App struct], which is
    not in the two source files; its fields are those the struct literals
    of [GetApp] fill, and the ones section 3 of the specification lists. *)
Record App : Type := mkApp {
  Guid : string;
  AppName : string;
  SpaceGuid : string;
  SpaceName : string;
  OrgGuid : string;
  OrgName : string;
  IgnoredApp : bool
}.

(** Go [error] values met in the package. *)
Inductive error : Type :=
| errNotFound
| ErrUUID (msg : string)
| ErrClient (msg : string)
| ErrBadStatus (status : string)
| ErrJSON (msg : string)
| ErrGob (msg : string)
| ErrBolt (msg : string).

(** A Go [(T, error)] pair in which exactly one side is set. *)
Inductive result (A : Type) : Type :=
| Ok (a : A)
| Error (err : error).
Arguments Ok {A} a.
Arguments Error {A} err.

(** ** The world outside the package *)

(** The fields of a response body this package decodes: ["entity"] for a
    single object, ["next_url"] and ["resources"] (guid and entity of each
    item) for a page of a list.  An absent or null entity is [None]. *)
Record json_body : Type := mkBody {
  j_entity : option entity;
  j_next_url : string;
  j_resources : list (string * option entity)
}.

(** What [DoRequestWithoutRedirects] returns: an error, or a response with
    its status and the outcome of decoding its body as JSON (an error
    message, or the decoded fields). *)
Inductive response : Type :=
| RespErr (msg : string)
| RespHTTP (StatusCode : Z) (Status : string) (body : string + json_body).

(** The interactions with the outside: a reading of the clock, a draw of
    the random source, a request with its response, a read of the cache
    under a key, a write of a record under a key, a cache transaction that
    failed. *)
Inductive event : Type :=
| EvNow (t : Z)
| EvRand (r : spec_float)
| EvRequest (path : string) (resp : response)
| EvGet (key : string)
| EvPut (key : string) (v : entity)
| EvBoltErr (msg : string).

Definition is_now (ev : event) : bool :=
  match ev with EvNow _ => true | _ => false end.
Definition is_rand (ev : event) : bool :=
  match ev with EvRand _ => true | _ => false end.
Definition is_request (ev : event) : bool :=
  match ev with EvRequest _ _ => true | _ => false end.
Definition is_get (ev : event) : bool :=
  match ev with EvGet _ => true | _ => false end.
Definition is_put (ev : event) : bool :=
  match ev with EvPut _ _ => true | _ => false end.
Definition is_bolt_tx (ev : event) : bool :=
  match ev with EvGet _ | EvPut _ _ | EvBoltErr _ => true | _ => false end.

Definition count (p : event → bool) (tr : list event) : nat :=
  length (List.filter p tr).

(** What the collaborators answer.  Each oracle is indexed by the number of
    earlier interactions of its kind, so that successive calls may differ.
    - [uuid_FromString s]: [uuid.FromString(s)], as the error message or as
      [u.String()], the canonical form;
    - [time_Now_at], [rand_Float64_at]: the readings of [time.Now()] in
      nanoseconds and the draws of [rand.Float64()];
    - [http_Do n path]: the answer to the [n]-th request when it asks for
      [path];
    - [gob_Encode_err e]: the error of [gob.NewEncoder(b).Encode(e)], if
      any;
    - [bolt_fault n]: the error of the [n]-th bolt transaction (or of the
      decoding of the value it read), if any;
    - [range_order m]: the order in which [range] meets the entries of a
      map. *)
Record Env : Type := mkEnv {
  uuid_FromString : string → string + string;
  time_Now_at : nat → Z;
  rand_Float64_at : nat → spec_float;
  http_Do : nat → string → response;
  gob_Encode_err : entity → option string;
  bolt_fault : nat → option string;
  range_order : gmap string (option entity) → list (string * option entity)
}.

(** The cache content (the bolt bucket, or the [entityCache] map) and the
    trace of interactions so far, oldest first. *)
Record World : Type := mkWorld {
  store : gmap string entity;
  trace : list event
}.

Definition log (ev : event) (w : World) : World :=
  {| store := store w; trace := trace w ++ [ev] |}.

Definition set_store (s : gmap string entity) (w : World) : World :=
  {| store := s; trace := trace w |}.

(** ** Computations: state passing, with runtime panics and divergence *)

Inductive outcome (A : Type) : Type :=
| Done (a : A)
| Panic
| Diverge.
Arguments Done {A} a.
Arguments Panic {A}.
Arguments Diverge {A}.

Definition M (A : Type) : Type := World → outcome A * World.

Definition ret {A} (a : A) : M A := fun w => (Done a, w).

Definition bind {A B} (m : M A) (k : A → M B) : M B :=
  fun w =>
    match m w with
    | (Done a, w') => k a w'
    | (Panic, w') => (Panic, w')
    | (Diverge, w') => (Diverge, w')
    end.

Definition panic {A} : M A := fun w => (Panic, w).

(** A loop that has not ended when its fuel is spent. *)
Definition diverge {A} : M A := fun w => (Diverge, w).

Declare Scope go_scope.
Delimit Scope go_scope with go.
Notation "x <- m ;; k" := (bind m (fun x => k))
  (at level 100, m at next level, right associativity) : go_scope.
Notation "m ;;; k" := (bind m (fun _ => k))
  (at level 100, right associativity) : go_scope.
Local Open Scope go_scope.

Section Effects.
Variable E : Env.

(** [time.Now()] *)
Definition time_Now : M Z := fun w =>
  let t := time_Now_at E (count is_now (trace w)) in
  (Done t, log (EvNow t) w).

(** [rand.Float64()] *)
Definition rand_Float64 : M spec_float := fun w =>
  let r := rand_Float64_at E (count is_rand (trace w)) in
  (Done r, log (EvRand r) w).

(** [client.DoRequestWithoutRedirects(client.NewRequest(GET, path))] *)
Definition DoRequest (path : string) : M response := fun w =>
  let resp := http_Do E (count is_request (trace w)) path in
  (Done resp, log (EvRequest path resp) w).
End Effects.

(** ** float64 arithmetic of the expiry jitter *)

Definition prec : Z := 53.
Definition emax : Z := 1024.

(** [float64(n)] for an [int64] *)
Definition float64_of_int64 (n : Z) : spec_float :=
  binary_normalize prec emax n 0 false.

(** [int64(f)]: truncation toward zero; outside the range of [int64]
    (and for NaN) the smallest [int64], as on amd64. *)
Definition int64_of_float64 (f : spec_float) : Z :=
  match f with
  | S754_zero _ => 0
  | S754_finite s m e =>
      let a := match e with
               | Z0 => Zpos m
               | Zpos p => Zpos m * 2 ^ Zpos p
               | Zneg p => Zpos m / 2 ^ Zpos p
               end in
      let v := if s then - a else a in
      if (- 2 ^ 63 <=? v) && (v <? 2 ^ 63) then v else - 2 ^ 63
  | _ => - 2 ^ 63
  end.

(** The constants [0.75] and [2.0]. *)
Definition f64_0_75 : spec_float := S754_finite false (3 * 2 ^ 51) (-53).
Definition f64_2 : spec_float := S754_finite false (2 ^ 52) (-51).

(** [time.Duration(float64(ttl.Nanoseconds()) * (0.75 + (r / 2.0)))] *)
Definition jitter (ttl : Z) (r : spec_float) : Z :=
  int64_of_float64
    (SFmul prec emax (float64_of_int64 ttl)
       (SFadd prec emax f64_0_75 (SFdiv prec emax r f64_2))).

(** The draws of [rand.Float64]: it returns [float64(k) / (1 << 63)] for
    a [k] of 63 bits, so a draw is zero or a normal number below one. *)
Definition unit_draw (r : spec_float) : bool :=
  match r with
  | S754_zero _ => true
  | S754_finite false m e =>
      (2 ^ 52 <=? Zpos m) && (Zpos m <? 2 ^ 53) && (-1072 <=? e) && (e <=? -53)
  | _ => false
  end.

(** The floats between [0.75] and [1.25], both included. *)
Definition factor_range (f : spec_float) : Prop :=
  ∃ (mf : positive) (ef : Z),
    f = S754_finite false mf ef ∧
    ((ef = -53 ∧ 3 * 2 ^ 51 <= Zpos mf < 2 ^ 53) ∨
     (ef = -52 ∧ 2 ^ 52 <= Zpos mf <= 5 * 2 ^ 50)).

(** ** Name suffixes *)

(** [strings.HasSuffix(s, suffix)] *)
Definition HasSuffix (s suffix : string) : bool :=
  (String.length suffix <=? String.length s)%nat &&
  String.eqb
    (substring (String.length s - String.length suffix)
               (String.length suffix) s)
    suffix.

(** The loop over [StripAppSuffixes] in
    [normaliseAndSaveEntityToDatabase]: the first suffix in the list that
    the name ends with is cut off, and the loop stops. *)
Fixpoint stripAppSuffixes (name : string) (suffixes : list string) : string :=
  match suffixes with
  | [] => name
  | suffix :: rest =>
      if HasSuffix name suffix
      then substring 0 (String.length name - String.length suffix) name
      else stripAppSuffixes name rest
  end.

(** ** The persistent backend: [caching_boltdb.go] *)

Module Bolt.

(** [type CachingBoltConfig struct] *)
Record CachingBoltConfig : Type := mkConfig {
  Path : string;
  IgnoreMissingApps : bool;
  CacheInvalidateTTL : Z;
  StripAppSuffixes : list string
}.

(** [func makeBoltKey(entityType, uuid string) []byte] *)
Definition makeBoltKey (entityType uuid : string) : string :=
  entityType ++ "/" ++ uuid.

Section CachingBolt.
Variable E : Env.
Variable config : CachingBoltConfig.

(** The read transaction of [getEntity]: [c.appdb.View(...)] looks the
    key up in the bucket and decodes the value.  A failure of the
    transaction or of the decoding is a fault of the environment. *)
Definition viewEntity (key : string) : M (result entity) := fun w =>
  match bolt_fault E (count is_bolt_tx (trace w)) with
  | Some msg => (Done (Error (ErrBolt msg)), log (EvBoltErr msg) w)
  | None =>
      match store w !! key with
      | None => (Done (Error errNotFound), log (EvGet key) w)
      | Some rv => (Done (Ok rv), log (EvGet key) w)
      end
  end.

(** The write transaction of [normaliseAndSaveEntityToDatabase]:
    [c.appdb.Update(... Put(key, b.Bytes()))]. *)
Definition updatePut (key : string) (v : entity) : M (option error) :=
  fun w =>
    match bolt_fault E (count is_bolt_tx (trace w)) with
    | Some msg => (Done (Some (ErrBolt msg)), log (EvBoltErr msg) w)
    | None =>
        (Done None, log (EvPut key v) (set_store (<[key := v]> (store w)) w))
    end.

(** What [normaliseAndSaveEntityToDatabase] makes of a record read at
    time [now] with the random draw [r]. *)
Definition normalise (entityType : string) (now : Z) (r : spec_float)
    (nv : entity) : entity :=
  set_TTL (now + jitter (CacheInvalidateTTL config) r)
    (if String.eqb entityType "apps"
     then set_Name (stripAppSuffixes (Name nv) (StripAppSuffixes config)) nv
     else nv).

(** [func (c *CachingBolt) normaliseAndSaveEntityToDatabase(entityType,
    uuid string, nv *entity) error].  [nv] is a pointer: [None] is nil,
    and the record it points to after the call is returned next to the
    error.  With a nil [nv] the first field access panics: the name in
    the loop over the suffixes when there is one, else the assignment
    of the expiry, after its right-hand side has been evaluated. *)
Definition normaliseAndSaveEntityToDatabase (entityType uuid : string)
    (nv : option entity) : M (entity * option error) :=
  match nv with
  | None =>
      if String.eqb entityType "apps" &&
         negb (Nat.eqb (length (StripAppSuffixes config)) 0)
      then panic
      else (_ <- time_Now E ;; _ <- rand_Float64 E ;; panic)
  | Some e =>
      now <- time_Now E ;;
      r <- rand_Float64 E ;;
      let e' := normalise entityType now r e in
      match gob_Encode_err E e' with
      | Some msg => ret (e', Some (ErrGob msg))
      | None =>
          err <- updatePut (makeBoltKey entityType uuid) e' ;;
          ret (e', err)
      end
  end.

(** [func (c *CachingBolt) makeRequestAndDecodeJSON(url string,
    rv interface{}) error] *)
Definition makeRequestAndDecodeJSON (url : string) : M (result json_body) :=
  resp <- DoRequest E url ;;
  ret match resp with
      | RespErr msg => Error (ErrClient msg)
      | RespHTTP code status body =>
          if code =? 200
          then match body with
               | inl msg => Error (ErrJSON msg)
               | inr b => Ok b
               end
          else Error (ErrBadStatus status)
      end.

(** [func (c *CachingBolt) fetchEntityFromAPI(entityType, guid string)],
    returning a [*entity] and an [error] *)
Definition fetchEntityFromAPI (entityType guid : string)
    : M (result (option entity)) :=
  md <- makeRequestAndDecodeJSON ("/v2/" ++ entityType ++ "/" ++ guid) ;;
  ret match md with
      | Error err => Error err
      | Ok b => Ok (j_entity b)
      end.

(** Lines 161 to 177 of [getEntity]: fetch from remote and save. *)
Definition fetchAndSave (entityType uuid : string) : M (result entity) :=
  f <- fetchEntityFromAPI entityType uuid ;;
  match f with
  | Error err =>
      if String.eqb entityType "apps" && IgnoreMissingApps config
      then
        saved <-
          normaliseAndSaveEntityToDatabase entityType uuid (Some zero_entity) ;;
        ret match saved with
            | (_, Some e) => Error e
            | (nv, None) => Ok nv
            end
      else ret (Error err)
  | Ok nv0 =>
      saved <- normaliseAndSaveEntityToDatabase entityType uuid nv0 ;;
      ret match saved with
          | (_, Some e) => Error e
          | (nv, None) => Ok nv
          end
  end.

(** [func (c *CachingBolt) getEntity(entityType, guid string)],
    returning a [*entity] and an [error] *)
Definition getEntity (entityType guid : string) : M (result entity) :=
  match uuid_FromString E guid with
  | inl msg => ret (Error (ErrUUID msg))
  | inr uuid =>
      v <- viewEntity (makeBoltKey entityType uuid) ;;
      match v with
      | Ok rv =>
          now <- time_Now E ;;
          if TTL rv <? now
          then ret (Ok rv)
          else fetchAndSave entityType uuid
      | Error errNotFound => fetchAndSave entityType uuid
      | Error err => ret (Error err)
      end
  end.

(** [func (c *CachingBolt) getSpaceAndOrg(spaceGuid string)], returning
    the space, the organization and an [error] *)
Definition getSpaceAndOrg (spaceGuid : string)
    : M (result (entity * entity)) :=
  s <- getEntity "spaces" spaceGuid ;;
  match (match s with
         | Ok space => Ok space
         | Error err =>
             if IgnoreMissingApps config then Ok zero_entity else Error err
         end) with
  | Error err => ret (Error err)
  | Ok space =>
      o <- getEntity "organizations" (OrganizationGUID space) ;;
      match (match o with
             | Ok org => Ok org
             | Error err =>
                 if IgnoreMissingApps config then Ok zero_entity
                 else Error err
             end) with
      | Error err => ret (Error err)
      | Ok org => ret (Ok (space, org))
      end
  end.

(** The loop of [fetchEntityListFromAPI]: one request for each page,
    until a page has no [next_url].  [fuel] bounds the number of pages. *)
Fixpoint fetchPages (fuel : nat) (url : string)
    (rv : gmap string (option entity))
    : M (result (gmap string (option entity))) :=
  match fuel with
  | O => diverge
  | S fuel' =>
      md <- makeRequestAndDecodeJSON url ;;
      match md with
      | Error err => ret (Error err)
      | Ok b =>
          let rv' :=
            fold_left (fun m r => <[fst r := snd r]> m) (j_resources b) rv in
          if String.eqb (j_next_url b) ""
          then ret (Ok rv')
          else fetchPages fuel' (j_next_url b) rv'
      end
  end.

(** [func (c *CachingBolt) fetchEntityListFromAPI(entityType string)],
    returning a [map[string]*entity] and an [error] *)
Definition fetchEntityListFromAPI (fuel : nat) (entityType : string)
    : M (result (gmap string (option entity))) :=
  fetchPages fuel ("/v2/" ++ entityType ++ "?results-per-page=100") ∅.

(** The body of the loop [for guid, app := range allApps] of
    [FillCache], over the apps in the order the iteration meets them. *)
Fixpoint fillApps (apps : list (string * option entity)) : M (option error) :=
  match apps with
  | [] => ret None
  | (guid, app) :: rest =>
      match uuid_FromString E guid with
      | inl msg => ret (Some (ErrUUID msg))
      | inr uuid =>
          saved <- normaliseAndSaveEntityToDatabase "apps" uuid app ;;
          match saved with
          | (_, Some err) => ret (Some err)
          | (app', None) =>
              so <- getSpaceAndOrg (SpaceGUID app') ;;
              match so with
              | Error err => ret (Some err)
              | Ok _ => fillApps rest
              end
          end
      end
  end.

(** [func (c *CachingBolt) FillCache() error].  Go leaves the order of
    the iteration over a map open: the environment chooses it. *)
Definition FillCache (fuel : nat) : M (option error) :=
  l <- fetchEntityListFromAPI fuel "apps" ;;
  match l with
  | Error err => ret (Some err)
  | Ok allApps => fillApps (range_order E allApps)
  end.

(** [func (c *CachingBolt) GetApp(appGuid string)], returning an [*App]
    and an [error] *)
Definition GetApp (appGuid : string) : M (option App * option error) :=
  a <- getEntity "apps" appGuid ;;
  match (match a with
         | Ok app => Ok app
         | Error err =>
             if IgnoreMissingApps config then Ok zero_entity else Error err
         end) with
  | Error err => ret (None, Some err)
  | Ok app =>
      so <- getSpaceAndOrg (SpaceGUID app) ;;
      match so with
      | Error err => ret (None, Some err)
      | Ok (space, org) =>
          ret (Some {| Guid := appGuid;
                       AppName := Name app;
                       SpaceGuid := SpaceGUID app;
                       SpaceName := Name space;
                       OrgGuid := OrganizationGUID space;
                       OrgName := Name org;
                       IgnoredApp := appIsOptOut app |},
               None)
      end
  end.
End CachingBolt.
End Bolt.

(** ** The in-memory backend: [caching_memory.go] *)

Module Memory.

(** [type CachingMemoryConfig struct] *)
Record CachingMemoryConfig : Type := mkConfig {
  IgnoreMissingApps : bool;
  CacheInvalidateTTL : Z
}.

Section CachingMemory.
Variable E : Env.
Variable config : CachingMemoryConfig.

(** [func (cm *CachingMemory) Open() error] *)
Definition Open : M (option error) := ret None.

(** [func (cm *CachingMemory) Close() error] *)
Definition Close : M (option error) := ret None.

(** [func (cm *CachingMemory) readEntity(entityType, guid string)] *)
Definition readEntity (entityType guid : string)
    : M (option entity * option error) :=
  ret (None, None).

(** [rv, found := cm.entityCache[key]] *)
Definition cacheLookup (key : string) : M (option entity) := fun w =>
  (Done (store w !! key), log (EvGet key) w).

(** [cm.entityCache[key] = &md.Entity] *)
Definition cacheStore (key : string) (v : entity) : M unit := fun w =>
  (Done tt, log (EvPut key v) (set_store (<[key := v]> (store w)) w)).

(** Lines 81 to 103 of [getEntity]: the request, the decoding into a
    struct whose [Entity] field is not a pointer (an absent entity
    leaves it zero), the expiry and the store. *)
Definition fetchAndStore (entityType uuid key : string) : M (result entity) :=
  resp <- DoRequest E ("/v2/" ++ entityType ++ "/" ++ uuid) ;;
  match resp with
  | RespErr msg => ret (Error (ErrClient msg))
  | RespHTTP code status body =>
      if code =? 200
      then match body with
           | inl msg => ret (Error (ErrJSON msg))
           | inr b =>
               now <- time_Now E ;;
               let e := set_TTL (now + CacheInvalidateTTL config)
                          (default zero_entity (j_entity b)) in
               _ <- cacheStore key e ;;
               ret (Ok e)
           end
      else ret (Error (ErrBadStatus status))
  end.

(** [func (cm *CachingMemory) getEntity(entityType, guid string)],
    returning a [*entity] and an [error] *)
Definition getEntity (entityType guid : string) : M (result entity) :=
  match uuid_FromString E guid with
  | inl msg => ret (Error (ErrUUID msg))
  | inr uuid =>
      let key := entityType ++ "/" ++ uuid in
      found <- cacheLookup key ;;
      match found with
      | Some rv =>
          now <- time_Now E ;;
          if TTL rv <? now
          then ret (Ok rv)
          else fetchAndStore entityType uuid key
      | None => fetchAndStore entityType uuid key
      end
  end.

(** [func (cm *CachingMemory) GetApp(appGuid string)], returning an
    [*App] and an [error] *)
Definition GetApp (appGuid : string) : M (option App * option error) :=
  a <- getEntity "apps" appGuid ;;
  match (match a with
         | Ok app => Ok app
         | Error err =>
             if IgnoreMissingApps config then Ok zero_entity else Error err
         end) with
  | Error err => ret (None, Some err)
  | Ok app =>
      s <- getEntity "spaces" (SpaceGUID app) ;;
      match (match s with
             | Ok space => Ok space
             | Error err =>
                 if IgnoreMissingApps config then Ok zero_entity
                 else Error err
             end) with
      | Error err => ret (None, Some err)
      | Ok space =>
          o <- getEntity "organizations" (OrganizationGUID space) ;;
          match (match o with
                 | Ok org => Ok org
                 | Error err =>
                     if IgnoreMissingApps config then Ok zero_entity
                     else Error err
                 end) with
          | Error err => ret (None, Some err)
          | Ok org =>
              ret (Some {| Guid := appGuid;
                           AppName := Name app;
                           SpaceGuid := SpaceGUID app;
                           SpaceName := Name space;
                           OrgGuid := OrganizationGUID space;
                           OrgName := Name org;
                           IgnoredApp := appIsOptOut app |},
                   None)
          end
      end
  end.
End CachingMemory.
End Memory.

(** ** The disabled backend: [CachingEmpty] *)

Module Empty.

(** [func (c *CachingEmpty) Open() error] *)
Definition Open : M (option error) := ret None.

(** [func (c *CachingEmpty) Close() error] *)
Definition Close : M (option error) := ret None.

(** [func (c *CachingEmpty) FillCache() error] *)
Definition FillCache : M (option error) := ret None.

(** [func (c *CachingEmpty) GetApp(appGuid string)]: [return nil, nil] *)
Definition GetApp (appGuid : string) : M (option App * option error) :=
  ret (None, None).
End Empty.

(** ** A concrete environment for the examples *)

Module Fixture.

Definition is_hex (c : ascii) : bool :=
  let n := nat_of_ascii c in
  ((48 <=? n) && (n <=? 57) || (97 <=? n) && (n <=? 102) ||
   (65 <=? n) && (n <=? 70))%nat.

Definition lower (c : ascii) : ascii :=
  let n := nat_of_ascii c in
  if ((65 <=? n) && (n <=? 90))%nat then ascii_of_nat (n + 32) else c.

Definition is_hyphen_position (pos : nat) : bool :=
  (Nat.eqb pos 8 || Nat.eqb pos 13 || Nat.eqb pos 18 || Nat.eqb pos 23)%nat.

Fixpoint canonical_from (pos : nat) (s : string) : option string :=
  match s with
  | EmptyString => if Nat.eqb pos 36 then Some EmptyString else None
  | String c rest =>
      if is_hyphen_position pos
      then if Ascii.eqb c "-"
           then option_map (String c) (canonical_from (S pos) rest)
           else None
      else if is_hex c
           then option_map (String (lower c)) (canonical_from (S pos) rest)
           else None
  end.

(** An instance of the UUID parser for the examples: what
    [uuid.FromString] followed by [String()] gives on the hyphenated form
    of 36 characters in either case, the lowercase form, and an error on
    anything else. *)
Definition parseUUID (s : string) : string + string :=
  match canonical_from 0 s with
  | Some u => inr u
  | None => inl "uuid: invalid string format"
  end.

(** An environment with a fixed clock reading, a fixed random draw, a
    remote API given by path, and a store without faults. *)
Definition env (now : Z) (r : spec_float) (api : string → response) : Env :=
  {| uuid_FromString := parseUUID;
     time_Now_at := fun _ => now;
     rand_Float64_at := fun _ => r;
     http_Do := fun _ => api;
     gob_Encode_err := fun _ => None;
     bolt_fault := fun _ => None;
     range_order := map_to_list |}.

Definition empty_world : World := {| store := ∅; trace := [] |}.

Definition guid : string := "6ba7b810-9dad-11d1-80b4-00c04fd430c8".
Definition GUID : string := "6BA7B810-9DAD-11D1-80B4-00C04FD430C8".
Definition space_guid : string := "11111111-2222-3333-4444-555555555555".
Definition org_guid : string := "aaaaaaaa-bbbb-cccc-dddd-eeeeeeeeeeee".

Definition draw_0 : spec_float := S754_zero false.
Definition draw_half : spec_float := S754_finite false (2 ^ 52) (-53).

Definition ok (e : entity) : response :=
  RespHTTP 200 "200 OK"
    (inr {| j_entity := Some e; j_next_url := ""; j_resources := [] |}).

Definition not_found : response :=
  RespHTTP 404 "404 Not Found" (inl "").

Definition app_record : entity :=
  {| Name := "billing-venerable"; SpaceGUID := space_guid;
     OrganizationGUID := "";
     Environment := <["F2S_DISABLE_LOGGING" := IString "true"]> ∅;
     TTL := 0 |}.
Definition space_record : entity :=
  {| Name := "dev"; SpaceGUID := ""; OrganizationGUID := org_guid;
     Environment := ∅; TTL := 0 |}.
Definition org_record : entity :=
  {| Name := "org1"; SpaceGUID := ""; OrganizationGUID := "";
     Environment := ∅; TTL := 0 |}.

(** A remote API that knows one app, its space and its organization. *)
Definition api (path : string) : response :=
  if String.eqb path ("/v2/apps/" ++ guid) then ok app_record
  else if String.eqb path ("/v2/spaces/" ++ space_guid) then ok space_record
  else if String.eqb path ("/v2/organizations/" ++ org_guid) then ok org_record
  else not_found.

(** A remote API that knows nothing. *)
Definition api_down (path : string) : response := not_found.

Definition bolt_config (ignore : bool) (ttl : Z) (suffixes : list string)
    : Bolt.CachingBoltConfig :=
  {| Bolt.Path := "cache.db"; Bolt.IgnoreMissingApps := ignore;
     Bolt.CacheInvalidateTTL := ttl; Bolt.StripAppSuffixes := suffixes |}.

Definition memory_config (ignore : bool) (ttl : Z)
    : Memory.CachingMemoryConfig :=
  {| Memory.IgnoreMissingApps := ignore; Memory.CacheInvalidateTTL := ttl |}.

(** A cache holding one app record with the given expiry. *)
Definition cached_world (expiry : Z) : World :=
  {| store := <["apps/" ++ guid := set_TTL expiry (set_Name "cached" app_record)]> ∅;
     trace := [] |}.
End Fixture.

(** * The vocabulary of the properties *)

(** The events a computation appends to the trace of [w]. *)
Definition new_events {A} (m : M A) (w : World) : list event :=
  drop (length (trace w)) (trace (snd (m w))).

(** A computation goes through the remote API when it appends a request. *)
Definition issues_request {A} (m : M A) (w : World) : Prop :=
  ∃ path resp, In (EvRequest path resp) (new_events m w).

(** The record [GetApp] assembles the App from: the one [getEntity] returns
    for the app, or the zero record put in its place. *)
Definition app_record_of (ignoreMissingApps : bool)
    (looked_up : outcome (result entity)) (app : entity) : Prop :=
  looked_up = Done (Ok app) ∨
  (∃ err, looked_up = Done (Error err) ∧ ignoreMissingApps = true ∧
          app = zero_entity).

(** The opt-out marker of an app record, read as [GetApp] reads it. *)
Definition marker (app : entity) : option iface :=
  Environment app !! "F2S_DISABLE_LOGGING".

(** The flag of the App [a] follows the marker of the record [app]. *)
Definition flag_follows_marker (a : App) (app : entity) : Prop :=
  AppName a = Name app ∧
  (IgnoredApp a = true ↔ marker app = Some (IString "true")) ∧
  (marker app = None → IgnoredApp a = false) ∧
  (marker app = Some (IBool true) → IgnoredApp a = false).

(** The reading of C7 as the claim states it: the suffix cut off is the
    longest of the configured suffixes that the name ends with. *)
Definition strips_longest_match (name : string) (suffixes : list string) : Prop :=
  ∀ s, In s suffixes → HasSuffix name s = true →
       (∀ t, In t suffixes → HasSuffix name t = true →
             (String.length t ≤ String.length s)%nat) →
       (stripAppSuffixes name suffixes ++ s)%string = name.

(** The request did not yield a decoded body: the client failed, the
    status is not 200, or the body does not decode. *)
Definition failed (resp : response) : bool :=
  match resp with
  | RespErr _ => true
  | RespHTTP code _ body =>
      negb (code =? 200) ||
      match body with inl _ => true | inr _ => false end
  end.

(** The test both [getEntity] apply to what the cache holds under the key:
    the record is returned without a fetch when this is true. *)
Definition served_from_cache (rv : option entity) (now : Z) : bool :=
  match rv with
  | Some r => TTL r <? now
  | None => false
  end.

(** The App without names. *)
Definition blank_App (appGuid : string) : App :=
  {| Guid := appGuid; AppName := ""; SpaceGuid := ""; SpaceName := "";
     OrgGuid := ""; OrgName := ""; IgnoredApp := false |}.

(** A lookup of the app that gives [GetApp] nothing to show: an error, or
    a record without name, space and environment. *)
Definition is_blank (r : result entity) : Prop :=
  match r with
  | Error _ => True
  | Ok app => Name app = "" ∧ SpaceGUID app = "" ∧ Environment app = ∅
  end.

(** [origin pre k v] is to say why the record [v] may be written under the
    key [k] after the events [pre].  [puts_from origin pre evs] checks every
    write of [evs], each against the events before it. *)
Fixpoint puts_from (origin : list event → string → entity → Prop)
    (pre evs : list event) : Prop :=
  match evs with
  | [] => True
  | ev :: rest =>
      match ev with
      | EvPut k v => origin pre k v
      | _ => True
      end ∧ puts_from origin (pre ++ [ev]) rest
  end.

(** [appends P m]: whatever the world, [m] only appends to the trace, and
    what it appends after the trace [pre] so far satisfies [P pre]. *)
Definition appends {A} (P : list event → list event → Prop) (m : M A) : Prop :=
  ∀ w, ∃ evs, trace (snd (m w)) = (trace w ++ evs)%list ∧ P (trace w) evs.

(** The three ways a record [raw] of kind [entityType], with canonical
    guid [uuid], comes to be saved: the request for it, the last event of
    [pre], answered with it; the request for the app failed and
    [IgnoreMissingApps] put the zero record in its place; it is one of the
    apps of the preload. *)
Definition fetched (pre : list event) (entityType uuid : string)
    (raw : entity) : Prop :=
  ∃ pre' st b,
    pre = (pre' ++ [EvRequest ("/v2/" ++ entityType ++ "/" ++ uuid)
                      (RespHTTP 200 st (inr b))])%list ∧
    j_entity b = Some raw.

Definition substituted (c : Bolt.CachingBoltConfig) (pre : list event)
    (entityType uuid : string) (raw : entity) : Prop :=
  ∃ pre' resp,
    pre = (pre' ++ [EvRequest ("/v2/" ++ entityType ++ "/" ++ uuid) resp])%list ∧
    failed resp = true ∧ entityType = "apps" ∧
    Bolt.IgnoreMissingApps c = true ∧ raw = zero_entity.

Definition preloaded (E : Env) (apps : list (string * option entity))
    (entityType uuid : string) (raw : entity) : Prop :=
  ∃ g, In (g, Some raw) apps ∧ uuid_FromString E g = inr uuid ∧
       entityType = "apps".

(** A write of the persistent backend: the record is the normalised form
    of [raw], made with the clock reading and the draw of the random source
    that are the last two events before the write. *)
Definition bolt_origin (E : Env) (c : Bolt.CachingBoltConfig)
    (apps : list (string * option entity))
    (pre : list event) (k : string) (v : entity) : Prop :=
  ∃ pre' t r entityType uuid raw,
    pre = (pre' ++ [EvNow t; EvRand r])%list ∧
    (∃ n, r = rand_Float64_at E n) ∧
    k = Bolt.makeBoltKey entityType uuid ∧
    v = Bolt.normalise c entityType t r raw ∧
    (fetched pre' entityType uuid raw ∨
     substituted c pre' entityType uuid raw ∨
     preloaded E apps entityType uuid raw).

Definition bolt_writes (E : Env) (c : Bolt.CachingBoltConfig)
    (apps : list (string * option entity)) : list event → list event → Prop :=
  puts_from (bolt_origin E c apps).

(** The apps [FillCache] iterates over: those of the list it has fetched,
    in the order the environment gives them. *)
Definition preload_list (E : Env) (fuel : nat) (w : World)
    : list (string * option entity) :=
  match fst (Bolt.fetchEntityListFromAPI E fuel "apps" w) with
  | Done (Ok allApps) => range_order E allApps
  | _ => []
  end.

(** A write of the in-memory backend: the record is the one decoded from
    the answer to the request for the same kind and guid (the zero record
    when the answer holds no entity), with its expiry set to the clock
    reading, the last event before the write, plus the configured TTL. *)
Definition memory_origin (c : Memory.CachingMemoryConfig)
    (pre : list event) (k : string) (v : entity) : Prop :=
  ∃ pre' st b t entityType uuid,
    pre = (pre' ++ [EvRequest ("/v2/" ++ entityType ++ "/" ++ uuid)
                      (RespHTTP 200 st (inr b)); EvNow t])%list ∧
    k = (entityType ++ "/" ++ uuid)%string ∧
    v = set_TTL (t + Memory.CacheInvalidateTTL c)
          (default zero_entity (j_entity b)).

(** The writes of the in-memory backend have this origin, and it draws no
    random number. *)
Definition memory_writes (c : Memory.CachingMemoryConfig)
    (pre evs : list event) : Prop :=
  puts_from (memory_origin c) pre evs ∧
  Forall (λ ev, is_rand ev = false) evs.

Inductive bolt_op : Type :=
| BoltGetEntity (entityType guid : string)
| BoltGetSpaceAndOrg (spaceGuid : string)
| BoltGetApp (appGuid : string)
| BoltFillCache (fuel : nat).

(** The events an operation of the persistent backend appends. *)
Definition bolt_events (E : Env) (c : Bolt.CachingBoltConfig) (op : bolt_op)
    (w : World) : list event :=
  match op with
  | BoltGetEntity entityType guid =>
      new_events (Bolt.getEntity E c entityType guid) w
  | BoltGetSpaceAndOrg spaceGuid => new_events (Bolt.getSpaceAndOrg E c spaceGuid) w
  | BoltGetApp appGuid => new_events (Bolt.GetApp E c appGuid) w
  | BoltFillCache fuel => new_events (Bolt.FillCache E c fuel) w
  end.

Definition bolt_preload (E : Env) (op : bolt_op) (w : World)
    : list (string * option entity) :=
  match op with
  | BoltFillCache fuel => preload_list E fuel w
  | _ => []
  end.

Inductive memory_op : Type :=
| MemoryGetEntity (entityType guid : string)
| MemoryGetApp (appGuid : string).

(** The events an operation of the in-memory backend appends. *)
Definition memory_events (E : Env) (c : Memory.CachingMemoryConfig)
    (op : memory_op) (w : World) : list event :=
  match op with
  | MemoryGetEntity entityType guid =>
      new_events (Memory.getEntity E c entityType guid) w
  | MemoryGetApp appGuid => new_events (Memory.GetApp E c appGuid) w
  end.

(** The reading of C2 as the claim states it: a record is written with an
    expiry that a clock reading and a random draw, taken just before the
    write, determine through the jitter of the base TTL. *)
Definition written_with_jitter (ttl : Z) (evs : list event) : Prop :=
  ∀ pre k v post,
    evs = (pre ++ EvPut k v :: post)%list →
    ∃ pre' t r, pre = (pre' ++ [EvNow t; EvRand r])%list ∧
                TTL v = t + jitter ttl r.

(** What normalisation does to a record of the persistent backend. *)
Definition normalised (c : Bolt.CachingBoltConfig) (entityType : string)
    (t : Z) (r : spec_float) (raw v : entity) : Prop :=
  Name v = (if String.eqb entityType "apps"
            then stripAppSuffixes (Name raw) (Bolt.StripAppSuffixes c)
            else Name raw) ∧
  TTL v = t + jitter (Bolt.CacheInvalidateTTL c) r ∧
  SpaceGUID v = SpaceGUID raw ∧
  OrganizationGUID v = OrganizationGUID raw ∧
  Environment v = Environment raw.

(** The kinds of the records an operation of the persistent backend looks
    up and saves: the one [getEntity] is called with, spaces and
    organizations for [getSpaceAndOrg], apps as well for [GetApp] and
    [FillCache]. *)
Definition bolt_kinds (op : bolt_op) (entityType : string) : Prop :=
  match op with
  | BoltGetEntity kind _ => entityType = kind
  | BoltGetSpaceAndOrg _ =>
      entityType = "spaces" ∨ entityType = "organizations"
  | BoltGetApp _ | BoltFillCache _ =>
      entityType = "apps" ∨ entityType = "spaces" ∨
      entityType = "organizations"
  end.

(** Where the record of a write comes from: one of the three origins, for
    the kind and the guid of the key. *)
Definition bolt_source (E : Env) (c : Bolt.CachingBoltConfig)
    (apps : list (string * option entity)) (pre : list event)
    (entityType uuid : string) (raw : entity) : Prop :=
  fetched pre entityType uuid raw ∨
  substituted c pre entityType uuid raw ∨
  preloaded E apps entityType uuid raw.

(** A write of the persistent backend, with the kind it is made for: the
    key is the one of a kind among [kinds] and a guid, and the record is
    the normalised form, for this kind, of the record [raw] that has one of
    the three origins for this kind and guid; the clock reading and the
    draw of the random source are the last two events before the write. *)
Definition bolt_origin_of (E : Env) (c : Bolt.CachingBoltConfig)
    (apps : list (string * option entity)) (kinds : string → Prop)
    (pre : list event) (k : string) (v : entity) : Prop :=
  ∃ pre' t r entityType uuid raw,
    pre = (pre' ++ [EvNow t; EvRand r])%list ∧
    (∃ n, r = rand_Float64_at E n) ∧
    kinds entityType ∧
    k = Bolt.makeBoltKey entityType uuid ∧
    bolt_source E c apps pre' entityType uuid raw ∧
    v = Bolt.normalise c entityType t r raw.

(** The reading of C5 as the claim states it: a record is written only
    after a request that yielded a decoded body. *)
Definition written_only_after_success (evs : list event) : Prop :=
  ∀ pre k v post,
    evs = (pre ++ EvPut k v :: post)%list →
    ∃ path resp, In (EvRequest path resp) pre ∧ failed resp = false.

(** The last clock reading of a trace. *)
Fixpoint last_now (evs : list event) : option Z :=
  match evs with
  | [] => None
  | ev :: rest =>
      match last_now rest with
      | Some t => Some t
      | None => match ev with EvNow t => Some t | _ => None end
      end
  end.

(** The reading of C8 as the claim states it: the expiry of a written
    record, less the clock reading taken for the write, lies between three
    and five quarters of the base TTL. *)
Definition written_within_jitter_interval (ttl : Z) (evs : list event) : Prop :=
  ∀ pre k v post,
    evs = (pre ++ EvPut k v :: post)%list →
    ∃ t, last_now pre = Some t ∧ 3 * ttl <= 4 * (TTL v - t) <= 5 * ttl.

(** * The vocabulary of the further properties *)

(** The string holds no ['/']. *)
Fixpoint no_slash (s : string) : bool :=
  match s with
  | EmptyString => true
  | String c rest => negb (Ascii.eqb c "/") && no_slash rest
  end.

(** The environment of the examples, with given storage faults and
    encoding errors. *)
Definition faulty_env (now : Z) (r : spec_float) (api : string → response)
    (fault : nat → option string) (enc : entity → option string) : Env :=
  {| uuid_FromString := Fixture.parseUUID;
     time_Now_at := fun _ => now;
     rand_Float64_at := fun _ => r;
     http_Do := fun _ => api;
     gob_Encode_err := enc;
     bolt_fault := fault;
     range_order := map_to_list |}.

(** The App [a] with another [Guid]. *)
Definition set_Guid (g : string) (a : App) : App :=
  {| Guid := g; AppName := AppName a; SpaceGuid := SpaceGuid a;
     SpaceName := SpaceName a; OrgGuid := OrgGuid a; OrgName := OrgName a;
     IgnoredApp := IgnoredApp a |}.

(** What [GetApp] returns for the guid [g2] when it returns [res] for
    another spelling of the same guid. *)
Definition respelled (g2 : string) (res : outcome (option App * option error))
    : outcome (option App * option error) :=
  match res with
  | Done (Some a, err) => Done (Some (set_Guid g2 a), err)
  | other => other
  end.

(** The computation removes no entry from the cache. *)
Definition keeps_entries {A} (m : M A) : Prop :=
  ∀ w k, is_Some (store w !! k) → is_Some (store (snd (m w)) !! k).

(** The remote API serves the pages [pages] one after the other, from the
    [n]-th request on and starting at [url], each with status 200 and a
    [next_url] that is not empty, which is where the next request goes;
    [final n' url'] says what comes at the request after the last page. *)
Fixpoint pages_then (E : Env) (final : nat → string → Prop) (n : nat)
    (url : string) (pages : list json_body) : Prop :=
  match pages with
  | [] => final n url
  | b :: rest =>
      (∃ st, http_Do E n url = RespHTTP 200 st (inr b)) ∧
      j_next_url b ≠ "" ∧
      pages_then E final (S n) (j_next_url b) rest
  end.

(** What follows the pages is a last page, the one without [next_url]. *)
Definition last_page (E : Env) (b : json_body) (n : nat) (url : string) : Prop :=
  (∃ st, http_Do E n url = RespHTTP 200 st (inr b)) ∧ j_next_url b = "".

(** What follows the pages is a request that fails. *)
Definition failing_page (E : Env) (n : nat) (url : string) : Prop :=
  failed (http_Do E n url) = true.

(** The resources of the pages, in the order they are listed. *)
Definition listed (pages : list json_body) : list (string * option entity) :=
  concat (map j_resources pages).

(** [rv[guid] = entity] for each resource in turn. *)
Definition collect (rv : gmap string (option entity))
    (resources : list (string * option entity)) : gmap string (option entity) :=
  fold_left (fun m r => <[fst r := snd r]> m) resources rv.

(** The iteration over a map meets every entry of the map. *)
Definition range_meets_every_entry (E : Env) : Prop :=
  ∀ (m : gmap string (option entity)) g a,
    m !! g = Some a → In (g, a) (range_order E m).

(** Two pages of apps for the examples: the first lists the app of the
    fixture, in upper case, and names the second; the second lists another
    app of the same space. *)
Definition other_guid : string := "0f0e0d0c-0b0a-4908-8706-050403020100".
Definition other_record : entity :=
  {| Name := "portal"; SpaceGUID := Fixture.space_guid;
     OrganizationGUID := ""; Environment := ∅; TTL := 0 |}.
Definition first_page : json_body :=
  {| j_entity := None; j_next_url := "/v2/apps?page=2";
     j_resources := [(Fixture.GUID, Some Fixture.app_record)] |}.
Definition second_page : json_body :=
  {| j_entity := None; j_next_url := "";
     j_resources := [(other_guid, Some other_record)] |}.

(** A remote API that lists its apps on these two pages. *)
Definition paged_api (path : string) : response :=
  if String.eqb path "/v2/apps?results-per-page=100"
  then RespHTTP 200 "200 OK" (inr first_page)
  else if String.eqb path "/v2/apps?page=2"
  then RespHTTP 200 "200 OK" (inr second_page)
  else Fixture.api path.

(** A remote API that serves the first page only. *)
Definition truncated_api (path : string) : response :=
  if String.eqb path "/v2/apps?results-per-page=100"
  then RespHTTP 200 "200 OK" (inr first_page)
  else Fixture.api path.

(** A remote API that answers every request with status 200 and a body
    without an entity. *)
Definition hollow_api (path : string) : response :=
  RespHTTP 200 "200 OK"
    (inr {| j_entity := None; j_next_url := ""; j_resources := [] |}).

(** The computation sends at most [n] requests and writes at most [n]
    records. *)
Definition costs_at_most {A} (n : nat) (m : M A) : Prop :=
  ∀ w,
    (count is_request (trace (snd (m w)))
     ≤ count is_request (trace w) + n)%nat ∧
    (count is_put (trace (snd (m w))) ≤ count is_put (trace w) + n)%nat.

(** * Properties *)

Lemma new_events_app {A} (m : M A) (w : World) (evs : list event) :
  trace (snd (m w)) = (trace w ++ evs)%list → new_events m w = evs.
Proof.
  intros H. unfold new_events. rewrite H. apply drop_app_length.
Qed.

(** ** Invalid guids *)

(** C6. A string the UUID parser rejects makes [getEntity] return the
    parser's error at once, for every entity kind and in both backends: the
    world is left as it was, so that no request has been issued and the
    cache has been neither read nor written. *)
Theorem getEntity_invalid_guid
    (E : Env) (bc : Bolt.CachingBoltConfig) (mc : Memory.CachingMemoryConfig)
    (entityType guid msg : string) (w : World) :
  uuid_FromString E guid = inl msg →
  Bolt.getEntity E bc entityType guid w = (Done (Error (ErrUUID msg)), w) ∧
  Memory.getEntity E mc entityType guid w = (Done (Error (ErrUUID msg)), w).
Proof.
  intros Hparse. unfold Bolt.getEntity, Memory.getEntity.
  rewrite Hparse. split; reflexivity.
Qed.

Lemma getEntity_invalid_guid_witness :
  Bolt.getEntity (Fixture.env 1000 Fixture.draw_0 Fixture.api)
    (Fixture.bolt_config false 4000 []) "apps" "not-a-uuid"
    Fixture.empty_world
  = (Done (Error (ErrUUID "uuid: invalid string format")), Fixture.empty_world) ∧
  Memory.getEntity (Fixture.env 1000 Fixture.draw_0 Fixture.api)
    (Fixture.memory_config false 4000) "apps" "not-a-uuid"
    Fixture.empty_world
  = (Done (Error (ErrUUID "uuid: invalid string format")), Fixture.empty_world).
Proof.
  apply (getEntity_invalid_guid
           (Fixture.env 1000 Fixture.draw_0 Fixture.api)
           (Fixture.bolt_config false 4000 [])
           (Fixture.memory_config false 4000)
           "apps" "not-a-uuid" "uuid: invalid string format"
           Fixture.empty_world).
  reflexivity.
Defined.

(** ** The disabled backend *)

(** C3, as the claim states it, fails: [GetApp] of the disabled backend
    issues no request. *)
Lemma Empty_GetApp_issues_no_request :
  ¬ issues_request (Empty.GetApp Fixture.guid) Fixture.empty_world.
Proof.
  intros (path & resp & Hin). exact Hin.
Qed.

(** C3, amended. Every operation of the disabled backend returns at once
    and leaves the world as it was: [Open], [Close] and [FillCache] return
    no error, and [GetApp] returns neither an App nor an error, without a
    request to the remote API. *)
Theorem Empty_operations_are_noops (appGuid : string) (w : World) :
  Empty.Open w = (Done None, w) ∧
  Empty.Close w = (Done None, w) ∧
  Empty.FillCache w = (Done None, w) ∧
  Empty.GetApp appGuid w = (Done (None, None), w) ∧
  new_events (Empty.GetApp appGuid) w = [].
Proof.
  repeat split. apply new_events_app. simpl. by rewrite app_nil_r.
Qed.

(** ** The assembled App *)

Lemma Bolt_GetApp_inv (E : Env) (c : Bolt.CachingBoltConfig)
    (appGuid : string) (w w' : World) (a : App) (err : option error) :
  Bolt.GetApp E c appGuid w = (Done (Some a, err), w') →
  ∃ app space org,
    app_record_of (Bolt.IgnoreMissingApps c)
      (fst (Bolt.getEntity E c "apps" appGuid w)) app ∧
    err = None ∧
    a = {| Guid := appGuid; AppName := Name app; SpaceGuid := SpaceGUID app;
           SpaceName := Name space; OrgGuid := OrganizationGUID space;
           OrgName := Name org; IgnoredApp := appIsOptOut app |}.
Proof.
  unfold Bolt.GetApp, bind, ret, app_record_of. intros H.
  repeat case_match; simplify_eq; do 3 eexists;
    (split; [|split; reflexivity]); simpl; eauto.
Qed.

Lemma Memory_GetApp_inv (E : Env) (c : Memory.CachingMemoryConfig)
    (appGuid : string) (w w' : World) (a : App) (err : option error) :
  Memory.GetApp E c appGuid w = (Done (Some a, err), w') →
  ∃ app space org,
    app_record_of (Memory.IgnoreMissingApps c)
      (fst (Memory.getEntity E c "apps" appGuid w)) app ∧
    err = None ∧
    a = {| Guid := appGuid; AppName := Name app; SpaceGuid := SpaceGUID app;
           SpaceName := Name space; OrgGuid := OrganizationGUID space;
           OrgName := Name org; IgnoredApp := appIsOptOut app |}.
Proof.
  unfold Memory.GetApp, bind, ret, app_record_of. intros H.
  repeat case_match; simplify_eq; do 3 eexists;
    (split; [|split; reflexivity]); simpl; eauto.
Qed.

Lemma appIsOptOut_true_iff (e : entity) :
  appIsOptOut e = true ↔
  Environment e !! "F2S_DISABLE_LOGGING" = Some (IString "true").
Proof.
  unfold appIsOptOut.
  destruct (Environment e !! "F2S_DISABLE_LOGGING") as [[]|]; simpl;
    split; try discriminate.
  - intros H. apply String.eqb_eq in H. by subst.
  - intros [= ->]. reflexivity.
Qed.

(** C9. The [IgnoredApp] flag of the App that [GetApp] assembles, in both
    backends, is true exactly when the environment map of the app record
    holds the string ["true"] under the key [F2S_DISABLE_LOGGING]; an
    absent key or any other value, the JSON boolean [true] among them,
    gives false. *)
Theorem IgnoredApp_iff_opt_out_marker
    (E : Env) (bc : Bolt.CachingBoltConfig) (mc : Memory.CachingMemoryConfig)
    (appGuid : string) (w w' : World) (a : App) (err : option error) :
  (Bolt.GetApp E bc appGuid w = (Done (Some a, err), w') →
   ∃ app,
     app_record_of (Bolt.IgnoreMissingApps bc)
       (fst (Bolt.getEntity E bc "apps" appGuid w)) app ∧
     flag_follows_marker a app) ∧
  (Memory.GetApp E mc appGuid w = (Done (Some a, err), w') →
   ∃ app,
     app_record_of (Memory.IgnoreMissingApps mc)
       (fst (Memory.getEntity E mc "apps" appGuid w)) app ∧
     flag_follows_marker a app).
Proof.
  split; intros H;
    [apply Bolt_GetApp_inv in H | apply Memory_GetApp_inv in H];
    destruct H as (app & space & org & Hrec & -> & ->); exists app;
    (split; [exact Hrec|]); unfold flag_follows_marker, marker; simpl;
    (split; [reflexivity|]);
    (split; [apply appIsOptOut_true_iff|]);
    unfold appIsOptOut; split; intros ->; reflexivity.
Qed.

Lemma IgnoredApp_iff_opt_out_marker_witness :
  ∃ app,
    app_record_of false
      (fst (Bolt.getEntity (Fixture.env 1000 Fixture.draw_0 Fixture.api)
              (Fixture.bolt_config false 4000 ["-venerable"]) "apps"
              Fixture.guid Fixture.empty_world)) app ∧
    flag_follows_marker
      {| Guid := Fixture.guid; AppName := "billing";
         SpaceGuid := Fixture.space_guid; SpaceName := "dev";
         OrgGuid := Fixture.org_guid; OrgName := "org1";
         IgnoredApp := true |}
      app.
Proof.
  apply (proj1 (IgnoredApp_iff_opt_out_marker
           (Fixture.env 1000 Fixture.draw_0 Fixture.api)
           (Fixture.bolt_config false 4000 ["-venerable"])
           (Fixture.memory_config false 4000)
           Fixture.guid Fixture.empty_world
           (snd (Bolt.GetApp (Fixture.env 1000 Fixture.draw_0 Fixture.api)
                   (Fixture.bolt_config false 4000 ["-venerable"])
                   Fixture.guid Fixture.empty_world))
           {| Guid := Fixture.guid; AppName := "billing";
              SpaceGuid := Fixture.space_guid; SpaceName := "dev";
              OrgGuid := Fixture.org_guid; OrgName := "org1";
              IgnoredApp := true |}
           None)).
  vm_compute. reflexivity.
Defined.

(** C10. The App that [GetApp] returns, in both backends, carries in
    [Guid] the string the caller passed, as it was passed: when the parser
    accepts the string and its canonical form differs from it, [Guid] is
    not the canonical form. *)
Theorem GetApp_Guid_is_the_raw_input
    (E : Env) (bc : Bolt.CachingBoltConfig) (mc : Memory.CachingMemoryConfig)
    (appGuid uuid : string) (w w' : World) (a : App) (err : option error) :
  uuid_FromString E appGuid = inr uuid →
  (Bolt.GetApp E bc appGuid w = (Done (Some a, err), w') →
   Guid a = appGuid ∧ (uuid ≠ appGuid → Guid a ≠ uuid)) ∧
  (Memory.GetApp E mc appGuid w = (Done (Some a, err), w') →
   Guid a = appGuid ∧ (uuid ≠ appGuid → Guid a ≠ uuid)).
Proof.
  intros _. split; intros H;
    [apply Bolt_GetApp_inv in H | apply Memory_GetApp_inv in H];
    destruct H as (app & space & org & _ & -> & ->); simpl;
    split; congruence.
Qed.

Lemma GetApp_Guid_is_the_raw_input_witness :
  Guid {| Guid := Fixture.GUID; AppName := "billing-venerable";
          SpaceGuid := Fixture.space_guid; SpaceName := "dev";
          OrgGuid := Fixture.org_guid; OrgName := "org1";
          IgnoredApp := true |} = Fixture.GUID ∧
  (Fixture.guid ≠ Fixture.GUID →
   Guid {| Guid := Fixture.GUID; AppName := "billing-venerable";
           SpaceGuid := Fixture.space_guid; SpaceName := "dev";
           OrgGuid := Fixture.org_guid; OrgName := "org1";
           IgnoredApp := true |} ≠ Fixture.guid).
Proof.
  apply (proj2 (GetApp_Guid_is_the_raw_input
           (Fixture.env 1000 Fixture.draw_0 Fixture.api)
           (Fixture.bolt_config false 4000 ["-venerable"])
           (Fixture.memory_config false 4000)
           Fixture.GUID Fixture.guid Fixture.empty_world
           (snd (Memory.GetApp (Fixture.env 1000 Fixture.draw_0 Fixture.api)
                   (Fixture.memory_config false 4000)
                   Fixture.GUID Fixture.empty_world))
           {| Guid := Fixture.GUID; AppName := "billing-venerable";
              SpaceGuid := Fixture.space_guid; SpaceName := "dev";
              OrgGuid := Fixture.org_guid; OrgName := "org1";
              IgnoredApp := true |}
           None eq_refl)).
  vm_compute. reflexivity.
Defined.

(** ** Name suffixes *)

Lemma substring_all (s : string) : substring 0 (String.length s) s = s.
Proof. induction s as [|a s IH]; simpl; [reflexivity | by rewrite IH]. Qed.

Lemma substring_split (s : string) (n : nat) :
  (n ≤ String.length s)%nat →
  (substring 0 n s ++ substring n (String.length s - n) s)%string = s.
Proof.
  revert n. induction s as [|a s IH]; intros [|n] Hn; simpl in *.
  - reflexivity.
  - lia.
  - by rewrite substring_all.
  - change (String a (substring 0 n s +:+ substring n (String.length s - n) s)
            = String a s).
    f_equal. apply IH. lia.
Qed.

Lemma HasSuffix_true (s suffix : string) :
  HasSuffix s suffix = true →
  (substring 0 (String.length s - String.length suffix) s ++ suffix)%string = s.
Proof.
  unfold HasSuffix. intros H. apply andb_true_iff in H as [Hlen Heq].
  apply Nat.leb_le in Hlen. apply String.eqb_eq in Heq.
  remember (String.length s - String.length suffix)%nat as n eqn:Hn.
  assert (Hk : String.length suffix = (String.length s - n)%nat) by lia.
  rewrite Hk in Heq. rewrite <- Heq. apply substring_split. lia.
Qed.

Lemma stripAppSuffixes_first (name s : string) (before after : list string) :
  Forall (λ t, HasSuffix name t = false) before →
  HasSuffix name s = true →
  (stripAppSuffixes name (before ++ s :: after) ++ s)%string = name.
Proof.
  intros Hbefore Hs. induction Hbefore as [|t before Ht _ IH]; simpl.
  - rewrite Hs. by apply HasSuffix_true.
  - by rewrite Ht.
Qed.

Lemma stripAppSuffixes_none (name : string) (suffixes : list string) :
  Forall (λ t, HasSuffix name t = false) suffixes →
  stripAppSuffixes name suffixes = name.
Proof.
  intros H. induction H as [|t l Ht _ IH]; simpl; [reflexivity|].
  by rewrite Ht.
Qed.

Lemma stripAppSuffixes_empty_name (suffixes : list string) :
  stripAppSuffixes "" suffixes = "".
Proof.
  induction suffixes as [|t l IH]; simpl; [reflexivity|].
  by destruct (HasSuffix "" t).
Qed.

(** C7, as the claim states it, fails: with the suffixes ["-old"] and
    ["-very-old"] in this order, ["app-very-old"] loses ["-old"], the first
    match, and not the longer ["-very-old"]. *)
Lemma longest_suffix_is_not_the_one_stripped :
  ¬ strips_longest_match "app-very-old" ["-old"; "-very-old"].
Proof.
  intros H. specialize (H "-very-old").
  assert (Hne : (stripAppSuffixes "app-very-old" ["-old"; "-very-old"]
                 ++ "-very-old")%string ≠ "app-very-old") by discriminate.
  apply Hne, H.
  - right. left. reflexivity.
  - reflexivity.
  - intros t [<-|[<-|[]]] _; simpl; lia.
Qed.

(** C7, amended. When an app record is normalised, the first suffix of the
    configured list, in its order, that the name ends with is cut off, and
    no other (so at most one, and not always the longest); a name that ends
    with none of them is unchanged; the name of a space or an organization
    is never changed.  With the list [["-venerable"]], ["billing-venerable"]
    becomes ["billing"] and ["billing"] stays. *)
Theorem normalise_strips_first_matching_suffix
    (c : Bolt.CachingBoltConfig) (now : Z) (r : spec_float) (nv : entity) :
  (∀ before s after,
     Bolt.StripAppSuffixes c = (before ++ s :: after)%list →
     Forall (λ t, HasSuffix (Name nv) t = false) before →
     HasSuffix (Name nv) s = true →
     (Name (Bolt.normalise c "apps" now r nv) ++ s)%string = Name nv) ∧
  (Forall (λ t, HasSuffix (Name nv) t = false) (Bolt.StripAppSuffixes c) →
   Name (Bolt.normalise c "apps" now r nv) = Name nv) ∧
  (∀ entityType, entityType ≠ "apps" →
     Name (Bolt.normalise c entityType now r nv) = Name nv) ∧
  stripAppSuffixes "billing-venerable" ["-venerable"] = "billing" ∧
  stripAppSuffixes "billing" ["-venerable"] = "billing".
Proof.
  repeat split.
  - intros before s after Hl Hb Hs. simpl. rewrite Hl.
    by apply stripAppSuffixes_first.
  - intros Hnone. simpl. by apply stripAppSuffixes_none.
  - intros entityType Hne. unfold Bolt.normalise.
    destruct (String.eqb_spec entityType "apps"); [contradiction | reflexivity].
Qed.

(** ** Counting the interactions *)

Lemma count_app (p : event → bool) (l1 l2 : list event) :
  count p (l1 ++ l2) = (count p l1 + count p l2)%nat.
Proof. unfold count. by rewrite List.filter_app, length_app. Qed.

Lemma count_log (p : event → bool) (ev : event) (w : World) :
  count p (trace (log ev w)) = (count p (trace w) + if p ev then 1 else 0)%nat.
Proof.
  unfold log. simpl. rewrite count_app. unfold count. simpl.
  by destruct (p ev).
Qed.

(** ** The expiry check *)

(** What [getEntity] does with a record [rv] that the cache holds under
    the key: it reads the clock, returns [rv] when its expiry is before
    the reading, and fetches from the remote API otherwise. *)
Lemma Bolt_getEntity_present (E : Env) (c : Bolt.CachingBoltConfig)
    (entityType guid uuid : string) (rv : entity) (w : World) :
  uuid_FromString E guid = inr uuid →
  bolt_fault E (count is_bolt_tx (trace w)) = None →
  store w !! Bolt.makeBoltKey entityType uuid = Some rv →
  let now := time_Now_at E (count is_now (trace w)) in
  let w1 := log (EvNow now) (log (EvGet (Bolt.makeBoltKey entityType uuid)) w) in
  Bolt.getEntity E c entityType guid w
  = if TTL rv <? now then (Done (Ok rv), w1)
    else Bolt.fetchAndSave E c entityType uuid w1.
Proof.
  intros Hp Hfault Hrv. unfold Bolt.getEntity. rewrite Hp.
  unfold bind at 1. unfold Bolt.viewEntity. rewrite Hfault, Hrv.
  unfold bind at 1. unfold time_Now. rewrite count_log. simpl.
  rewrite Nat.add_0_r. by destruct (TTL rv <? _).
Qed.

Lemma Memory_getEntity_present (E : Env) (c : Memory.CachingMemoryConfig)
    (entityType guid uuid : string) (rv : entity) (w : World) :
  uuid_FromString E guid = inr uuid →
  store w !! (entityType ++ "/" ++ uuid)%string = Some rv →
  let key := (entityType ++ "/" ++ uuid)%string in
  let now := time_Now_at E (count is_now (trace w)) in
  let w1 := log (EvNow now) (log (EvGet key) w) in
  Memory.getEntity E c entityType guid w
  = if TTL rv <? now then (Done (Ok rv), w1)
    else Memory.fetchAndStore E c entityType uuid key w1.
Proof.
  intros Hp Hrv. unfold Memory.getEntity. rewrite Hp.
  unfold bind at 1. unfold Memory.cacheLookup. rewrite Hrv.
  unfold bind at 1. unfold time_Now. rewrite count_log. simpl.
  rewrite Nat.add_0_r. by destruct (TTL rv <? _).
Qed.

(** C1, on the code. The comparison is [rv.TTL.Before(time.Now())]: at time
    1000 a cached record that expires at 2000 is fetched again and
    overwritten, and a cached record that expired at 500 is returned with
    no request, in both backends. *)
Theorem getEntity_serves_expired_and_refetches_fresh :
  let E := Fixture.env 1000 Fixture.draw_0 Fixture.api in
  let bc := Fixture.bolt_config false 4000 [] in
  let mc := Fixture.memory_config false 4000 in
  let key := ("apps/" ++ Fixture.guid)%string in
  let path := ("/v2/apps/" ++ Fixture.guid)%string in
  let cached := set_Name "cached" Fixture.app_record in
  new_events (Bolt.getEntity E bc "apps" Fixture.guid) (Fixture.cached_world 2000)
  = [EvGet key; EvNow 1000; EvRequest path (Fixture.ok Fixture.app_record);
     EvNow 1000; EvRand Fixture.draw_0;
     EvPut key (set_TTL 4000 Fixture.app_record)] ∧
  fst (Bolt.getEntity E bc "apps" Fixture.guid (Fixture.cached_world 2000))
  = Done (Ok (set_TTL 4000 Fixture.app_record)) ∧
  new_events (Bolt.getEntity E bc "apps" Fixture.guid) (Fixture.cached_world 500)
  = [EvGet key; EvNow 1000] ∧
  fst (Bolt.getEntity E bc "apps" Fixture.guid (Fixture.cached_world 500))
  = Done (Ok (set_TTL 500 cached)) ∧
  new_events (Memory.getEntity E mc "apps" Fixture.guid) (Fixture.cached_world 2000)
  = [EvGet key; EvNow 1000; EvRequest path (Fixture.ok Fixture.app_record);
     EvNow 1000; EvPut key (set_TTL 5000 Fixture.app_record)] ∧
  fst (Memory.getEntity E mc "apps" Fixture.guid (Fixture.cached_world 2000))
  = Done (Ok (set_TTL 5000 Fixture.app_record)) ∧
  new_events (Memory.getEntity E mc "apps" Fixture.guid) (Fixture.cached_world 500)
  = [EvGet key; EvNow 1000] ∧
  fst (Memory.getEntity E mc "apps" Fixture.guid (Fixture.cached_world 500))
  = Done (Ok (set_TTL 500 cached)).
Proof.
  repeat split; vm_compute; reflexivity.
Qed.

(** ** Missing apps *)

Lemma Bolt_getEntity_invalid (E : Env) (c : Bolt.CachingBoltConfig)
    (entityType guid msg : string) (w : World) :
  uuid_FromString E guid = inl msg →
  Bolt.getEntity E c entityType guid w = (Done (Error (ErrUUID msg)), w).
Proof. intros H. unfold Bolt.getEntity. by rewrite H. Qed.

Lemma Memory_getEntity_invalid (E : Env) (c : Memory.CachingMemoryConfig)
    (entityType guid msg : string) (w : World) :
  uuid_FromString E guid = inl msg →
  Memory.getEntity E c entityType guid w = (Done (Error (ErrUUID msg)), w).
Proof. intros H. unfold Memory.getEntity. by rewrite H. Qed.

Lemma Bolt_getSpaceAndOrg_empty (E : Env) (c : Bolt.CachingBoltConfig)
    (msg : string) (w : World) :
  Bolt.IgnoreMissingApps c = true →
  uuid_FromString E "" = inl msg →
  Bolt.getSpaceAndOrg E c "" w = (Done (Ok (zero_entity, zero_entity)), w).
Proof.
  intros Hi He. unfold Bolt.getSpaceAndOrg, bind.
  rewrite (Bolt_getEntity_invalid E c "spaces" "" msg w He), Hi. simpl.
  rewrite (Bolt_getEntity_invalid E c "organizations" "" msg w He).
  reflexivity.
Qed.

Lemma Bolt_GetApp_blank (E : Env) (c : Bolt.CachingBoltConfig)
    (appGuid msg : string) (w w1 : World) (r : result entity) :
  Bolt.IgnoreMissingApps c = true →
  uuid_FromString E "" = inl msg →
  Bolt.getEntity E c "apps" appGuid w = (Done r, w1) →
  is_blank r →
  Bolt.GetApp E c appGuid w = (Done (Some (blank_App appGuid), None), w1).
Proof.
  intros Hi He Hget Hblank. unfold Bolt.GetApp, bind. rewrite Hget, Hi.
  destruct r as [app|err]; simpl in *.
  - destruct Hblank as (Hn & Hs & Henv).
    rewrite Hs, (Bolt_getSpaceAndOrg_empty E c msg w1 Hi He). unfold ret.
    unfold blank_App, appIsOptOut. rewrite Hn, Henv. reflexivity.
  - rewrite (Bolt_getSpaceAndOrg_empty E c msg w1 Hi He). reflexivity.
Qed.

Lemma Memory_GetApp_blank (E : Env) (c : Memory.CachingMemoryConfig)
    (appGuid msg : string) (w w1 : World) (err : error) :
  Memory.IgnoreMissingApps c = true →
  uuid_FromString E "" = inl msg →
  Memory.getEntity E c "apps" appGuid w = (Done (Error err), w1) →
  Memory.GetApp E c appGuid w = (Done (Some (blank_App appGuid), None), w1).
Proof.
  intros Hi He Hget. unfold Memory.GetApp, bind. rewrite Hget, Hi. simpl.
  rewrite (Memory_getEntity_invalid E c "spaces" "" msg w1 He). simpl.
  rewrite (Memory_getEntity_invalid E c "organizations" "" msg w1 He).
  reflexivity.
Qed.

Lemma Bolt_fetchEntityFromAPI_failed (E : Env)
    (entityType uuid : string) (w : World) :
  let path := ("/v2/" ++ entityType ++ "/" ++ uuid)%string in
  let resp := http_Do E (count is_request (trace w)) path in
  failed resp = true →
  ∃ err, Bolt.fetchEntityFromAPI E entityType uuid w
         = (Done (Error err), log (EvRequest path resp) w).
Proof.
  intros path resp Hf.
  unfold Bolt.fetchEntityFromAPI, Bolt.makeRequestAndDecodeJSON, bind, ret,
    DoRequest.
  fold path. fold resp. destruct resp as [m|code st [m|b]]; simpl in *;
    try destruct (code =? 200); simpl in *; try discriminate; eauto.
Qed.

Lemma Bolt_fetchAndSave_failed_app (E : Env) (c : Bolt.CachingBoltConfig)
    (uuid : string) (w : World) :
  Bolt.IgnoreMissingApps c = true →
  failed (http_Do E (count is_request (trace w)) ("/v2/apps/" ++ uuid)) = true →
  ∃ r w1, Bolt.fetchAndSave E c "apps" uuid w = (Done r, w1) ∧ is_blank r.
Proof.
  intros Hi Hf.
  destruct (Bolt_fetchEntityFromAPI_failed E "apps" uuid w Hf) as [err Hfetch].
  unfold Bolt.fetchAndSave, bind. rewrite Hfetch, Hi. simpl.
  unfold Bolt.normaliseAndSaveEntityToDatabase, bind, ret, time_Now,
    rand_Float64, Bolt.updatePut.
  repeat case_match; simplify_eq; do 2 eexists; (split; [reflexivity|]);
    simpl; auto using stripAppSuffixes_empty_name.
Qed.

Lemma Bolt_getEntity_failed_app (E : Env) (c : Bolt.CachingBoltConfig)
    (appGuid uuid : string) (w : World) :
  Bolt.IgnoreMissingApps c = true →
  uuid_FromString E appGuid = inr uuid →
  served_from_cache (store w !! ("apps/" ++ uuid)%string)
    (time_Now_at E (count is_now (trace w))) = false →
  failed (http_Do E (count is_request (trace w)) ("/v2/apps/" ++ uuid)) = true →
  ∃ r w1, Bolt.getEntity E c "apps" appGuid w = (Done r, w1) ∧ is_blank r.
Proof.
  intros Hi Hp Hmiss Hf. unfold Bolt.getEntity. rewrite Hp.
  unfold bind at 1. unfold Bolt.viewEntity, Bolt.makeBoltKey.
  destruct (bolt_fault E _) as [m|].
  { do 2 eexists. split; [reflexivity | exact I]. }
  destruct (store w !! _) as [rv|] eqn:Hrv; simpl in Hmiss.
  - unfold bind at 1. unfold time_Now. rewrite count_log. simpl.
    rewrite Nat.add_0_r, Hmiss.
    apply Bolt_fetchAndSave_failed_app; [exact Hi|].
    rewrite !count_log. simpl. by rewrite !Nat.add_0_r.
  - apply Bolt_fetchAndSave_failed_app; [exact Hi|].
    rewrite !count_log. simpl. by rewrite !Nat.add_0_r.
Qed.

Lemma Memory_getEntity_failed (E : Env) (c : Memory.CachingMemoryConfig)
    (entityType guid uuid : string) (w : World) :
  uuid_FromString E guid = inr uuid →
  served_from_cache (store w !! (entityType ++ "/" ++ uuid)%string)
    (time_Now_at E (count is_now (trace w))) = false →
  failed (http_Do E (count is_request (trace w))
            ("/v2/" ++ entityType ++ "/" ++ uuid)) = true →
  ∃ err w1, Memory.getEntity E c entityType guid w = (Done (Error err), w1) ∧
            store w1 = store w.
Proof.
  intros Hp Hmiss Hf. unfold Memory.getEntity. rewrite Hp.
  unfold bind at 1. unfold Memory.cacheLookup.
  assert (Hfetch : ∀ w0, store w0 = store w →
            count is_request (trace w0) = count is_request (trace w) →
            ∃ err w1, Memory.fetchAndStore E c entityType uuid
                        (entityType ++ "/" ++ uuid) w0
                      = (Done (Error err), w1) ∧ store w1 = store w).
  { intros w0 Hs Hc. unfold Memory.fetchAndStore, bind, DoRequest. rewrite Hc.
    destruct (http_Do E _ _) as [m|code st [m|b]]; simpl in *;
      try destruct (code =? 200); simpl in *; try discriminate;
      do 2 eexists; (split; [reflexivity | exact Hs]). }
  destruct (store w !! _) as [rv|] eqn:Hrv; simpl in Hmiss.
  - unfold bind at 1. unfold time_Now. rewrite count_log. simpl.
    rewrite Nat.add_0_r, Hmiss. apply Hfetch; [reflexivity|].
    rewrite !count_log. simpl. by rewrite !Nat.add_0_r.
  - apply Hfetch; [reflexivity|].
    rewrite !count_log. simpl. by rewrite !Nat.add_0_r.
Qed.

(** C4. With [IgnoreMissingApps] set, when the lookup of the app goes to
    the remote API and the request fails, [GetApp] of either backend
    returns no error but the App without names: the guid as passed, empty
    name, space and organization fields, and the flag unset.  The lookups
    of the space and of the organization are made with the empty guid,
    which the parser rejects, and their errors are replaced by zero records
    as well. *)
Theorem GetApp_tolerates_failed_app_fetch
    (E : Env) (bc : Bolt.CachingBoltConfig) (mc : Memory.CachingMemoryConfig)
    (appGuid uuid msg : string) (w : World) :
  Bolt.IgnoreMissingApps bc = true →
  Memory.IgnoreMissingApps mc = true →
  uuid_FromString E "" = inl msg →
  uuid_FromString E appGuid = inr uuid →
  served_from_cache (store w !! ("apps/" ++ uuid)%string)
    (time_Now_at E (count is_now (trace w))) = false →
  failed (http_Do E (count is_request (trace w)) ("/v2/apps/" ++ uuid)) = true →
  fst (Bolt.GetApp E bc appGuid w) = Done (Some (blank_App appGuid), None) ∧
  fst (Memory.GetApp E mc appGuid w) = Done (Some (blank_App appGuid), None) ∧
  (∀ w', Bolt.getSpaceAndOrg E bc "" w'
         = (Done (Ok (zero_entity, zero_entity)), w')) ∧
  (∀ entityType w',
     Memory.getEntity E mc entityType "" w' = (Done (Error (ErrUUID msg)), w')).
Proof.
  intros Hbi Hmi He Hp Hmiss Hf. repeat split.
  - destruct (Bolt_getEntity_failed_app E bc appGuid uuid w Hbi Hp Hmiss Hf)
      as (r & w1 & Hget & Hblank).
    by rewrite (Bolt_GetApp_blank E bc appGuid msg w w1 r Hbi He Hget Hblank).
  - destruct (Memory_getEntity_failed E mc "apps" appGuid uuid w Hp Hmiss Hf)
      as (err & w1 & Hget & _).
    by rewrite (Memory_GetApp_blank E mc appGuid msg w w1 err Hmi He Hget).
  - intros w'. by apply Bolt_getSpaceAndOrg_empty with msg.
  - intros entityType w'. by apply Memory_getEntity_invalid.
Qed.

Lemma GetApp_tolerates_failed_app_fetch_witness :
  fst (Bolt.GetApp (Fixture.env 1000 Fixture.draw_0 Fixture.api_down)
         (Fixture.bolt_config true 4000 ["-venerable"])
         Fixture.GUID Fixture.empty_world)
  = Done (Some (blank_App Fixture.GUID), None) ∧
  fst (Memory.GetApp (Fixture.env 1000 Fixture.draw_0 Fixture.api_down)
         (Fixture.memory_config true 4000)
         Fixture.GUID Fixture.empty_world)
  = Done (Some (blank_App Fixture.GUID), None) ∧
  (∀ w', Bolt.getSpaceAndOrg (Fixture.env 1000 Fixture.draw_0 Fixture.api_down)
           (Fixture.bolt_config true 4000 ["-venerable"]) "" w'
         = (Done (Ok (zero_entity, zero_entity)), w')) ∧
  (∀ entityType w',
     Memory.getEntity (Fixture.env 1000 Fixture.draw_0 Fixture.api_down)
       (Fixture.memory_config true 4000) entityType "" w'
     = (Done (Error (ErrUUID "uuid: invalid string format")), w')).
Proof.
  apply (GetApp_tolerates_failed_app_fetch
           (Fixture.env 1000 Fixture.draw_0 Fixture.api_down)
           (Fixture.bolt_config true 4000 ["-venerable"])
           (Fixture.memory_config true 4000)
           Fixture.GUID Fixture.guid "uuid: invalid string format"
           Fixture.empty_world);
    reflexivity.
Defined.

(** ** Where the writes come from *)

Section Origins.
Variable origin : list event → string → entity → Prop.

Lemma puts_from_app (pre e1 e2 : list event) :
  puts_from origin pre (e1 ++ e2) ↔
  puts_from origin pre e1 ∧ puts_from origin (pre ++ e1) e2.
Proof.
  revert pre. induction e1 as [|ev e1 IH]; intros pre; simpl.
  - rewrite app_nil_r. tauto.
  - rewrite IH, <- app_assoc. simpl. tauto.
Qed.

Lemma puts_from_other (pre : list event) (ev : event) :
  is_put ev = false → puts_from origin pre [ev].
Proof. intros H. destruct ev; try discriminate; simpl; auto. Qed.

Lemma puts_from_split (pre evs p post : list event) (k : string) (v : entity) :
  puts_from origin pre evs → evs = (p ++ EvPut k v :: post)%list →
  origin (pre ++ p) k v.
Proof.
  intros H ->. apply puts_from_app in H as [_ H]. simpl in H. tauto.
Qed.
End Origins.

Section Appends.
Variable P : list event → list event → Prop.
Hypothesis P_nil : ∀ pre, P pre [].
Hypothesis P_app :
  ∀ pre e1 e2, P pre e1 → P (pre ++ e1) e2 → P pre (e1 ++ e2).

Lemma appends_ret {A} (a : A) : appends P (ret a).
Proof. intros w. exists []. simpl. by rewrite app_nil_r. Qed.

Lemma appends_panic {A} : appends P (@panic A).
Proof. intros w. exists []. simpl. by rewrite app_nil_r. Qed.

Lemma appends_diverge {A} : appends P (@diverge A).
Proof. intros w. exists []. simpl. by rewrite app_nil_r. Qed.

Lemma appends_bind {A B} (m : M A) (k : A → M B) :
  appends P m → (∀ a, appends P (k a)) → appends P (bind m k).
Proof.
  intros Hm Hk w. unfold bind. destruct (Hm w) as (e1 & Ht1 & HP1).
  destruct (m w) as [[a| |] w1]; simpl in *; eauto.
  destruct (Hk a w1) as (e2 & Ht2 & HP2).
  exists (e1 ++ e2)%list. rewrite Ht2, Ht1, app_assoc. split; [reflexivity|].
  apply P_app; [exact HP1 | by rewrite <- Ht1].
Qed.
End Appends.

Lemma appends_new_events {A} (P : list event → list event → Prop)
    (m : M A) (w : World) :
  appends P m → P (trace w) (new_events m w).
Proof.
  intros H. destruct (H w) as (evs & Ht & HP).
  by rewrite (new_events_app m w evs Ht).
Qed.

(** *** The persistent backend *)

Lemma bolt_origin_intro (E : Env) (c : Bolt.CachingBoltConfig)
    (apps : list (string * option entity)) (pre : list event)
    (t : Z) (n : nat) (entityType uuid : string) (raw : entity) :
  fetched pre entityType uuid raw ∨
  substituted c pre entityType uuid raw ∨
  preloaded E apps entityType uuid raw →
  bolt_origin E c apps
    ((pre ++ [EvNow t]) ++ [EvRand (rand_Float64_at E n)])
    (Bolt.makeBoltKey entityType uuid)
    (Bolt.normalise c entityType t (rand_Float64_at E n) raw).
Proof.
  intros H. exists pre, t, (rand_Float64_at E n), entityType, uuid, raw.
  rewrite <- app_assoc. eauto 10.
Qed.

(** What [normaliseAndSaveEntityToDatabase] appends when the record has
    one of the three origins. *)
Lemma Bolt_normaliseAndSave_appends (E : Env) (c : Bolt.CachingBoltConfig)
    (apps : list (string * option entity))
    (entityType uuid : string) (nv : option entity) (w : World) :
  (∀ raw, nv = Some raw →
     fetched (trace w) entityType uuid raw ∨
     substituted c (trace w) entityType uuid raw ∨
     preloaded E apps entityType uuid raw) →
  ∃ evs,
    trace (snd (Bolt.normaliseAndSaveEntityToDatabase E c entityType uuid nv w))
    = (trace w ++ evs)%list ∧
    puts_from (bolt_origin E c apps) (trace w) evs.
Proof.
  intros Hsrc.
  unfold Bolt.normaliseAndSaveEntityToDatabase, bind, ret, panic, time_Now,
    rand_Float64, Bolt.updatePut.
  repeat case_match; simplify_eq; simpl; rewrite <- ?app_assoc; simpl;
    eexists; (split; [first [reflexivity | symmetry; apply app_nil_r]|]);
    simpl; repeat split.
  apply bolt_origin_intro. auto.
Qed.

Lemma bolt_writes_nil (E : Env) (c : Bolt.CachingBoltConfig)
    (apps : list (string * option entity)) (pre : list event) :
  bolt_writes E c apps pre [].
Proof. exact I. Qed.

Lemma bolt_writes_app (E : Env) (c : Bolt.CachingBoltConfig)
    (apps : list (string * option entity)) (pre e1 e2 : list event) :
  bolt_writes E c apps pre e1 → bolt_writes E c apps (pre ++ e1) e2 →
  bolt_writes E c apps pre (e1 ++ e2).
Proof. intros H1 H2. apply puts_from_app. auto. Qed.

Lemma Bolt_fetchEntityFromAPI_eq (E : Env) (entityType uuid : string)
    (w : World) :
  let path := ("/v2/" ++ entityType ++ "/" ++ uuid)%string in
  let resp := http_Do E (count is_request (trace w)) path in
  Bolt.fetchEntityFromAPI E entityType uuid w
  = (Done match resp with
          | RespErr msg => Error (ErrClient msg)
          | RespHTTP code status body =>
              if code =? 200
              then match body with
                   | inl msg => Error (ErrJSON msg)
                   | inr b => Ok (j_entity b)
                   end
              else Error (ErrBadStatus status)
          end,
     log (EvRequest path resp) w).
Proof.
  simpl. unfold Bolt.fetchEntityFromAPI, Bolt.makeRequestAndDecodeJSON, bind,
    ret, DoRequest.
  destruct (http_Do E _ _) as [m|code st [m|b]]; simpl;
    try destruct (code =? 200); reflexivity.
Qed.

Lemma Bolt_fetchAndSave_appends (E : Env) (c : Bolt.CachingBoltConfig)
    (apps : list (string * option entity)) (entityType uuid : string) :
  appends (bolt_writes E c apps) (Bolt.fetchAndSave E c entityType uuid).
Proof.
  intros w.
  unfold Bolt.fetchAndSave, Bolt.fetchEntityFromAPI,
    Bolt.makeRequestAndDecodeJSON, Bolt.normaliseAndSaveEntityToDatabase,
    bind, ret, panic, DoRequest, time_Now, rand_Float64, Bolt.updatePut.
  repeat case_match; simplify_eq; simpl; rewrite <- ?app_assoc; simpl;
    eexists; (split; [first [reflexivity | symmetry; apply app_nil_r]|]);
    simpl; repeat split.
  all: apply bolt_origin_intro.
  all: repeat match goal with
         | H : _ && _ = true |- _ => apply andb_true_iff in H as [? ?]
         | H : (_ =? _)%string = true |- _ => apply String.eqb_eq in H
         | H : (_ =? _)%Z = true |- _ => apply Z.eqb_eq in H
         end; subst.
  - left. eexists _, _, _. split; [reflexivity | assumption].
  - right. left. eexists _, _. repeat split; assumption.
  - right. left. eexists _, _. repeat split; assumption.
  - right. left. eexists _, _. repeat split; try assumption.
    simpl. match goal with H : (_ =? 200) = false |- _ => by rewrite H end.
Qed.

Section BoltTraces.
Variable E : Env.
Variable c : Bolt.CachingBoltConfig.
Variable apps : list (string * option entity).

Local Abbreviation writes := (bolt_writes E c apps).
Local Abbreviation bind_ok :=
  (appends_bind writes (bolt_writes_app E c apps)).
Local Abbreviation ret_ok := (appends_ret writes (bolt_writes_nil E c apps)).

Lemma Bolt_time_Now_appends : appends writes (time_Now E).
Proof. intros w. eexists [_]. repeat split. Qed.

Lemma Bolt_viewEntity_appends (key : string) :
  appends writes (Bolt.viewEntity E key).
Proof.
  intros w. unfold Bolt.viewEntity.
  repeat case_match; eexists [_]; repeat split.
Qed.

Lemma Bolt_makeRequestAndDecodeJSON_appends (url : string) :
  appends writes (Bolt.makeRequestAndDecodeJSON E url).
Proof. intros w. eexists [_]. repeat split. Qed.

Lemma Bolt_getEntity_appends (entityType guid : string) :
  appends writes (Bolt.getEntity E c entityType guid).
Proof.
  unfold Bolt.getEntity. destruct (uuid_FromString E guid) as [msg|uuid].
  { apply ret_ok. }
  apply bind_ok; [apply Bolt_viewEntity_appends|].
  intros [rv|err].
  - apply bind_ok; [apply Bolt_time_Now_appends|]. intros now.
    destruct (TTL rv <? now); [apply ret_ok | apply Bolt_fetchAndSave_appends].
  - destruct err; first [apply Bolt_fetchAndSave_appends | apply ret_ok].
Qed.

Lemma Bolt_getSpaceAndOrg_appends (spaceGuid : string) :
  appends writes (Bolt.getSpaceAndOrg E c spaceGuid).
Proof.
  unfold Bolt.getSpaceAndOrg.
  apply bind_ok; [apply Bolt_getEntity_appends|]. intros s.
  destruct (match s with Ok space => Ok space | Error err => _ end)
    as [space|err]; [|apply ret_ok].
  apply bind_ok; [apply Bolt_getEntity_appends|]. intros o.
  destruct (match o with Ok org => Ok org | Error err => _ end);
    apply ret_ok.
Qed.

Lemma Bolt_GetApp_appends (appGuid : string) :
  appends writes (Bolt.GetApp E c appGuid).
Proof.
  unfold Bolt.GetApp.
  apply bind_ok; [apply Bolt_getEntity_appends|]. intros a.
  destruct (match a with Ok app => Ok app | Error err => _ end)
    as [app|err]; [|apply ret_ok].
  apply bind_ok; [apply Bolt_getSpaceAndOrg_appends|].
  intros [[space org]|err]; apply ret_ok.
Qed.

Lemma Bolt_fetchPages_appends (fuel : nat) (url : string)
    (rv : gmap string (option entity)) :
  appends writes (Bolt.fetchPages E fuel url rv).
Proof.
  revert url rv. induction fuel as [|fuel IH]; intros url rv; simpl.
  { apply appends_diverge, bolt_writes_nil. }
  apply bind_ok; [apply Bolt_makeRequestAndDecodeJSON_appends|].
  intros [b|err]; [|apply ret_ok].
  destruct (j_next_url b =? "")%string; [apply ret_ok | apply IH].
Qed.

Lemma Bolt_fillApps_appends (l : list (string * option entity)) :
  (∀ x, In x l → In x apps) →
  appends writes (Bolt.fillApps E c l).
Proof.
  induction l as [|[guid app] l IH]; intros Hsub; simpl.
  { apply ret_ok. }
  destruct (uuid_FromString E guid) as [msg|uuid] eqn:Hp; [apply ret_ok|].
  apply bind_ok.
  - intros w. apply Bolt_normaliseAndSave_appends.
    intros raw ->. right. right. exists guid. repeat split; auto.
    apply Hsub. by left.
  - intros [app' [err|]]; [apply ret_ok|].
    apply bind_ok; [apply Bolt_getSpaceAndOrg_appends|].
    intros [so|err]; [|apply ret_ok].
    apply IH. intros x Hx. apply Hsub. by right.
Qed.
End BoltTraces.

Lemma Bolt_FillCache_writes (E : Env) (c : Bolt.CachingBoltConfig)
    (fuel : nat) (w : World) :
  bolt_writes E c (preload_list E fuel w) (trace w)
    (new_events (Bolt.FillCache E c fuel) w).
Proof.
  assert (H : ∃ evs,
    trace (snd (Bolt.FillCache E c fuel w)) = (trace w ++ evs)%list ∧
    bolt_writes E c (preload_list E fuel w) (trace w) evs).
  { unfold Bolt.FillCache, bind, preload_list, Bolt.fetchEntityListFromAPI.
    destruct (Bolt_fetchPages_appends E c
                match fst (Bolt.fetchPages E fuel
                             ("/v2/" ++ "apps" ++ "?results-per-page=100")%string ∅ w) with
                | Done (Ok allApps) => range_order E allApps
                | _ => []
                end fuel ("/v2/" ++ "apps" ++ "?results-per-page=100")%string ∅ w)
      as (e1 & Ht1 & H1).
    simpl in *.
    destruct (Bolt.fetchPages E fuel ("/v2/" ++ "apps" ++ "?results-per-page=100")%string ∅ w)
      as [[[allApps|err]| |] w1]; simpl in *; eauto.
    destruct (Bolt_fillApps_appends E c (range_order E allApps)
                (range_order E allApps) (λ x Hx, Hx) w1) as (e2 & Ht2 & H2).
    destruct (Bolt.fillApps E c (range_order E allApps) w1) as [r2 w2].
    simpl in *.
    exists (e1 ++ e2)%list. rewrite Ht2, Ht1, app_assoc.
    split; [reflexivity|]. apply bolt_writes_app; [exact H1|].
    by rewrite <- Ht1. }
  destruct H as (evs & Ht & Hw).
  by rewrite (new_events_app _ w evs Ht).
Qed.

(** Without a preload, no write has the third origin. *)
Lemma bolt_origin_no_preload (E : Env) (c : Bolt.CachingBoltConfig)
    (pre : list event) (k : string) (v : entity) :
  bolt_origin E c [] pre k v →
  ∃ pre' t r entityType uuid raw,
    pre = (pre' ++ [EvNow t; EvRand r])%list ∧
    (∃ n, r = rand_Float64_at E n) ∧
    k = Bolt.makeBoltKey entityType uuid ∧
    v = Bolt.normalise c entityType t r raw ∧
    (fetched pre' entityType uuid raw ∨
     substituted c pre' entityType uuid raw).
Proof.
  intros (pre' & t & r & entityType & uuid & raw & Hpre & Hr & Hk & Hv & Hsrc).
  exists pre', t, r, entityType, uuid, raw. repeat split; try assumption.
  destruct Hsrc as [H|[H|(g & [] & _)]]; auto.
Qed.

(** *** The in-memory backend *)

Lemma memory_writes_nil (c : Memory.CachingMemoryConfig) (pre : list event) :
  memory_writes c pre [].
Proof. split; [exact I | constructor]. Qed.

Lemma memory_writes_app (c : Memory.CachingMemoryConfig)
    (pre e1 e2 : list event) :
  memory_writes c pre e1 → memory_writes c (pre ++ e1) e2 →
  memory_writes c pre (e1 ++ e2).
Proof.
  intros [H1 F1] [H2 F2]. split.
  - apply puts_from_app. auto.
  - apply Forall_app. auto.
Qed.

Section MemoryTraces.
Variable E : Env.
Variable c : Memory.CachingMemoryConfig.

Local Abbreviation writes := (memory_writes c).
Local Abbreviation bind_ok := (appends_bind writes (memory_writes_app c)).
Local Abbreviation ret_ok := (appends_ret writes (memory_writes_nil c)).

Lemma Memory_time_Now_appends : appends writes (time_Now E).
Proof. intros w. eexists [_]. repeat split. by repeat constructor. Qed.

Lemma Memory_cacheLookup_appends (key : string) :
  appends writes (Memory.cacheLookup key).
Proof. intros w. eexists [_]. repeat split. by repeat constructor. Qed.

Lemma Memory_fetchAndStore_appends (entityType uuid : string) :
  appends writes
    (Memory.fetchAndStore E c entityType uuid (entityType ++ "/" ++ uuid)).
Proof.
  intros w.
  unfold Memory.fetchAndStore, bind, ret, DoRequest, time_Now,
    Memory.cacheStore.
  repeat case_match; simplify_eq; simpl; rewrite <- ?app_assoc; simpl;
    eexists; (split; [reflexivity|]); (split; [|by repeat constructor]);
    simpl; repeat split.
  match goal with H : (_ =? 200) = true |- _ => apply Z.eqb_eq in H end.
  subst. eexists _, _, _, _, _, _. rewrite <- app_assoc. simpl.
  repeat split; reflexivity.
Qed.

Lemma Memory_getEntity_appends (entityType guid : string) :
  appends writes (Memory.getEntity E c entityType guid).
Proof.
  unfold Memory.getEntity. destruct (uuid_FromString E guid) as [msg|uuid].
  { apply ret_ok. }
  apply bind_ok; [apply Memory_cacheLookup_appends|].
  intros [rv|]; [|apply Memory_fetchAndStore_appends].
  apply bind_ok; [apply Memory_time_Now_appends|]. intros now.
  destruct (TTL rv <? now); [apply ret_ok | apply Memory_fetchAndStore_appends].
Qed.

Lemma Memory_GetApp_appends (appGuid : string) :
  appends writes (Memory.GetApp E c appGuid).
Proof.
  unfold Memory.GetApp.
  apply bind_ok; [apply Memory_getEntity_appends|]. intros a.
  destruct (match a with Ok app => Ok app | Error err => _ end)
    as [app|err]; [|apply ret_ok].
  apply bind_ok; [apply Memory_getEntity_appends|]. intros s.
  destruct (match s with Ok space => Ok space | Error err => _ end)
    as [space|err]; [|apply ret_ok].
  apply bind_ok; [apply Memory_getEntity_appends|]. intros o.
  destruct (match o with Ok org => Ok org | Error err => _ end);
    apply ret_ok.
Qed.
End MemoryTraces.

(** *** The operations of the two backends *)

Lemma puts_from_weaken (P Q : list event → string → entity → Prop)
    (pre evs : list event) :
  (∀ p k v, P p k v → Q p k v) → puts_from P pre evs → puts_from Q pre evs.
Proof.
  intros HPQ. revert pre. induction evs as [|ev evs IH]; intros pre; simpl.
  - auto.
  - intros [H1 H2]. split; [destruct ev; auto | auto].
Qed.

Lemma bolt_origin_more_apps (E : Env) (c : Bolt.CachingBoltConfig)
    (apps : list (string * option entity)) (pre : list event) (k : string)
    (v : entity) :
  bolt_origin E c [] pre k v → bolt_origin E c apps pre k v.
Proof.
  intros H. apply bolt_origin_no_preload in H
    as (pre' & t & r & entityType & uuid & raw & Hpre & Hr & Hk & Hv & Hsrc).
  exists pre', t, r, entityType, uuid, raw. repeat split; try assumption.
  tauto.
Qed.

Lemma bolt_op_writes (E : Env) (c : Bolt.CachingBoltConfig) (op : bolt_op)
    (w : World) :
  bolt_writes E c (bolt_preload E op w) (trace w) (bolt_events E c op w).
Proof.
  destruct op; simpl.
  - apply appends_new_events, Bolt_getEntity_appends.
  - apply appends_new_events, Bolt_getSpaceAndOrg_appends.
  - apply appends_new_events, Bolt_GetApp_appends.
  - apply Bolt_FillCache_writes.
Qed.

Lemma memory_op_writes (E : Env) (c : Memory.CachingMemoryConfig)
    (op : memory_op) (w : World) :
  memory_writes c (trace w) (memory_events E c op w).
Proof.
  destruct op; simpl.
  - apply appends_new_events, Memory_getEntity_appends.
  - apply appends_new_events, Memory_GetApp_appends.
Qed.

(** ** Normalisation before a write *)

(** C2, as the claim states it, fails for the in-memory backend: with the
    clock at 1000 and a TTL of 4000 it writes the record it has fetched
    with the expiry 5000 and under the name it came with, having drawn no
    random number. *)
Lemma memory_backend_writes_without_jitter :
  ¬ written_with_jitter 4000
      (new_events
         (Memory.getEntity (Fixture.env 1000 Fixture.draw_0 Fixture.api)
            (Fixture.memory_config false 4000) "apps" Fixture.guid)
         Fixture.empty_world).
Proof.
  intros H.
  destruct (H [EvGet ("apps/" ++ Fixture.guid);
               EvRequest ("/v2/apps/" ++ Fixture.guid)
                 (Fixture.ok Fixture.app_record);
               EvNow 1000]
              ("apps/" ++ Fixture.guid)%string
              (set_TTL 5000 Fixture.app_record) [])
    as (pre' & t & r & Hpre & _).
  - vm_compute. reflexivity.
  - destruct pre' as [|e1 [|e2 [|e3 pre']]]; try discriminate Hpre.
    + destruct pre'; discriminate Hpre.
Qed.

Lemma normalise_normalised (c : Bolt.CachingBoltConfig) (entityType : string)
    (t : Z) (r : spec_float) (raw : entity) :
  normalised c entityType t r raw (Bolt.normalise c entityType t r raw).
Proof.
  unfold normalised, Bolt.normalise.
  destruct (String.eqb entityType "apps"); simpl; auto.
Qed.

(** *** The kind of each write *)

Section Quiet.
Variable E : Env.
Variable origin : list event → string → entity → Prop.

Lemma quiet_ret {A} (a : A) : appends (puts_from origin) (ret a).
Proof. intros w. exists []. simpl. by rewrite app_nil_r. Qed.

Lemma quiet_bind {A B} (m : M A) (f : A → M B) :
  appends (puts_from origin) m → (∀ a, appends (puts_from origin) (f a)) →
  appends (puts_from origin) (bind m f).
Proof.
  apply appends_bind. intros pre e1 e2 H1 H2. apply puts_from_app. auto.
Qed.

Lemma quiet_time_Now : appends (puts_from origin) (time_Now E).
Proof. intros w. eexists [_]. repeat split. Qed.

Lemma quiet_viewEntity (key : string) :
  appends (puts_from origin) (Bolt.viewEntity E key).
Proof.
  intros w. unfold Bolt.viewEntity.
  repeat case_match; eexists [_]; repeat split.
Qed.

Lemma quiet_fetchPages (fuel : nat) (url : string)
    (rv : gmap string (option entity)) :
  appends (puts_from origin) (Bolt.fetchPages E fuel url rv).
Proof.
  revert url rv. induction fuel as [|fuel IH]; intros url rv; simpl.
  { intros w. exists []. simpl. by rewrite app_nil_r. }
  apply quiet_bind; [intros w; eexists [_]; repeat split|].
  intros [b|err]; [|apply quiet_ret].
  destruct (j_next_url b =? "")%string; [apply quiet_ret | apply IH].
Qed.
End Quiet.

Section BoltKinds.
Variable E : Env.
Variable c : Bolt.CachingBoltConfig.
Variable apps : list (string * option entity).
Variable kinds : string → Prop.

Local Abbreviation writes := (puts_from (bolt_origin_of E c apps kinds)).

Lemma bolt_origin_of_intro (pre : list event) (t : Z) (n : nat)
    (entityType uuid : string) (raw : entity) :
  kinds entityType →
  bolt_source E c apps pre entityType uuid raw →
  bolt_origin_of E c apps kinds
    ((pre ++ [EvNow t]) ++ [EvRand (rand_Float64_at E n)])
    (Bolt.makeBoltKey entityType uuid)
    (Bolt.normalise c entityType t (rand_Float64_at E n) raw).
Proof.
  intros Hkind Hsrc.
  exists pre, t, (rand_Float64_at E n), entityType, uuid, raw.
  rewrite <- app_assoc. eauto 10.
Qed.

Lemma Bolt_normaliseAndSave_kind (entityType uuid : string)
    (nv : option entity) (w : World) :
  kinds entityType →
  (∀ raw, nv = Some raw →
     bolt_source E c apps (trace w) entityType uuid raw) →
  ∃ evs,
    trace (snd (Bolt.normaliseAndSaveEntityToDatabase E c entityType uuid nv w))
    = (trace w ++ evs)%list ∧
    writes (trace w) evs.
Proof.
  intros Hkind Hsrc.
  unfold Bolt.normaliseAndSaveEntityToDatabase, bind, ret, panic, time_Now,
    rand_Float64, Bolt.updatePut.
  repeat case_match; simplify_eq; simpl; rewrite <- ?app_assoc; simpl;
    eexists; (split; [first [reflexivity | symmetry; apply app_nil_r]|]);
    simpl; repeat split.
  apply bolt_origin_of_intro; auto.
Qed.

Lemma Bolt_fetchAndSave_kind (entityType uuid : string) :
  kinds entityType →
  appends writes (Bolt.fetchAndSave E c entityType uuid).
Proof.
  intros Hkind w.
  unfold Bolt.fetchAndSave, Bolt.fetchEntityFromAPI,
    Bolt.makeRequestAndDecodeJSON, Bolt.normaliseAndSaveEntityToDatabase,
    bind, ret, panic, DoRequest, time_Now, rand_Float64, Bolt.updatePut.
  repeat case_match; simplify_eq; simpl; rewrite <- ?app_assoc; simpl;
    eexists; (split; [first [reflexivity | symmetry; apply app_nil_r]|]);
    simpl; repeat split.
  all: apply bolt_origin_of_intro; [exact Hkind|].
  all: repeat match goal with
         | H : _ && _ = true |- _ => apply andb_true_iff in H as [? ?]
         | H : (_ =? _)%string = true |- _ => apply String.eqb_eq in H
         | H : (_ =? _)%Z = true |- _ => apply Z.eqb_eq in H
         end; subst.
  - left. eexists _, _, _. split; [reflexivity | assumption].
  - right. left. eexists _, _. repeat split; assumption.
  - right. left. eexists _, _. repeat split; assumption.
  - right. left. eexists _, _. repeat split; try assumption.
    simpl. match goal with H : (_ =? 200) = false |- _ => by rewrite H end.
Qed.

Lemma Bolt_getEntity_kind (entityType guid : string) :
  kinds entityType →
  appends writes (Bolt.getEntity E c entityType guid).
Proof.
  intros Hkind. unfold Bolt.getEntity.
  destruct (uuid_FromString E guid) as [msg|uuid]; [apply quiet_ret|].
  apply quiet_bind; [apply quiet_viewEntity|].
  intros [rv|err].
  - apply quiet_bind; [apply quiet_time_Now|]. intros now.
    destruct (TTL rv <? now);
      [apply quiet_ret | by apply Bolt_fetchAndSave_kind].
  - destruct err; first [by apply Bolt_fetchAndSave_kind | apply quiet_ret].
Qed.

Lemma Bolt_getSpaceAndOrg_kind (spaceGuid : string) :
  kinds "spaces" → kinds "organizations" →
  appends writes (Bolt.getSpaceAndOrg E c spaceGuid).
Proof.
  intros Hs Ho. unfold Bolt.getSpaceAndOrg.
  apply quiet_bind; [by apply Bolt_getEntity_kind|]. intros s.
  destruct (match s with Ok space => Ok space | Error err => _ end)
    as [space|err]; [|apply quiet_ret].
  apply quiet_bind; [by apply Bolt_getEntity_kind|]. intros o.
  destruct (match o with Ok org => Ok org | Error err => _ end);
    apply quiet_ret.
Qed.

Lemma Bolt_GetApp_kind (appGuid : string) :
  kinds "apps" → kinds "spaces" → kinds "organizations" →
  appends writes (Bolt.GetApp E c appGuid).
Proof.
  intros Ha Hs Ho. unfold Bolt.GetApp.
  apply quiet_bind; [by apply Bolt_getEntity_kind|]. intros a.
  destruct (match a with Ok app => Ok app | Error err => _ end)
    as [app|err]; [|apply quiet_ret].
  apply quiet_bind; [by apply Bolt_getSpaceAndOrg_kind|].
  intros [[space org]|err]; apply quiet_ret.
Qed.

Lemma Bolt_fillApps_kind (l : list (string * option entity)) :
  kinds "apps" → kinds "spaces" → kinds "organizations" →
  (∀ x, In x l → In x apps) →
  appends writes (Bolt.fillApps E c l).
Proof.
  intros Ha Hs Ho.
  induction l as [|[guid app] l IH]; intros Hsub; simpl.
  { apply quiet_ret. }
  destruct (uuid_FromString E guid) as [msg|uuid] eqn:Hp; [apply quiet_ret|].
  apply quiet_bind.
  - intros w. apply Bolt_normaliseAndSave_kind; [exact Ha|].
    intros raw ->. right. right. exists guid. repeat split; auto.
    apply Hsub. by left.
  - intros [app' [err|]]; [apply quiet_ret|].
    apply quiet_bind; [by apply Bolt_getSpaceAndOrg_kind|].
    intros [so|err]; [|apply quiet_ret].
    apply IH. intros x Hx. apply Hsub. by right.
Qed.
End BoltKinds.

Lemma Bolt_FillCache_kind (E : Env) (c : Bolt.CachingBoltConfig)
    (kinds : string → Prop) (fuel : nat) (w : World) :
  kinds "apps" → kinds "spaces" → kinds "organizations" →
  puts_from (bolt_origin_of E c (preload_list E fuel w) kinds) (trace w)
    (new_events (Bolt.FillCache E c fuel) w).
Proof.
  intros Ha Hs Ho.
  set (origin := bolt_origin_of E c (preload_list E fuel w) kinds).
  assert (H : ∃ evs,
    trace (snd (Bolt.FillCache E c fuel w)) = (trace w ++ evs)%list ∧
    puts_from origin (trace w) evs).
  { unfold Bolt.FillCache, bind.
    destruct (quiet_fetchPages E origin fuel
                ("/v2/" ++ "apps" ++ "?results-per-page=100")%string ∅ w)
      as (e1 & Ht1 & H1).
    fold (Bolt.fetchEntityListFromAPI E fuel "apps" w) in Ht1.
    pose proof (eq_refl : preload_list E fuel w = preload_list E fuel w)
      as Hlist.
    unfold preload_list at 2 in Hlist.
    destruct (Bolt.fetchEntityListFromAPI E fuel "apps" w)
      as [[[allApps|err]| |] w1]; simpl in *; eauto.
    destruct (Bolt_fillApps_kind E c (preload_list E fuel w) kinds
                (range_order E allApps) Ha Hs Ho
                (λ x Hx, eq_ind_r (In x) Hx Hlist) w1)
      as (e2 & Ht2 & H2).
    destruct (Bolt.fillApps E c (range_order E allApps) w1) as [r2 w2].
    simpl in *.
    exists (e1 ++ e2)%list. rewrite Ht2, Ht1, app_assoc.
    split; [reflexivity|]. apply puts_from_app.
    split; [exact H1 | by rewrite <- Ht1]. }
  destruct H as (evs & Ht & Hw).
  by rewrite (new_events_app _ w evs Ht).
Qed.

(** Every write of an operation of the persistent backend is made for one
    of the kinds of the operation. *)
Lemma bolt_op_kinds (E : Env) (c : Bolt.CachingBoltConfig) (op : bolt_op)
    (w : World) :
  puts_from (bolt_origin_of E c (bolt_preload E op w) (bolt_kinds op))
    (trace w) (bolt_events E c op w).
Proof.
  destruct op; simpl.
  - by apply appends_new_events, Bolt_getEntity_kind.
  - apply appends_new_events, Bolt_getSpaceAndOrg_kind; simpl; auto.
  - apply appends_new_events, Bolt_GetApp_kind; simpl; auto.
  - apply Bolt_FillCache_kind; simpl; auto.
Qed.

(** C2, amended. In the persistent backend every write, whether made by
    [getEntity], [getSpaceAndOrg], [GetApp] or [FillCache], stores under
    the key of a kind and a guid the normalised form of the record that
    comes in for this kind and guid: the one the request for it, sent just
    before, was answered with, or one of the apps of the list the preload
    fetched, or the zero record put in the place of an app whose request
    has just failed.  The kind is one the operation looks up.  For an app
    the name stored is the name of that record with the first configured
    suffix it ends with cut off, for the other kinds the name as it came;
    for every kind the expiry is the clock reading plus
    [Duration(float64(ttl) * (0.75 + r / 2.0))] for a draw [r] of the
    random source, both taken right before the write, and the other fields
    are those of the record.  The in-memory backend has no suffixes to strip and draws
    no random number: every write of its [getEntity] and [GetApp] stores
    under the key of the kind and the guid the record as decoded from the
    answer to the request for them, with the expiry set to the clock
    reading plus the configured TTL. *)
Theorem writes_are_normalised
    (E : Env) (bc : Bolt.CachingBoltConfig) (mc : Memory.CachingMemoryConfig)
    (w : World) (pre post : list event) (k : string) (v : entity) :
  (∀ op, bolt_events E bc op w = (pre ++ EvPut k v :: post)%list →
     ∃ before t r entityType uuid raw,
       (trace w ++ pre = before ++ [EvNow t; EvRand r])%list ∧
       (∃ n, r = rand_Float64_at E n) ∧
       bolt_kinds op entityType ∧
       k = Bolt.makeBoltKey entityType uuid ∧
       bolt_source E bc (bolt_preload E op w) before entityType uuid raw ∧
       normalised bc entityType t r raw v) ∧
  (∀ op, memory_events E mc op w = (pre ++ EvPut k v :: post)%list →
     ∃ before st b t entityType uuid,
       (trace w ++ pre
        = before ++ [EvRequest ("/v2/" ++ entityType ++ "/" ++ uuid)
                       (RespHTTP 200 st (inr b)); EvNow t])%list ∧
       k = (entityType ++ "/" ++ uuid)%string ∧
       v = set_TTL (t + Memory.CacheInvalidateTTL mc)
             (default zero_entity (j_entity b)) ∧
       Forall (λ ev, is_rand ev = false) (memory_events E mc op w)).
Proof.
  split; intros op Hevs.
  - pose proof (bolt_op_kinds E bc op w) as H.
    apply (puts_from_split _ _ _ pre post k v) in H; [|exact Hevs].
    destruct H as (before & t & r & entityType & uuid & raw & Hpre & Hr
                   & Hkind & Hk & Hsrc & ->).
    exists before, t, r, entityType, uuid, raw.
    repeat split; try assumption; apply normalise_normalised.
  - destruct (memory_op_writes E mc op w) as [H Hrand].
    apply (puts_from_split _ _ _ pre post k v) in H; [|exact Hevs].
    destruct H as (before & st & b & t & entityType & uuid & Hpre & Hk & ->).
    exists before, st, b, t, entityType, uuid. auto.
Qed.

Lemma writes_are_normalised_witness :
  ∃ before t r entityType uuid raw,
    ([] ++ [EvGet ("apps/" ++ Fixture.guid);
            EvRequest ("/v2/apps/" ++ Fixture.guid)
              (Fixture.ok Fixture.app_record);
            EvNow 1000; EvRand Fixture.draw_0]
     = before ++ [EvNow t; EvRand r])%list ∧
    (∃ n, r = rand_Float64_at
                (Fixture.env 1000 Fixture.draw_0 Fixture.api) n) ∧
    entityType = "apps" ∧
    ("apps/" ++ Fixture.guid)%string = Bolt.makeBoltKey entityType uuid ∧
    bolt_source (Fixture.env 1000 Fixture.draw_0 Fixture.api)
      (Fixture.bolt_config false 4000 ["-venerable"]) [] before entityType
      uuid raw ∧
    normalised (Fixture.bolt_config false 4000 ["-venerable"]) entityType t r
      raw (set_TTL 4000 (set_Name "billing" Fixture.app_record)).
Proof.
  apply (proj1 (writes_are_normalised
           (Fixture.env 1000 Fixture.draw_0 Fixture.api)
           (Fixture.bolt_config false 4000 ["-venerable"])
           (Fixture.memory_config false 4000)
           Fixture.empty_world
           [EvGet ("apps/" ++ Fixture.guid);
            EvRequest ("/v2/apps/" ++ Fixture.guid)
              (Fixture.ok Fixture.app_record);
            EvNow 1000; EvRand Fixture.draw_0]
           []
           ("apps/" ++ Fixture.guid)%string
           (set_TTL 4000 (set_Name "billing" Fixture.app_record)))
         (BoltGetEntity "apps" Fixture.guid)).
  vm_compute. reflexivity.
Defined.

Lemma normalise_strips_first_matching_suffix_witness :
  (Name (Bolt.normalise (Fixture.bolt_config false 4000 ["-old"; "-very-old"])
           "apps" 1000 Fixture.draw_0
           (set_Name "app-very-old" Fixture.app_record))
   ++ "-old")%string
  = "app-very-old".
Proof.
  apply (proj1 (normalise_strips_first_matching_suffix
                  (Fixture.bolt_config false 4000 ["-old"; "-very-old"])
                  1000 Fixture.draw_0
                  (set_Name "app-very-old" Fixture.app_record))
           [] "-old" ["-very-old"]).
  - reflexivity.
  - constructor.
  - reflexivity.
Defined.

(** ** Writes and fetches *)

(** C5, as the claim states it, fails for the persistent backend: with
    [IgnoreMissingApps] set, [getEntity] answers a 404 for an app by
    writing the zero record, with an expiry, under the key of the app. *)
Lemma failed_app_fetch_is_written :
  ¬ written_only_after_success
      (new_events
         (Bolt.getEntity (Fixture.env 1000 Fixture.draw_0 Fixture.api_down)
            (Fixture.bolt_config true 4000 []) "apps" Fixture.guid)
         Fixture.empty_world).
Proof.
  intros H.
  destruct (H [EvGet ("apps/" ++ Fixture.guid);
               EvRequest ("/v2/apps/" ++ Fixture.guid) Fixture.not_found;
               EvNow 1000; EvRand Fixture.draw_0]
              ("apps/" ++ Fixture.guid)%string
              (set_TTL 4000 zero_entity) [])
    as (path & resp & Hin & Hok).
  - vm_compute. reflexivity.
  - destruct Hin as [Heq|[Heq|[Heq|[Heq|[]]]]]; try discriminate Heq.
    injection Heq as <- <-. discriminate Hok.
Qed.

(** C5, amended. In the persistent backend every write, whether made by
    [getEntity], [getSpaceAndOrg], [GetApp] or [FillCache], stores under
    the key of a kind and a guid either the record that the request for
    this kind and guid, sent just before, was answered with, or one of the
    apps of the list the preload fetched, or, when [IgnoreMissingApps] is
    set and the request for an app has just failed, the zero record; a
    failed request for a space or an organization, or for an app when
    [IgnoreMissingApps] is not set, is followed by no write.  In the
    in-memory backend every write of [getEntity] and [GetApp] stores what
    the request for the same kind and guid, answered with status 200 and a
    body that decodes, has just returned. *)
Theorem writes_follow_fetches
    (E : Env) (bc : Bolt.CachingBoltConfig) (mc : Memory.CachingMemoryConfig)
    (w : World) (pre post : list event) (k : string) (v : entity) :
  (∀ op, bolt_events E bc op w = (pre ++ EvPut k v :: post)%list →
     ∃ before t r entityType uuid raw,
       (trace w ++ pre = before ++ [EvNow t; EvRand r])%list ∧
       k = Bolt.makeBoltKey entityType uuid ∧
       v = Bolt.normalise bc entityType t r raw ∧
       (fetched before entityType uuid raw ∨
        preloaded E (bolt_preload E op w) entityType uuid raw ∨
        (substituted bc before entityType uuid raw ∧ entityType = "apps" ∧
         Bolt.IgnoreMissingApps bc = true))) ∧
  (∀ op, memory_events E mc op w = (pre ++ EvPut k v :: post)%list →
     ∃ before st b t entityType uuid,
       (trace w ++ pre
        = before ++ [EvRequest ("/v2/" ++ entityType ++ "/" ++ uuid)
                       (RespHTTP 200 st (inr b)); EvNow t])%list ∧
       k = (entityType ++ "/" ++ uuid)%string ∧
       v = set_TTL (t + Memory.CacheInvalidateTTL mc)
             (default zero_entity (j_entity b))).
Proof.
  split; intros op Hevs.
  - pose proof (bolt_op_writes E bc op w) as H.
    apply (puts_from_split _ _ _ pre post k v) in H; [|exact Hevs].
    destruct H as (before & t & r & entityType & uuid & raw & Hpre & _ & Hk
                   & Hv & Hsrc).
    exists before, t, r, entityType, uuid, raw. repeat split; try assumption.
    destruct Hsrc as [Hf|[Hs|Hp]]; auto.
    right. right. destruct Hs as (p & resp & ? & ? & ? & ? & ?).
    repeat split; try assumption. exists p, resp. auto.
  - destruct (memory_op_writes E mc op w) as [H _].
    apply (puts_from_split _ _ _ pre post k v) in H; [|exact Hevs].
    exact H.
Qed.

Lemma writes_follow_fetches_witness :
  ∃ before t r entityType uuid raw,
    ([] ++ [EvGet ("apps/" ++ Fixture.guid);
            EvRequest ("/v2/apps/" ++ Fixture.guid) Fixture.not_found;
            EvNow 1000; EvRand Fixture.draw_0]
     = before ++ [EvNow t; EvRand r])%list ∧
    ("apps/" ++ Fixture.guid)%string = Bolt.makeBoltKey entityType uuid ∧
    set_TTL 4000 zero_entity
    = Bolt.normalise (Fixture.bolt_config true 4000 []) entityType t r raw ∧
    (fetched before entityType uuid raw ∨
     preloaded (Fixture.env 1000 Fixture.draw_0 Fixture.api_down) []
       entityType uuid raw ∨
     (substituted (Fixture.bolt_config true 4000 []) before entityType uuid raw ∧
      entityType = "apps" ∧ true = true)).
Proof.
  apply (proj1 (writes_follow_fetches
           (Fixture.env 1000 Fixture.draw_0 Fixture.api_down)
           (Fixture.bolt_config true 4000 [])
           (Fixture.memory_config true 4000)
           Fixture.empty_world
           [EvGet ("apps/" ++ Fixture.guid);
            EvRequest ("/v2/apps/" ++ Fixture.guid) Fixture.not_found;
            EvNow 1000; EvRand Fixture.draw_0]
           []
           ("apps/" ++ Fixture.guid)%string
           (set_TTL 4000 zero_entity))
         (BoltGetEntity "apps" Fixture.guid)).
  vm_compute. reflexivity.
Defined.

(** ** Rounding to binary64 *)

Lemma digits2_pos_log2 (m : positive) :
  Zpos (digits2_pos m) = Z.log2 (Zpos m) + 1.
Proof.
  induction m as [m IH|m IH|]; simpl digits2_pos.
  - rewrite Pos2Z.inj_succ, IH, Pos2Z.inj_xI, Z.log2_succ_double by lia. lia.
  - rewrite Pos2Z.inj_succ, IH, Pos2Z.inj_xO, Z.log2_double by lia. lia.
  - reflexivity.
Qed.

Lemma digits2_pos_bounds (m : positive) (d : Z) :
  2 ^ (d - 1) <= Zpos m < 2 ^ d → 0 < d → Zpos (digits2_pos m) = d.
Proof.
  intros H Hd. rewrite digits2_pos_log2.
  rewrite (Z.log2_unique (Zpos m) (d - 1)); [lia | lia |].
  replace (Z.succ (d - 1)) with d by lia. exact H.
Qed.

Lemma iter_pos_nat {A} (f : A → A) (p : positive) (x : A) :
  SpecFloat.iter_pos f p x = Nat.iter (Pos.to_nat p) f x.
Proof.
  revert x. induction p as [p IH|p IH|]; intros x; simpl SpecFloat.iter_pos.
  - rewrite !IH, Pos2Nat.inj_xI, <- Nat.iter_add, <- Nat.iter_succ_r.
    f_equal. lia.
  - rewrite !IH, Pos2Nat.inj_xO, <- Nat.iter_add. f_equal. lia.
  - reflexivity.
Qed.

(** One step of the right shift halves the mantissa; the round and sticky
    bits it leaves are set only if a one has been shifted out. *)
Lemma shr_1_spec (m : Z) (r s : bool) :
  0 <= m →
  shr_m (shr_1 (Build_shr_record m r s)) = m / 2 ∧
  shr_r (shr_1 (Build_shr_record m r s)) = Z.odd m ∧
  shr_s (shr_1 (Build_shr_record m r s)) = r || s.
Proof.
  intros Hm. destruct m as [|[p|p|]|p]; try lia; simpl shr_1;
    cbn [shr_m shr_r shr_s]; repeat split.
  - rewrite Pos2Z.inj_xI. apply Z.div_unique with 1; lia.
  - rewrite Pos2Z.inj_xO. apply Z.div_unique with 0; lia.
Qed.

Lemma shr_iter_spec (k : nat) (m : Z) :
  0 <= m →
  shr_m (Nat.iter k shr_1 (Build_shr_record m false false))
  = m / 2 ^ Z.of_nat k ∧
  (m mod 2 ^ Z.of_nat k = 0 →
   shr_r (Nat.iter k shr_1 (Build_shr_record m false false)) = false ∧
   shr_s (Nat.iter k shr_1 (Build_shr_record m false false)) = false).
Proof.
  intros Hm. induction k as [|k IH]; cbn [Nat.iter].
  - simpl. rewrite Z.div_1_r. auto.
  - rewrite !Nat.iter_succ. destruct IH as [IHm IHrs].
    destruct (Nat.iter k shr_1 (Build_shr_record m false false))
      as [mk rk sk] eqn:Hk.
    cbn [shr_m shr_r shr_s] in *.
    assert (Hmk : 0 <= mk) by (subst mk; apply Z.div_pos; lia).
    destruct (shr_1_spec mk rk sk Hmk) as (H1 & H2 & H3).
    rewrite H1, H2, H3, IHm.
    replace (2 ^ Z.of_nat (S k)) with (2 ^ Z.of_nat k * 2)
      by (rewrite Nat2Z.inj_succ, Z.pow_succ_r; lia).
    split.
    + rewrite Z.div_div; lia.
    + intros Hmod.
      assert (Hdiv : (2 ^ Z.of_nat k * 2 | m))
        by (apply Z.mod_divide; [lia | exact Hmod]).
      destruct Hdiv as [q Hq].
      assert (Hmod' : m mod 2 ^ Z.of_nat k = 0).
      { apply Z.mod_divide; [lia|]. exists (q * 2). lia. }
      destruct (IHrs Hmod') as [-> ->].
      split; [|reflexivity].
      replace (m / 2 ^ Z.of_nat k) with (2 * q).
      * rewrite Z.odd_mul. reflexivity.
      * apply Z.div_unique_exact; lia.
Qed.

Lemma round_nearest_even_spec (mrs : shr_record) :
  (round_nearest_even (shr_m mrs) (loc_of_shr_record mrs) = shr_m mrs ∨
   round_nearest_even (shr_m mrs) (loc_of_shr_record mrs) = shr_m mrs + 1) ∧
  (shr_r mrs = false ∧ shr_s mrs = false →
   round_nearest_even (shr_m mrs) (loc_of_shr_record mrs) = shr_m mrs).
Proof.
  destruct mrs as [m [|] [|]]; simpl; try destruct (Z.even m); split; auto;
    intros [? ?]; discriminate.
Qed.

(** The exponent function of binary64 away from the subnormal range. *)
Lemma fexp_normal (e : Z) : -1021 <= e → fexp prec emax e = e - 53.
Proof. intros H. unfold fexp, emin, prec, emax. lia. Qed.

(** Rounding an exact mantissa of [n + 53] bits, [n > 0], to binary64: the
    [n] low bits are shifted out, and the mantissa that is left is rounded
    to one of its two neighbours, staying between any two multiples of
    [2 ^ n] that enclose the exact one. *)
Lemma binary_round_aux_spec (s : bool) (M : positive) (ex n : Z) :
  0 < n →
  2 ^ (n + 52) <= Zpos M < 2 ^ (n + 53) →
  -1074 <= ex + n < 971 →
  ∃ m2 : positive,
    (∀ K, K * 2 ^ n <= Zpos M → K <= Zpos m2) ∧
    (∀ K, Zpos M <= K * 2 ^ n → Zpos m2 <= K) ∧
    binary_round_aux prec emax s (Zpos M) ex loc_Exact
    = if Zpos m2 =? 2 ^ 53
      then S754_finite s (2 ^ 52) (ex + n + 1)
      else S754_finite s m2 (ex + n).
Proof.
  intros Hn HM He.
  assert (Hd : Zpos (digits2_pos M) = n + 53).
  { apply digits2_pos_bounds; [|lia].
    replace (n + 53 - 1) with (n + 52) by lia. exact HM. }
  unfold binary_round_aux, shr_fexp. cbn [Zdigits2 shr_record_of_loc].
  rewrite Hd, fexp_normal by lia.
  replace (n + 53 + ex - 53 - ex) with n by lia.
  destruct n as [|p|p]; try lia. cbn [shr].
  rewrite iter_pos_nat.
  destruct (shr_iter_spec (Pos.to_nat p) (Zpos M)) as [Hm Hrs]; [lia|].
  rewrite positive_nat_Z in Hm, Hrs.
  set (mrs := Nat.iter (Pos.to_nat p) shr_1
                (Build_shr_record (Zpos M) false false)) in *.
  destruct (round_nearest_even_spec mrs) as [Hround Hexact].
  set (m1 := round_nearest_even (shr_m mrs) (loc_of_shr_record mrs)) in *.
  assert (Hpow : 0 < 2 ^ Zpos p) by lia.
  assert (Hsplit : 2 ^ (Zpos p + 53) = 2 ^ 53 * 2 ^ Zpos p)
    by (rewrite Z.pow_add_r; lia).
  assert (Hsplit' : 2 ^ (Zpos p + 52) = 2 ^ 52 * 2 ^ Zpos p)
    by (rewrite Z.pow_add_r; lia).
  assert (Hq : 2 ^ 52 <= shr_m mrs < 2 ^ 53).
  { rewrite Hm. split.
    - apply Z.div_le_lower_bound; lia.
    - apply Z.div_lt_upper_bound; lia. }
  assert (Hlo : ∀ K, K * 2 ^ Zpos p <= Zpos M → K <= m1).
  { intros K HK.
    assert (K <= shr_m mrs)
      by (rewrite Hm; apply Z.div_le_lower_bound; lia).
    destruct Hround as [-> | ->]; lia. }
  assert (Hhi : ∀ K, Zpos M <= K * 2 ^ Zpos p → m1 <= K).
  { intros K HK.
    assert (Hle : shr_m mrs <= K).
    { rewrite Hm. apply Z.div_le_upper_bound; [lia|]. lia. }
    destruct (Z.eq_dec (shr_m mrs) K) as [Heq|Hne].
    - assert (Hmod : Zpos M mod 2 ^ Zpos p = 0).
      { pose proof (Z.div_mod (Zpos M) (2 ^ Zpos p) ltac:(lia)) as Hdm.
        pose proof (Z.mod_pos_bound (Zpos M) (2 ^ Zpos p) Hpow).
        rewrite <- Hm, Heq in Hdm. lia. }
      rewrite (Hexact (Hrs Hmod)). lia.
    - destruct Hround as [-> | ->]; lia. }
  assert (Hm1 : 2 ^ 52 <= m1 <= 2 ^ 53) by (destruct Hround as [-> | ->]; lia).
  destruct m1 as [|m2|m2] eqn:Hm2; try lia.
  exists m2. split; [exact Hlo|]. split; [exact Hhi|].
  destruct (Z.eqb_spec (Zpos m2) (2 ^ 53)) as [Heq|Hne].
  - injection Heq as ->. vm_compute Zdigits2.
    unfold fexp, emin, prec, emax.
    replace (Z.max (54 + (ex + Z.pos p) - 53) (3 - 1024 - 53) - (ex + Z.pos p))
      with 1 by lia.
    cbn [shr SpecFloat.iter_pos shr_record_of_loc shr_1 shr_m].
    replace (ex + Z.pos p <=? 1024 - 53) with true by lia.
    destruct (ex + Z.pos p + 1 <=? 1024 - 53) eqn:Hle; [reflexivity | lia].
  - cbn [Zdigits2].
    rewrite (digits2_pos_bounds m2 53) by lia.
    rewrite fexp_normal by lia.
    replace (53 + (ex + Z.pos p) - 53 - (ex + Z.pos p)) with 0 by lia.
    cbn [shr shr_record_of_loc shr_m]. unfold prec, emax.
    destruct (ex + Z.pos p <=? 1024 - 53) eqn:Hle; [reflexivity | lia].
Qed.

Lemma binary_round_aux_exact (s : bool) (M : positive) (ex : Z) :
  2 ^ 52 <= Zpos M < 2 ^ 53 →
  -1074 <= ex <= 971 →
  binary_round_aux prec emax s (Zpos M) ex loc_Exact = S754_finite s M ex.
Proof.
  intros HM He. unfold binary_round_aux, shr_fexp.
  cbn [Zdigits2 shr_record_of_loc].
  rewrite (digits2_pos_bounds M 53), fexp_normal by lia.
  replace (53 + ex - 53 - ex) with 0 by lia.
  cbn [shr shr_m round_nearest_even loc_of_shr_record shr_record_of_loc Zdigits2].
  rewrite (digits2_pos_bounds M 53), fexp_normal by lia.
  replace (53 + ex - 53 - ex) with 0 by lia.
  cbn [shr shr_m]. unfold prec, emax.
  destruct (ex <=? 1024 - 53) eqn:Hle; [reflexivity | lia].
Qed.

Lemma iter_xO_pow2 (m k : positive) :
  Zpos (Pos.iter xO m k) = Zpos m * 2 ^ Zpos k.
Proof.
  induction k as [|k IH] using Pos.peano_ind.
  - simpl. lia.
  - rewrite Pos.iter_succ, Pos2Z.inj_xO, IH, Pos2Z.inj_succ, Z.pow_succ_r; lia.
Qed.

(** [float64(n)] is exact for a positive [n] below [2 ^ 53]. *)
Lemma float64_of_int64_spec (n : Z) :
  0 < n < 2 ^ 53 →
  ∃ (M : positive) (e : Z),
    float64_of_int64 n = S754_finite false M e ∧
    2 ^ 52 <= Zpos M < 2 ^ 53 ∧ -52 <= e <= 0 ∧ Zpos M = n * 2 ^ (- e).
Proof.
  intros Hn. destruct n as [|p|p]; try lia.
  unfold float64_of_int64, binary_normalize, binary_round.
  pose proof (digits2_pos_log2 p) as Hd.
  pose proof (Z.log2_spec (Zpos p) ltac:(lia)) as Hlog.
  assert (Hlog53 : Z.log2 (Zpos p) < 53) by (apply Z.log2_lt_pow2; lia).
  pose proof (Z.log2_nonneg (Zpos p)) as Hlog0.
  rewrite Z.add_0_r, fexp_normal by lia.
  unfold shl_align.
  remember (Z.pos (digits2_pos p) - 53 - 0) as d eqn:Hdd.
  destruct d as [|d|d]; try lia.
  - assert (Hl : Z.log2 (Zpos p) = 52) by lia. rewrite Hl in Hlog.
    exists p, 0. rewrite binary_round_aux_exact by lia.
    repeat split; lia.
  - assert (HM : Zpos (Pos.iter xO p d) = Zpos p * 2 ^ Zpos d)
      by apply iter_xO_pow2.
    assert (Hpd : Zpos d = 52 - Z.log2 (Zpos p)) by lia.
    assert (Hrange : 2 ^ 52 <= Zpos (Pos.iter xO p d) < 2 ^ 53).
    { rewrite HM, Hpd.
      replace (2 ^ 52) with (2 ^ Z.log2 (Zpos p) * 2 ^ (52 - Z.log2 (Zpos p)))
        by (rewrite <- Z.pow_add_r; [f_equal|..]; lia).
      replace (2 ^ 53)
        with (2 ^ Z.succ (Z.log2 (Zpos p)) * 2 ^ (52 - Z.log2 (Zpos p)))
        by (rewrite <- Z.pow_add_r; [f_equal|..]; lia).
      assert (0 < 2 ^ (52 - Z.log2 (Zpos p))) by (apply Z.pow_pos_nonneg; lia).
      nia. }
    exists (Pos.iter xO p d), (Z.pos (digits2_pos p) - 53).
    rewrite binary_round_aux_exact by lia.
    repeat split; try lia.
    rewrite HM. f_equal. f_equal. lia.
Qed.

(** Halving a normal number is exact. *)
Lemma SFdiv_2_spec (m : positive) (e : Z) :
  2 ^ 52 <= Zpos m < 2 ^ 53 → -1072 <= e <= 900 →
  SFdiv prec emax (S754_finite false m e) f64_2 = S754_finite false m (e - 1).
Proof.
  intros Hm He. unfold SFdiv, f64_2, SFdiv_core_binary.
  cbn [Zdigits2 xorb].
  rewrite (digits2_pos_bounds m 53) by lia.
  change (Z.pos (digits2_pos (2 ^ 52))) with 53.
  rewrite fexp_normal by lia.
  replace (Z.min (53 + e - (53 + -51) - 53) (e - -51)) with (e - 2) by lia.
  replace (e - -51 - (e - 2)) with 53 by lia.
  rewrite Z.shiftl_mul_pow2 by lia.
  change (Z.pos (2 ^ 52)) with (2 ^ 52).
  assert (Hdiv : Z.div_eucl (Z.pos m * 2 ^ 53) (2 ^ 52) = (Zpos (m~0), 0)).
  { pose proof (Z.div_eucl_eq (Z.pos m * 2 ^ 53) (2 ^ 52) ltac:(lia)) as Heq.
    pose proof (Z.mod_pos_bound (Z.pos m * 2 ^ 53) (2 ^ 52) ltac:(lia)) as Hb.
    unfold Z.modulo in Hb.
    destruct (Z.div_eucl (Z.pos m * 2 ^ 53) (2 ^ 52)) as [q r].
    cbn [fst snd] in *.
    assert (q = 2 * Zpos m ∧ r = 0) as [-> ->] by lia. reflexivity. }
  rewrite Hdiv.
  change (new_location (2 ^ 52) 0) with loc_Exact.
  destruct (binary_round_aux_spec false (m~0) (e - 2) 1) as (m2 & Hlo & Hhi & ->);
    try lia.
  assert (Zpos m2 = Zpos m) as [= ->].
  { apply Z.le_antisymm; [apply Hhi | apply Hlo]; lia. }
  destruct (Z.eqb_spec (Zpos m) (2 ^ 53)); [lia|].
  f_equal. lia.
Qed.

(** [0.75 + h] for a normal [h] below one half. *)
Lemma SFadd_0_75_spec (m : positive) (e : Z) :
  2 ^ 52 <= Zpos m < 2 ^ 53 → -1073 <= e <= -54 →
  factor_range (SFadd prec emax f64_0_75 (S754_finite false m e)).
Proof.
  intros Hm He. unfold SFadd, f64_0_75.
  replace (Z.min (-53) e) with e by lia.
  unfold shl_align at 2. rewrite Z.sub_diag. cbn [fst].
  unfold shl_align.
  remember (e - -53) as d eqn:Hd. destruct d as [|d|d]; try lia.
  cbn [fst cond_Zopp].
  pose proof (iter_xO_pow2 (3 * 2 ^ 51) d) as Ha.
  change (Z.pos (3 * 2 ^ 51)) with (3 * 2 ^ 51) in Ha.
  set (a := Pos.iter xO (3 * 2 ^ 51)%positive d) in *.
  change (Z.pos a + Z.pos m) with (Z.pos (a + m)).
  assert (Hk : Zpos d = - 53 - e) by lia.
  assert (Hpow : 2 ^ 53 <= 2 * 2 ^ 51 * 2 ^ Zpos d).
  { change (2 ^ 53) with (2 * 2 ^ 51 * 2 ^ 1).
    assert (2 ^ 1 <= 2 ^ Zpos d) by (apply Z.pow_le_mono_r; lia). nia. }
  assert (Hp0 : 0 < 2 ^ Zpos d) by lia.
  assert (HS : 3 * 2 ^ 51 * 2 ^ Zpos d < Zpos (a + m) < 5 * 2 ^ 51 * 2 ^ Zpos d)
    by (rewrite Pos2Z.inj_add; lia).
  unfold binary_normalize, binary_round.
  destruct (Z_lt_le_dec (Zpos (a + m)) (2 ^ (Zpos d + 53))) as [Hlt|Hge].
  - (* the sum is below one *)
    assert (Hdig : Zpos (digits2_pos (a + m)) = Zpos d + 53).
    { apply digits2_pos_bounds; [|lia]. split; [|exact Hlt].
      replace (Zpos d + 53 - 1) with (52 + Zpos d) by lia.
      rewrite Z.pow_add_r by lia. lia. }
    rewrite Hdig, fexp_normal by lia. unfold shl_align.
    replace (Z.pos d + 53 + e - 53 - e) with (Zpos d) by lia.
    rewrite Z.pow_add_r in Hlt by lia.
    destruct (binary_round_aux_spec false (a + m) e (Zpos d))
      as (m2 & Hlo & Hhi & ->); try lia.
    { rewrite !Z.pow_add_r by lia. lia. }
    assert (3 * 2 ^ 51 <= Zpos m2) by (apply Hlo; lia).
    assert (Zpos m2 <= 2 ^ 53) by (apply Hhi; lia).
    destruct (Z.eqb_spec (Zpos m2) (2 ^ 53)).
    + exists (2 ^ 52)%positive, (e + Zpos d + 1). split; [reflexivity|].
      right. split; [lia|]. change (Z.pos (2 ^ 52)) with (2 ^ 52). lia.
    + exists m2, (e + Zpos d). split; [reflexivity|]. left. lia.
  - (* the sum is one or more *)
    assert (Hdig : Zpos (digits2_pos (a + m)) = Zpos d + 54).
    { apply digits2_pos_bounds; [|lia].
      replace (Zpos d + 54 - 1) with (Zpos d + 53) by lia. split; [exact Hge|].
      replace (Zpos d + 54) with (54 + Zpos d) by lia.
      rewrite Z.pow_add_r by lia. lia. }
    rewrite Hdig, fexp_normal by lia. unfold shl_align.
    replace (Z.pos d + 54 + e - 53 - e) with (Zpos d + 1) by lia.
    assert (H1 : 2 ^ (Zpos d + 1) = 2 * 2 ^ Zpos d)
      by (rewrite Z.pow_add_r; lia).
    rewrite Z.pow_add_r in Hge by lia.
    destruct (Zpos d + 1) as [|d1|d1] eqn:Hd1; try lia.
    destruct (binary_round_aux_spec false (a + m) e (Zpos d1))
      as (m2 & Hlo & Hhi & ->); try lia.
    { rewrite <- Hd1.
      replace (Zpos d + 1 + 52) with (Zpos d + 53) by lia.
      replace (Zpos d + 1 + 53) with (54 + Zpos d) by lia.
      rewrite !Z.pow_add_r by lia. lia. }
    assert (2 ^ 52 <= Zpos m2) by (apply Hlo; lia).
    assert (Zpos m2 <= 5 * 2 ^ 50) by (apply Hhi; lia).
    destruct (Z.eqb_spec (Zpos m2) (2 ^ 53)); [lia|].
    exists m2, (e + Zpos d1). split; [reflexivity|]. right. lia.
Qed.

Lemma jitter_factor_range (r : spec_float) :
  unit_draw r = true →
  factor_range (SFadd prec emax f64_0_75 (SFdiv prec emax r f64_2)).
Proof.
  destruct r as [s|s| |[|] m e]; simpl unit_draw; try discriminate; intros Hr.
  - exists (3 * 2 ^ 51)%positive, (-53). split; [reflexivity|].
    left. split; [reflexivity|]. change (Z.pos (3 * 2 ^ 51)) with (3 * 2 ^ 51).
    lia.
  - assert (2 ^ 52 <= Zpos m < 2 ^ 53 ∧ -1072 <= e <= -53) as [Hm He] by lia.
    rewrite SFdiv_2_spec by lia. apply SFadd_0_75_spec; lia.
Qed.

(** Truncating a rounded mantissa [m2] of exponent [E <= -2], or the
    number [2 ^ 52] of exponent [E + 1] when the rounding carried. *)
Lemma int64_of_rounded (m2 : positive) (E lo hi : Z) :
  E <= -2 → 0 <= lo → hi < 2 ^ 62 →
  lo * 2 ^ (- E) <= Zpos m2 < (hi + 1) * 2 ^ (- E) →
  lo <= int64_of_float64
          (if Zpos m2 =? 2 ^ 53
           then S754_finite false (2 ^ 52) (E + 1)
           else S754_finite false m2 E) <= hi.
Proof.
  intros HE Hlo Hhi Hm. destruct E as [|p|p]; try lia.
  change (- Zneg p) with (Zpos p) in Hm.
  assert (Hp : 0 < 2 ^ Zpos p) by lia.
  assert (Hdiv : lo <= Zpos m2 / 2 ^ Zpos p <= hi).
  { split.
    - apply Z.div_le_lower_bound; lia.
    - apply Z.lt_succ_r, Z.div_lt_upper_bound; lia. }
  destruct (Z.eqb_spec (Zpos m2) (2 ^ 53)) as [Heq|Hne]; unfold int64_of_float64.
  - destruct (Z.neg p + 1) as [|q|q] eqn:Hq; try lia.
    change (Z.pos (2 ^ 52)) with (2 ^ 52).
    assert (H2 : 2 ^ Zpos p = 2 * 2 ^ Zpos q).
    { replace (Zpos p) with (1 + Zpos q) by lia. rewrite Z.pow_add_r; lia. }
    assert (Hsame : 2 ^ 52 / 2 ^ Zpos q = Zpos m2 / 2 ^ Zpos p).
    { rewrite Heq, H2. change (2 ^ 53) with (2 * 2 ^ 52).
      rewrite Z.div_mul_cancel_l; lia. }
    rewrite Hsame.
    replace ((- 2 ^ 63 <=? Zpos m2 / 2 ^ Zpos p)
             && (Zpos m2 / 2 ^ Zpos p <? 2 ^ 63)) with true by lia.
    exact Hdiv.
  - replace ((- 2 ^ 63 <=? Zpos m2 / 2 ^ Zpos p)
             && (Zpos m2 / 2 ^ Zpos p <? 2 ^ 63)) with true by lia.
    exact Hdiv.
Qed.

(** The jitter of a TTL below [2 ^ 50] nanoseconds, for any draw: the
    product is between three and five quarters of the TTL, rounded down to
    whole nanoseconds. *)
Lemma jitter_bounds (ttl : Z) (r : spec_float) :
  0 <= ttl < 2 ^ 50 → unit_draw r = true →
  3 * ttl / 4 <= jitter ttl r <= 5 * ttl / 4.
Proof.
  intros Httl Hr. unfold jitter.
  destruct (jitter_factor_range r Hr) as (mf & ef & -> & Hf).
  destruct (Z.eq_dec ttl 0) as [->|Hne]; [vm_compute; split; discriminate|].
  destruct (float64_of_int64_spec ttl) as (MT & eT & -> & HMT & HeT & HT);
    [lia|].
  assert (HA : 4 * (3 * ttl / 4) <= 3 * ttl < 4 * (3 * ttl / 4) + 4).
  { pose proof (Z.div_mod (3 * ttl) 4 ltac:(lia)).
    pose proof (Z.mod_pos_bound (3 * ttl) 4 ltac:(lia)). lia. }
  assert (HB : 4 * (5 * ttl / 4) <= 5 * ttl < 4 * (5 * ttl / 4) + 4).
  { pose proof (Z.div_mod (5 * ttl) 4 ltac:(lia)).
    pose proof (Z.mod_pos_bound (5 * ttl) 4 ltac:(lia)). lia. }
  set (A := 3 * ttl / 4) in *. set (B := 5 * ttl / 4) in *.
  (* the exponent of [float64(ttl)] is [-3] or less *)
  assert (Hu : eT <= -3).
  { destruct (Z_le_gt_dec eT (-3)) as [|Hgt]; [assumption|exfalso].
    assert (2 ^ (- eT) <= 2 ^ 2) by (apply Z.pow_le_mono_r; lia).
    change (2 ^ 2) with 4 in *. nia. }
  set (W := 2 ^ (- eT - 3)).
  assert (HW : 0 < W) by (apply Z.pow_pos_nonneg; lia).
  assert (HU : 2 ^ (- eT) = 8 * W).
  { unfold W. replace (- eT) with (3 + (- eT - 3)) at 1 by lia.
    rewrite Z.pow_add_r by lia. reflexivity. }
  rewrite HU in HT.
  assert (HU1 : 2 ^ (- eT + 1) = 16 * W)
    by (rewrite Z.pow_add_r, HU by lia; lia).
  assert (HUm1 : 2 ^ (- eT - 1) = 4 * W).
  { unfold W. replace (- eT - 1) with (2 + (- eT - 3)) by lia.
    rewrite Z.pow_add_r by lia. reflexivity. }
  unfold SFmul. cbn [xorb].
  assert (HP : Zpos (MT * mf) = ttl * (8 * W) * Zpos mf)
    by (rewrite Pos2Z.inj_mul, HT; reflexivity).
  assert (HTW : 0 < ttl * W) by nia.
  destruct Hf as [[-> Hmf]|[-> Hmf]];
    destruct (Z_lt_le_dec (Zpos (MT * mf)) (2 ^ 105)) as [Hlt|Hge].
  - (* factor below one, product of 105 bits *)
    destruct (binary_round_aux_spec false (MT * mf) (eT + -53) 52)
      as (m2 & Hlo & Hhi & ->); [lia| |lia|].
    { change (2 ^ (52 + 52)) with (2 ^ 52 * 2 ^ 52).
      change (2 ^ (52 + 53)) with (2 ^ 105). rewrite Pos2Z.inj_mul. nia. }
    apply int64_of_rounded; [lia|lia|lia|].
    replace (- (eT + -53 + 52)) with (- eT + 1) by lia. rewrite HU1.
    split.
    + apply Hlo. rewrite HP. nia.
    + assert (Zpos m2 <= 5 * ttl * (4 * W)); [apply Hhi; rewrite HP; nia|nia].
  - (* factor below one, product of 106 bits *)
    destruct (binary_round_aux_spec false (MT * mf) (eT + -53) 53)
      as (m2 & Hlo & Hhi & ->); [lia| |lia|].
    { change (2 ^ (53 + 52)) with (2 ^ 105).
      change (2 ^ (53 + 53)) with (2 ^ 53 * 2 ^ 53). rewrite Pos2Z.inj_mul.
      nia. }
    apply int64_of_rounded; [lia|lia|lia|].
    replace (- (eT + -53 + 53)) with (- eT) by lia. rewrite HU.
    split.
    + apply Hlo. rewrite HP. nia.
    + assert (Zpos m2 <= 5 * ttl * (2 * W)); [apply Hhi; rewrite HP; nia|nia].
  - (* factor one or more, product of 105 bits *)
    destruct (binary_round_aux_spec false (MT * mf) (eT + -52) 52)
      as (m2 & Hlo & Hhi & ->); [lia| |lia|].
    { change (2 ^ (52 + 52)) with (2 ^ 52 * 2 ^ 52).
      change (2 ^ (52 + 53)) with (2 ^ 105). rewrite Pos2Z.inj_mul. nia. }
    apply int64_of_rounded; [lia|lia|lia|].
    replace (- (eT + -52 + 52)) with (- eT) by lia. rewrite HU.
    split.
    + apply Hlo. rewrite HP. nia.
    + assert (Zpos m2 <= 5 * ttl * (2 * W)); [apply Hhi; rewrite HP; nia|nia].
  - (* factor one or more, product of 106 bits *)
    destruct (binary_round_aux_spec false (MT * mf) (eT + -52) 53)
      as (m2 & Hlo & Hhi & ->); [lia| |lia|].
    { change (2 ^ (53 + 52)) with (2 ^ 105).
      change (2 ^ (53 + 53)) with (2 ^ 53 * 2 ^ 53). rewrite Pos2Z.inj_mul.
      nia. }
    apply int64_of_rounded; [lia|lia|lia|].
    replace (- (eT + -52 + 53)) with (- eT - 1) by lia. rewrite HUm1.
    split.
    + apply Hlo. rewrite HP. nia.
    + assert (Zpos m2 <= 5 * ttl * W); [apply Hhi; rewrite HP; nia|nia].
Qed.

(** ** The bounds of the expiry *)

(** C8, as the claim states it, fails for the persistent backend: with a
    base TTL of one nanosecond and the draw [0.0] the product is [0.75],
    which the conversion to a [Duration] truncates to zero, so that the
    record expires at the very clock reading of the write. *)
Lemma one_nanosecond_ttl_truncates_to_zero :
  ¬ written_within_jitter_interval 1
      (new_events
         (Bolt.getEntity (Fixture.env 1000 Fixture.draw_0 Fixture.api)
            (Fixture.bolt_config false 1 []) "apps" Fixture.guid)
         Fixture.empty_world).
Proof.
  intros H.
  destruct (H [EvGet ("apps/" ++ Fixture.guid);
               EvRequest ("/v2/apps/" ++ Fixture.guid)
                 (Fixture.ok Fixture.app_record);
               EvNow 1000; EvRand Fixture.draw_0]
              ("apps/" ++ Fixture.guid)%string
              (set_TTL 1000 Fixture.app_record) [])
    as (t & Ht & Hlo & _).
  - vm_compute. reflexivity.
  - injection Ht as <-. simpl in Hlo. lia.
Qed.

Lemma last_now_snoc_rand (pre : list event) (t : Z) (r : spec_float) :
  last_now (pre ++ [EvNow t; EvRand r]) = Some t.
Proof. induction pre as [|ev pre IH]; simpl; [reflexivity | by rewrite IH]. Qed.

Lemma last_now_snoc (pre : list event) (t : Z) :
  last_now (pre ++ [EvNow t]) = Some t.
Proof. induction pre as [|ev pre IH]; simpl; [reflexivity | by rewrite IH]. Qed.

(** C8, amended. For a base TTL [T] of at least zero and less than
    [2 ^ 50] nanoseconds (thirteen days), and draws of the random source
    that are float64 numbers of [[0, 1)], every record the persistent
    backend writes expires between [floor (0.75 T)] and [floor (1.25 T)]
    nanoseconds after the clock reading taken for the write: the float64
    product is truncated to whole nanoseconds, so the offset is more than
    [0.75 T - 1] and at most [1.25 T], and inside [[0.75 T, 1.25 T]] when
    [T] is a multiple of four nanoseconds.  Every record the in-memory
    backend writes expires exactly [T] after the clock reading, which is
    inside the interval when [T] is not negative. *)
Theorem expiry_offset_bounds
    (E : Env) (bc : Bolt.CachingBoltConfig) (mc : Memory.CachingMemoryConfig)
    (w : World) (pre post : list event) (k : string) (v : entity) :
  0 <= Bolt.CacheInvalidateTTL bc < 2 ^ 50 →
  (∀ n, unit_draw (rand_Float64_at E n) = true) →
  (∀ op, bolt_events E bc op w = (pre ++ EvPut k v :: post)%list →
     ∃ t, last_now (trace w ++ pre) = Some t ∧
          3 * Bolt.CacheInvalidateTTL bc / 4 <= TTL v - t
            <= 5 * Bolt.CacheInvalidateTTL bc / 4 ∧
          3 * Bolt.CacheInvalidateTTL bc - 4 < 4 * (TTL v - t)
            <= 5 * Bolt.CacheInvalidateTTL bc ∧
          (Bolt.CacheInvalidateTTL bc mod 4 = 0 →
           3 * Bolt.CacheInvalidateTTL bc <= 4 * (TTL v - t))) ∧
  (∀ op, memory_events E mc op w = (pre ++ EvPut k v :: post)%list →
     ∃ t, last_now (trace w ++ pre) = Some t ∧
          TTL v - t = Memory.CacheInvalidateTTL mc ∧
          (0 <= Memory.CacheInvalidateTTL mc →
           3 * Memory.CacheInvalidateTTL mc <= 4 * (TTL v - t)
             <= 5 * Memory.CacheInvalidateTTL mc)).
Proof.
  intros Httl Hdraws. split; intros op Hevs.
  - pose proof (bolt_op_writes E bc op w) as H.
    apply (puts_from_split _ _ _ pre post k v) in H; [|exact Hevs].
    destruct H as (before & t & r & entityType & uuid & raw & Hpre & [n ->]
                   & _ & -> & _).
    exists t. rewrite Hpre. split; [apply last_now_snoc_rand|].
    unfold Bolt.normalise. cbn [TTL set_TTL].
    pose proof (jitter_bounds (Bolt.CacheInvalidateTTL bc)
                  (rand_Float64_at E n) Httl (Hdraws n)) as Hj.
    set (T := Bolt.CacheInvalidateTTL bc) in *.
    set (j := jitter T (rand_Float64_at E n)) in *.
    replace (t + j - t) with j by lia.
    pose proof (Z.div_mod (3 * T) 4 ltac:(lia)).
    pose proof (Z.mod_pos_bound (3 * T) 4 ltac:(lia)).
    pose proof (Z.div_mod (5 * T) 4 ltac:(lia)).
    pose proof (Z.mod_pos_bound (5 * T) 4 ltac:(lia)).
    repeat split; try lia.
    intros Hmod.
    assert (Hm3 : (3 * T) mod 4 = 0).
    { rewrite <- Z.mul_mod_idemp_r, Hmod by lia. reflexivity. }
    lia.
  - destruct (memory_op_writes E mc op w) as [H _].
    apply (puts_from_split _ _ _ pre post k v) in H; [|exact Hevs].
    destruct H as (before & st & b & t & entityType & uuid & Hpre & _ & ->).
    exists t. rewrite Hpre. cbn [TTL set_TTL].
    replace (before ++ [EvRequest ("/v2/" ++ entityType ++ "/" ++ uuid)
                          (RespHTTP 200 st (inr b)); EvNow t])%list
      with ((before ++ [EvRequest ("/v2/" ++ entityType ++ "/" ++ uuid)
                          (RespHTTP 200 st (inr b))]) ++ [EvNow t])%list
      by (by rewrite <- app_assoc).
    split; [apply last_now_snoc|]. split; lia.
Qed.

Lemma expiry_offset_bounds_witness :
  ∃ t, last_now ([] ++ [EvGet ("apps/" ++ Fixture.guid);
                        EvRequest ("/v2/apps/" ++ Fixture.guid)
                          (Fixture.ok Fixture.app_record);
                        EvNow 1000; EvRand Fixture.draw_half]) = Some t ∧
       3 * 4000 / 4 <= TTL (set_TTL 5000 Fixture.app_record) - t
         <= 5 * 4000 / 4 ∧
       3 * 4000 - 4 < 4 * (TTL (set_TTL 5000 Fixture.app_record) - t)
         <= 5 * 4000 ∧
       (4000 mod 4 = 0 →
        3 * 4000 <= 4 * (TTL (set_TTL 5000 Fixture.app_record) - t)).
Proof.
  apply (proj1 (expiry_offset_bounds
           (Fixture.env 1000 Fixture.draw_half Fixture.api)
           (Fixture.bolt_config false 4000 [])
           (Fixture.memory_config false 4000)
           Fixture.empty_world
           [EvGet ("apps/" ++ Fixture.guid);
            EvRequest ("/v2/apps/" ++ Fixture.guid)
              (Fixture.ok Fixture.app_record);
            EvNow 1000; EvRand Fixture.draw_half]
           []
           ("apps/" ++ Fixture.guid)%string
           (set_TTL 5000 Fixture.app_record)
           ltac:(simpl; lia)
           (λ _, eq_refl))
         (BoltGetEntity "apps" Fixture.guid)).
  vm_compute. reflexivity.
Defined.

(** * Further properties of the package *)

(** ** Cache keys *)

Lemma makeBoltKey_cons (c : ascii) (entityType uuid : string) :
  Bolt.makeBoltKey (String c entityType) uuid
  = String c (Bolt.makeBoltKey entityType uuid).
Proof. reflexivity. Qed.

Lemma makeBoltKey_nil (uuid : string) :
  Bolt.makeBoltKey "" uuid = String "/" uuid.
Proof. reflexivity. Qed.

(** X1. The keys of two kinds never collide: when neither kind holds a
    ['/'], as is the case of ["apps"], ["spaces"] and ["organizations"],
    equal keys come from the same kind and the same guid.  The in-memory
    backend builds its keys the same way. *)
Theorem makeBoltKey_injective (k1 k2 u1 u2 : string) :
  no_slash k1 = true → no_slash k2 = true →
  Bolt.makeBoltKey k1 u1 = Bolt.makeBoltKey k2 u2 →
  k1 = k2 ∧ u1 = u2.
Proof.
  revert k2. induction k1 as [|c1 k1 IH]; intros [|c2 k2] H1 H2 Heq;
    simpl in H1, H2.
  - rewrite !makeBoltKey_nil in Heq. injection Heq as <-. auto.
  - rewrite makeBoltKey_nil, makeBoltKey_cons in Heq. injection Heq as <- _.
    discriminate H2.
  - rewrite makeBoltKey_nil, makeBoltKey_cons in Heq. injection Heq as -> _.
    discriminate H1.
  - rewrite !makeBoltKey_cons in Heq. injection Heq as <- Heq.
    apply andb_true_iff in H1 as [_ H1]. apply andb_true_iff in H2 as [_ H2].
    destruct (IH k2 H1 H2 Heq) as [<- <-]. auto.
Qed.

Lemma makeBoltKey_injective_witness :
  "apps" = "apps" ∧ Fixture.guid = Fixture.guid.
Proof.
  apply (makeBoltKey_injective "apps" "apps" Fixture.guid Fixture.guid);
    reflexivity.
Defined.

(** ** Saving a record *)

(** X2. [normaliseAndSaveEntityToDatabase] on a record returns the
    normalised record, and an error exactly when the encoding or the write
    transaction fails.  Without an error the cache holds the normalised
    record under the key of the kind and the guid, and every other entry is
    as before; with an error the cache is unchanged. *)
Theorem normaliseAndSave_store_effect
    (E : Env) (c : Bolt.CachingBoltConfig) (entityType uuid : string)
    (e : entity) (w : World) :
  let key := Bolt.makeBoltKey entityType uuid in
  let e' := Bolt.normalise c entityType
              (time_Now_at E (count is_now (trace w)))
              (rand_Float64_at E (count is_rand (trace w))) e in
  let res := Bolt.normaliseAndSaveEntityToDatabase E c entityType uuid
               (Some e) w in
  ∃ err,
    fst res = Done (e', err) ∧
    (err = None ↔
     gob_Encode_err E e' = None ∧
     bolt_fault E (count is_bolt_tx (trace w)) = None) ∧
    (err = None →
     store (snd res) !! key = Some e' ∧
     ∀ k, k ≠ key → store (snd res) !! k = store w !! k) ∧
    (err ≠ None → store (snd res) = store w).
Proof.
  intros key e' res. subst res.
  unfold Bolt.normaliseAndSaveEntityToDatabase, bind, ret, time_Now,
    rand_Float64, Bolt.updatePut.
  cbv beta. cbn [fst snd]. rewrite !count_log.
  cbn [is_now is_rand is_bolt_tx]. rewrite !Nat.add_0_r. fold e'. fold key.
  destruct (gob_Encode_err E e') as [msg|] eqn:Henc; cbv beta;
    cbn [fst snd]; rewrite ?count_log; cbn [is_now is_rand is_bolt_tx];
    rewrite ?Nat.add_0_r.
  { exists (Some (ErrGob msg)). split; [reflexivity|].
    split; [split; [discriminate | intros [? _]; discriminate]|].
    split; [discriminate | reflexivity]. }
  destruct (bolt_fault E (count is_bolt_tx (trace w))) as [msg|] eqn:Hf;
    cbn [fst snd].
  { exists (Some (ErrBolt msg)). split; [reflexivity|].
    split; [split; [discriminate | intros [_ ?]; discriminate]|].
    split; [discriminate | reflexivity]. }
  exists None. split; [reflexivity|]. split; [tauto|].
  split; [|congruence]. intros _. simpl. split.
  - apply lookup_insert_eq.
  - intros k Hk. by apply lookup_insert_ne.
Qed.

(** ** Name suffixes, once more *)

Lemma substring_none (n : nat) (s : string) : substring n 0 s = "".
Proof.
  revert n. induction s as [|a s IH]; intros [|n]; simpl; auto.
Qed.

Lemma append_empty_r (s : string) : (s ++ "")%string = s.
Proof.
  induction s as [|a s IH]; [reflexivity|].
  change (String a (s ++ "")%string = String a s). by rewrite IH.
Qed.

Lemma HasSuffix_empty (s : string) : HasSuffix s "" = true.
Proof. unfold HasSuffix. simpl. by rewrite substring_none. Qed.

(** X3. The name that the loop over the suffixes leaves is the name less
    one configured suffix, or the name itself: nothing but a trailing
    suffix is ever cut.  An empty suffix in the list matches every name, so
    the loop stops there: no suffix listed after it is ever stripped. *)
Theorem stripAppSuffixes_cuts_one_suffix (name : string) :
  (∀ suffixes, ∃ s, (s = "" ∨ In s suffixes) ∧
                    (stripAppSuffixes name suffixes ++ s)%string = name) ∧
  (∀ before after,
     Forall (λ t, HasSuffix name t = false) before →
     stripAppSuffixes name (before ++ "" :: after) = name).
Proof.
  split.
  - intros suffixes. induction suffixes as [|t l IH]; simpl.
    + exists "". split; [by left | apply append_empty_r].
    + destruct (HasSuffix name t) eqn:Ht.
      * exists t. split; [right; by left | by apply HasSuffix_true].
      * destruct IH as (s & [Hs0|Hin] & Hs); exists s; auto.
  - intros before after Hbefore.
    pose proof (stripAppSuffixes_first name "" before after Hbefore
                  (HasSuffix_empty name)) as H.
    by rewrite append_empty_r in H.
Qed.

(** ** Lookups *)

(** Rewriting the counts of a world that has logged some events. *)
Ltac count_events :=
  repeat (rewrite count_log;
          cbn [is_now is_rand is_request is_bolt_tx is_put is_get]);
  rewrite ?Nat.add_0_r.

Lemma Bolt_fetchAndSave_first_event (E : Env) (c : Bolt.CachingBoltConfig)
    (entityType uuid : string) (w : World) :
  let path := ("/v2/" ++ entityType ++ "/" ++ uuid)%string in
  ∃ evs,
    trace (snd (Bolt.fetchAndSave E c entityType uuid w))
    = (trace w ++ EvRequest path
                    (http_Do E (count is_request (trace w)) path) :: evs)%list.
Proof.
  intros path.
  unfold Bolt.fetchAndSave, Bolt.fetchEntityFromAPI,
    Bolt.makeRequestAndDecodeJSON, Bolt.normaliseAndSaveEntityToDatabase,
    bind, ret, panic, DoRequest, time_Now, rand_Float64, Bolt.updatePut.
  fold path.
  repeat case_match; simplify_eq; simpl; rewrite <- ?app_assoc; simpl;
    eexists; reflexivity.
Qed.

Lemma Memory_fetchAndStore_first_event (E : Env)
    (c : Memory.CachingMemoryConfig) (entityType uuid key : string)
    (w : World) :
  let path := ("/v2/" ++ entityType ++ "/" ++ uuid)%string in
  ∃ evs,
    trace (snd (Memory.fetchAndStore E c entityType uuid key w))
    = (trace w ++ EvRequest path
                    (http_Do E (count is_request (trace w)) path) :: evs)%list.
Proof.
  intros path.
  unfold Memory.fetchAndStore, bind, ret, DoRequest, time_Now,
    Memory.cacheStore.
  fold path.
  repeat case_match; simplify_eq; simpl; rewrite <- ?app_assoc; simpl;
    eexists; reflexivity.
Qed.

Lemma issues_request_intro {A} (m : M A) (w : World) (pre evs : list event)
    (path : string) (resp : response) :
  trace (snd (m w)) = (trace w ++ pre ++ EvRequest path resp :: evs)%list →
  issues_request m w.
Proof.
  intros H. exists path, resp.
  rewrite (new_events_app m w _ H). apply in_or_app. right. by left.
Qed.

(** X4. A record that the cache holds is returned as it is, with no
    request and no write, exactly when its expiry is before the clock
    reading of the lookup; when its expiry is the reading or later, the
    lookup sends a request for it.  This holds in both backends, for every
    kind, guid and cached record. *)
Theorem getEntity_serves_only_expired
    (E : Env) (bc : Bolt.CachingBoltConfig) (mc : Memory.CachingMemoryConfig)
    (entityType guid uuid : string) (rv : entity) (w : World) :
  uuid_FromString E guid = inr uuid →
  store w !! (entityType ++ "/" ++ uuid)%string = Some rv →
  bolt_fault E (count is_bolt_tx (trace w)) = None →
  let now := time_Now_at E (count is_now (trace w)) in
  let w1 := log (EvNow now) (log (EvGet (entityType ++ "/" ++ uuid)) w) in
  (TTL rv < now →
   Bolt.getEntity E bc entityType guid w = (Done (Ok rv), w1) ∧
   Memory.getEntity E mc entityType guid w = (Done (Ok rv), w1)) ∧
  (now <= TTL rv →
   issues_request (Bolt.getEntity E bc entityType guid) w ∧
   issues_request (Memory.getEntity E mc entityType guid) w).
Proof.
  intros Hp Hrv Hfault now w1.
  pose proof (Bolt_getEntity_present E bc entityType guid uuid rv w Hp Hfault
                Hrv) as Hb.
  pose proof (Memory_getEntity_present E mc entityType guid uuid rv w Hp Hrv)
    as Hm.
  cbv zeta in Hb, Hm. fold now in Hb, Hm.
  change (Bolt.makeBoltKey entityType uuid)
    with (entityType ++ "/" ++ uuid)%string in Hb.
  fold w1 in Hb, Hm.
  split; intros Hcmp.
  - apply Z.ltb_lt in Hcmp. rewrite Hcmp in Hb, Hm. auto.
  - apply Z.ltb_ge in Hcmp. rewrite Hcmp in Hb, Hm. split.
    + destruct (Bolt_fetchAndSave_first_event E bc entityType uuid w1)
        as (evs & Ht).
      eapply (issues_request_intro _ w
                [EvGet (entityType ++ "/" ++ uuid); EvNow now]).
      rewrite Hb, Ht. unfold w1. simpl. rewrite <- !app_assoc. reflexivity.
    + destruct (Memory_fetchAndStore_first_event E mc entityType uuid
                  (entityType ++ "/" ++ uuid) w1) as (evs & Ht).
      eapply (issues_request_intro _ w
                [EvGet (entityType ++ "/" ++ uuid); EvNow now]).
      rewrite Hm, Ht. unfold w1. simpl. rewrite <- !app_assoc. reflexivity.
Qed.

Lemma getEntity_serves_only_expired_witness :
  (TTL (set_TTL 500 (set_Name "cached" Fixture.app_record)) < 1000 →
   Bolt.getEntity (Fixture.env 1000 Fixture.draw_0 Fixture.api)
     (Fixture.bolt_config false 4000 []) "apps" Fixture.GUID
     (Fixture.cached_world 500)
   = (Done (Ok (set_TTL 500 (set_Name "cached" Fixture.app_record))),
      log (EvNow 1000)
        (log (EvGet ("apps/" ++ Fixture.guid)) (Fixture.cached_world 500))) ∧
   Memory.getEntity (Fixture.env 1000 Fixture.draw_0 Fixture.api)
     (Fixture.memory_config false 4000) "apps" Fixture.GUID
     (Fixture.cached_world 500)
   = (Done (Ok (set_TTL 500 (set_Name "cached" Fixture.app_record))),
      log (EvNow 1000)
        (log (EvGet ("apps/" ++ Fixture.guid)) (Fixture.cached_world 500)))) ∧
  (1000 <= TTL (set_TTL 500 (set_Name "cached" Fixture.app_record)) →
   issues_request
     (Bolt.getEntity (Fixture.env 1000 Fixture.draw_0 Fixture.api)
        (Fixture.bolt_config false 4000 []) "apps" Fixture.GUID)
     (Fixture.cached_world 500) ∧
   issues_request
     (Memory.getEntity (Fixture.env 1000 Fixture.draw_0 Fixture.api)
        (Fixture.memory_config false 4000) "apps" Fixture.GUID)
     (Fixture.cached_world 500)).
Proof.
  apply (getEntity_serves_only_expired
           (Fixture.env 1000 Fixture.draw_0 Fixture.api)
           (Fixture.bolt_config false 4000 [])
           (Fixture.memory_config false 4000)
           "apps" Fixture.GUID Fixture.guid
           (set_TTL 500 (set_Name "cached" Fixture.app_record))
           (Fixture.cached_world 500));
    reflexivity.
Defined.

Lemma Bolt_getEntity_absent (E : Env) (c : Bolt.CachingBoltConfig)
    (entityType guid uuid : string) (w : World) :
  uuid_FromString E guid = inr uuid →
  bolt_fault E (count is_bolt_tx (trace w)) = None →
  store w !! Bolt.makeBoltKey entityType uuid = None →
  Bolt.getEntity E c entityType guid w
  = Bolt.fetchAndSave E c entityType uuid
      (log (EvGet (Bolt.makeBoltKey entityType uuid)) w).
Proof.
  intros Hp Hfault Hrv. unfold Bolt.getEntity. rewrite Hp.
  unfold bind at 1. unfold Bolt.viewEntity. by rewrite Hfault, Hrv.
Qed.

Lemma Memory_getEntity_absent (E : Env) (c : Memory.CachingMemoryConfig)
    (entityType guid uuid : string) (w : World) :
  uuid_FromString E guid = inr uuid →
  store w !! (entityType ++ "/" ++ uuid)%string = None →
  Memory.getEntity E c entityType guid w
  = Memory.fetchAndStore E c entityType uuid (entityType ++ "/" ++ uuid)
      (log (EvGet (entityType ++ "/" ++ uuid)) w).
Proof.
  intros Hp Hrv. unfold Memory.getEntity. rewrite Hp.
  unfold bind at 1. unfold Memory.cacheLookup. by rewrite Hrv.
Qed.

(** X5. Read-through on a miss.  When the cache holds nothing under the
    key and the request is answered with status 200 and an entity, the
    lookup returns the record it has stored: in the persistent backend the
    normalised record (suffix stripped, jittered expiry), provided that the
    encoding and the two transactions succeed; in the in-memory backend the
    record as decoded, with the expiry at the clock reading plus the TTL.
    The cache then holds that record under the key. *)
Theorem getEntity_miss_reads_through
    (E : Env) (bc : Bolt.CachingBoltConfig) (mc : Memory.CachingMemoryConfig)
    (entityType guid uuid st : string) (b : json_body) (raw : entity)
    (w : World) :
  uuid_FromString E guid = inr uuid →
  store w !! (entityType ++ "/" ++ uuid)%string = None →
  http_Do E (count is_request (trace w)) ("/v2/" ++ entityType ++ "/" ++ uuid)
  = RespHTTP 200 st (inr b) →
  j_entity b = Some raw →
  let key := (entityType ++ "/" ++ uuid)%string in
  let t := time_Now_at E (count is_now (trace w)) in
  let e_bolt :=
    Bolt.normalise bc entityType t
      (rand_Float64_at E (count is_rand (trace w))) raw in
  let e_mem := set_TTL (t + Memory.CacheInvalidateTTL mc) raw in
  (bolt_fault E (count is_bolt_tx (trace w)) = None →
   bolt_fault E (count is_bolt_tx (trace w) + 1) = None →
   gob_Encode_err E e_bolt = None →
   fst (Bolt.getEntity E bc entityType guid w) = Done (Ok e_bolt) ∧
   store (snd (Bolt.getEntity E bc entityType guid w))
   = <[key := e_bolt]> (store w)) ∧
  (fst (Memory.getEntity E mc entityType guid w) = Done (Ok e_mem) ∧
   store (snd (Memory.getEntity E mc entityType guid w))
   = <[key := e_mem]> (store w)).
Proof.
  intros Hp Hmiss Hresp Hraw key t e_bolt e_mem. split.
  - intros Hf1 Hf2 Henc.
    rewrite (Bolt_getEntity_absent E bc entityType guid uuid w Hp Hf1 Hmiss).
    unfold Bolt.fetchAndSave, bind. rewrite Bolt_fetchEntityFromAPI_eq.
    count_events. rewrite Hresp. cbn [Z.eqb Pos.eqb]. rewrite Hraw.
    unfold Bolt.normaliseAndSaveEntityToDatabase, bind, ret, time_Now,
      rand_Float64, Bolt.updatePut.
    cbv beta. count_events. fold t. fold e_bolt. rewrite Henc.
    cbv beta. count_events. rewrite Hf2. auto.
  - rewrite (Memory_getEntity_absent E mc entityType guid uuid w Hp Hmiss).
    unfold Memory.fetchAndStore, bind, ret, DoRequest, time_Now,
      Memory.cacheStore.
    cbv beta. count_events. rewrite Hresp. cbn [Z.eqb Pos.eqb].
    cbv beta. count_events. rewrite Hraw. auto.
Qed.

Lemma getEntity_miss_reads_through_witness :
  (fst (Bolt.getEntity (Fixture.env 1000 Fixture.draw_0 Fixture.api)
          (Fixture.bolt_config false 4000 ["-venerable"]) "apps" Fixture.GUID
          Fixture.empty_world)
   = Done (Ok (set_TTL 4000 (set_Name "billing" Fixture.app_record))) ∧
   store (snd (Bolt.getEntity (Fixture.env 1000 Fixture.draw_0 Fixture.api)
                 (Fixture.bolt_config false 4000 ["-venerable"]) "apps"
                 Fixture.GUID Fixture.empty_world))
   = <[("apps/" ++ Fixture.guid)%string :=
         set_TTL 4000 (set_Name "billing" Fixture.app_record)]> ∅) ∧
  (fst (Memory.getEntity (Fixture.env 1000 Fixture.draw_0 Fixture.api)
          (Fixture.memory_config false 4000) "apps" Fixture.GUID
          Fixture.empty_world)
   = Done (Ok (set_TTL 5000 Fixture.app_record)) ∧
   store (snd (Memory.getEntity (Fixture.env 1000 Fixture.draw_0 Fixture.api)
                 (Fixture.memory_config false 4000) "apps" Fixture.GUID
                 Fixture.empty_world))
   = <[("apps/" ++ Fixture.guid)%string :=
         set_TTL 5000 Fixture.app_record]> ∅).
Proof.
  destruct (getEntity_miss_reads_through
              (Fixture.env 1000 Fixture.draw_0 Fixture.api)
              (Fixture.bolt_config false 4000 ["-venerable"])
              (Fixture.memory_config false 4000)
              "apps" Fixture.GUID Fixture.guid "200 OK"
              {| j_entity := Some Fixture.app_record; j_next_url := "";
                 j_resources := [] |}
              Fixture.app_record Fixture.empty_world
              eq_refl eq_refl eq_refl eq_refl) as [Hbolt Hmem].
  split; [exact (Hbolt eq_refl eq_refl eq_refl) | exact Hmem].
Defined.

(** X6. Storage errors of the persistent lookup.  When the read
    transaction fails, [getEntity] returns its error with no request and
    no write.  When the request has been answered with an entity but the
    record cannot be encoded or written, [getEntity] returns that error,
    not the record it has fetched, and the cache is unchanged. *)
Theorem Bolt_getEntity_storage_errors
    (E : Env) (c : Bolt.CachingBoltConfig)
    (entityType guid uuid : string) (w : World) :
  uuid_FromString E guid = inr uuid →
  let key := Bolt.makeBoltKey entityType uuid in
  let path := ("/v2/" ++ entityType ++ "/" ++ uuid)%string in
  let e' := λ raw,
    Bolt.normalise c entityType (time_Now_at E (count is_now (trace w)))
      (rand_Float64_at E (count is_rand (trace w))) raw in
  (∀ msg, bolt_fault E (count is_bolt_tx (trace w)) = Some msg →
     Bolt.getEntity E c entityType guid w
     = (Done (Error (ErrBolt msg)), log (EvBoltErr msg) w)) ∧
  (∀ st b raw err,
     bolt_fault E (count is_bolt_tx (trace w)) = None →
     store w !! key = None →
     http_Do E (count is_request (trace w)) path = RespHTTP 200 st (inr b) →
     j_entity b = Some raw →
     (gob_Encode_err E (e' raw) = Some err ∨
      (gob_Encode_err E (e' raw) = None ∧
       bolt_fault E (count is_bolt_tx (trace w) + 1) = Some err)) →
     ∃ failure,
       fst (Bolt.getEntity E c entityType guid w) = Done (Error failure) ∧
       (failure = ErrGob err ∨ failure = ErrBolt err) ∧
       store (snd (Bolt.getEntity E c entityType guid w)) = store w).
Proof.
  intros Hp key path e'. split.
  - intros msg Hf. unfold Bolt.getEntity. rewrite Hp.
    unfold bind at 1. unfold Bolt.viewEntity. by rewrite Hf.
  - intros st b raw err Hf1 Hmiss Hresp Hraw Hfail.
    rewrite (Bolt_getEntity_absent E c entityType guid uuid w Hp Hf1 Hmiss).
    unfold Bolt.fetchAndSave, bind. rewrite Bolt_fetchEntityFromAPI_eq.
    count_events. fold path. rewrite Hresp. cbn [Z.eqb Pos.eqb]. rewrite Hraw.
    unfold Bolt.normaliseAndSaveEntityToDatabase, bind, ret, time_Now,
      rand_Float64, Bolt.updatePut.
    cbv beta. count_events. fold (e' raw).
    destruct Hfail as [Henc|[Henc Hf2]]; rewrite Henc.
    + exists (ErrGob err). auto.
    + cbv beta. count_events. rewrite Hf2. exists (ErrBolt err). auto.
Qed.

Lemma Bolt_getEntity_storage_errors_witness :
  Bolt.getEntity
    (faulty_env 1000 Fixture.draw_0 Fixture.api (λ _, Some "tx closed")
       (λ _, None))
    (Fixture.bolt_config false 4000 []) "apps" Fixture.GUID
    Fixture.empty_world
  = (Done (Error (ErrBolt "tx closed")),
     log (EvBoltErr "tx closed") Fixture.empty_world) ∧
  ∃ failure,
    fst (Bolt.getEntity
           (faulty_env 1000 Fixture.draw_0 Fixture.api (λ _, None)
              (λ _, Some "gob: type not registered"))
           (Fixture.bolt_config false 4000 []) "apps" Fixture.GUID
           Fixture.empty_world)
    = Done (Error failure) ∧
    (failure = ErrGob "gob: type not registered" ∨
     failure = ErrBolt "gob: type not registered") ∧
    store (snd (Bolt.getEntity
                  (faulty_env 1000 Fixture.draw_0 Fixture.api (λ _, None)
                     (λ _, Some "gob: type not registered"))
                  (Fixture.bolt_config false 4000 []) "apps" Fixture.GUID
                  Fixture.empty_world))
    = ∅.
Proof.
  split.
  - exact (proj1 (Bolt_getEntity_storage_errors
                    (faulty_env 1000 Fixture.draw_0 Fixture.api
                       (λ _, Some "tx closed") (λ _, None))
                    (Fixture.bolt_config false 4000 []) "apps" Fixture.GUID
                    Fixture.guid Fixture.empty_world eq_refl)
             "tx closed" eq_refl).
  - exact (proj2 (Bolt_getEntity_storage_errors
                    (faulty_env 1000 Fixture.draw_0 Fixture.api (λ _, None)
                       (λ _, Some "gob: type not registered"))
                    (Fixture.bolt_config false 4000 []) "apps" Fixture.GUID
                    Fixture.guid Fixture.empty_world eq_refl)
             "200 OK"
             {| j_entity := Some Fixture.app_record; j_next_url := "";
                j_resources := [] |}
             Fixture.app_record "gob: type not registered"
             eq_refl eq_refl eq_refl eq_refl (or_introl eq_refl)).
Defined.

(** ** The assembly of the App *)

Lemma Memory_getEntity_done (E : Env) (c : Memory.CachingMemoryConfig)
    (entityType guid : string) (w : World) :
  ∃ r w', Memory.getEntity E c entityType guid w = (Done r, w').
Proof.
  unfold Memory.getEntity, Memory.fetchAndStore, bind, ret, DoRequest,
    time_Now, Memory.cacheLookup, Memory.cacheStore.
  repeat case_match; simplify_eq; eauto.
Qed.

Lemma Bolt_getEntity_outcome (E : Env) (c : Bolt.CachingBoltConfig)
    (entityType guid : string) (w : World) :
  fst (Bolt.getEntity E c entityType guid w) ≠ Diverge.
Proof.
  unfold Bolt.getEntity, Bolt.fetchAndSave, Bolt.fetchEntityFromAPI,
    Bolt.makeRequestAndDecodeJSON, Bolt.normaliseAndSaveEntityToDatabase,
    Bolt.viewEntity, bind, ret, panic, DoRequest, time_Now, rand_Float64,
    Bolt.updatePut.
  repeat case_match; simplify_eq; simpl; discriminate.
Qed.

(** X7. With [IgnoreMissingApps] set, [GetApp] never returns an error,
    whatever the guid, the cache and the remote API: the in-memory backend
    always returns an App, and the persistent backend returns an App
    unless it panics on a response without entity. *)
Theorem GetApp_never_fails_when_ignoring
    (E : Env) (bc : Bolt.CachingBoltConfig) (mc : Memory.CachingMemoryConfig)
    (appGuid : string) (w : World) :
  Bolt.IgnoreMissingApps bc = true →
  Memory.IgnoreMissingApps mc = true →
  (∃ a, fst (Memory.GetApp E mc appGuid w) = Done (Some a, None)) ∧
  (fst (Bolt.GetApp E bc appGuid w) = Panic ∨
   ∃ a, fst (Bolt.GetApp E bc appGuid w) = Done (Some a, None)).
Proof.
  intros Hb Hm. split.
  - unfold Memory.GetApp, bind. rewrite Hm.
    destruct (Memory_getEntity_done E mc "apps" appGuid w) as (a & w1 & ->).
    set (app := match a with Ok app => app | Error _ => zero_entity end).
    replace (match a with Ok app0 => Ok app0 | Error _ => Ok zero_entity end)
      with (Ok app : result entity) by (by destruct a).
    destruct (Memory_getEntity_done E mc "spaces" (SpaceGUID app) w1)
      as (s & w2 & ->).
    set (space := match s with Ok x => x | Error _ => zero_entity end).
    replace (match s with Ok x => Ok x | Error _ => Ok zero_entity end)
      with (Ok space : result entity) by (by destruct s).
    destruct (Memory_getEntity_done E mc "organizations"
                (OrganizationGUID space) w2) as (o & w3 & ->).
    destruct o; simpl; eauto.
  - unfold Bolt.GetApp, Bolt.getSpaceAndOrg, bind. rewrite Hb.
    pose proof (Bolt_getEntity_outcome E bc "apps" appGuid w) as H1.
    destruct (Bolt.getEntity E bc "apps" appGuid w) as [[a| |] w1];
      simpl in *; auto; try congruence.
    set (app := match a with Ok app => app | Error _ => zero_entity end).
    replace (match a with Ok app0 => Ok app0 | Error _ => Ok zero_entity end)
      with (Ok app : result entity) by (by destruct a).
    pose proof (Bolt_getEntity_outcome E bc "spaces" (SpaceGUID app) w1) as H2.
    destruct (Bolt.getEntity E bc "spaces" (SpaceGUID app) w1)
      as [[s| |] w2]; simpl in *; auto; try congruence.
    set (space := match s with Ok x => x | Error _ => zero_entity end).
    replace (match s with Ok x => Ok x | Error _ => Ok zero_entity end)
      with (Ok space : result entity) by (by destruct s).
    pose proof (Bolt_getEntity_outcome E bc "organizations"
                  (OrganizationGUID space) w2) as H3.
    destruct (Bolt.getEntity E bc "organizations" (OrganizationGUID space) w2)
      as [[o| |] w3]; simpl in *; auto; try congruence.
    destruct o; simpl; eauto.
Qed.

Lemma GetApp_never_fails_when_ignoring_witness :
  (∃ a, fst (Memory.GetApp (Fixture.env 1000 Fixture.draw_0 Fixture.api_down)
               (Fixture.memory_config true 4000) "not-a-uuid"
               Fixture.empty_world)
        = Done (Some a, None)) ∧
  (fst (Bolt.GetApp (Fixture.env 1000 Fixture.draw_0 Fixture.api_down)
          (Fixture.bolt_config true 4000 []) "not-a-uuid"
          Fixture.empty_world) = Panic ∨
   ∃ a, fst (Bolt.GetApp (Fixture.env 1000 Fixture.draw_0 Fixture.api_down)
               (Fixture.bolt_config true 4000 []) "not-a-uuid"
               Fixture.empty_world)
        = Done (Some a, None)).
Proof.
  apply (GetApp_never_fails_when_ignoring
           (Fixture.env 1000 Fixture.draw_0 Fixture.api_down)
           (Fixture.bolt_config true 4000 [])
           (Fixture.memory_config true 4000)
           "not-a-uuid" Fixture.empty_world);
    reflexivity.
Defined.

(** X8. Without [IgnoreMissingApps], [GetApp] returns an App only when all
    three lookups have returned a record, and the first lookup that fails
    ends the call: its error is returned, no App, and the lookups after it
    are not made (the world is the one the failed lookup left).  The space
    is looked up under the [SpaceGUID] of the app record and the
    organization under the [OrganizationGUID] of the space record. *)
Theorem GetApp_stops_at_first_error
    (E : Env) (bc : Bolt.CachingBoltConfig) (mc : Memory.CachingMemoryConfig)
    (appGuid : string) (w : World) :
  Bolt.IgnoreMissingApps bc = false →
  Memory.IgnoreMissingApps mc = false →
  (∀ err w1,
     Bolt.getEntity E bc "apps" appGuid w = (Done (Error err), w1) →
     Bolt.GetApp E bc appGuid w = (Done (None, Some err), w1)) ∧
  (∀ app err w1 w2,
     Bolt.getEntity E bc "apps" appGuid w = (Done (Ok app), w1) →
     Bolt.getEntity E bc "spaces" (SpaceGUID app) w1 = (Done (Error err), w2) →
     Bolt.GetApp E bc appGuid w = (Done (None, Some err), w2)) ∧
  (∀ app space err w1 w2 w3,
     Bolt.getEntity E bc "apps" appGuid w = (Done (Ok app), w1) →
     Bolt.getEntity E bc "spaces" (SpaceGUID app) w1 = (Done (Ok space), w2) →
     Bolt.getEntity E bc "organizations" (OrganizationGUID space) w2
     = (Done (Error err), w3) →
     Bolt.GetApp E bc appGuid w = (Done (None, Some err), w3)) ∧
  (∀ err w1,
     Memory.getEntity E mc "apps" appGuid w = (Done (Error err), w1) →
     Memory.GetApp E mc appGuid w = (Done (None, Some err), w1)) ∧
  (∀ app err w1 w2,
     Memory.getEntity E mc "apps" appGuid w = (Done (Ok app), w1) →
     Memory.getEntity E mc "spaces" (SpaceGUID app) w1
     = (Done (Error err), w2) →
     Memory.GetApp E mc appGuid w = (Done (None, Some err), w2)) ∧
  (∀ app space err w1 w2 w3,
     Memory.getEntity E mc "apps" appGuid w = (Done (Ok app), w1) →
     Memory.getEntity E mc "spaces" (SpaceGUID app) w1
     = (Done (Ok space), w2) →
     Memory.getEntity E mc "organizations" (OrganizationGUID space) w2
     = (Done (Error err), w3) →
     Memory.GetApp E mc appGuid w = (Done (None, Some err), w3)) ∧
  (∀ a err w',
     Memory.GetApp E mc appGuid w = (Done (Some a, err), w') ∨
     Bolt.GetApp E bc appGuid w = (Done (Some a, err), w') →
     err = None ∧ Guid a = appGuid).
Proof.
  intros Hb Hm.
  repeat split;
    try (intros; unfold Bolt.GetApp, Bolt.getSpaceAndOrg, Memory.GetApp, bind;
         repeat match goal with
                | H : _ = (Done _, _) |- _ => rewrite H; clear H
                end;
         rewrite ?Hb, ?Hm; reflexivity).
  - destruct H as [H|H];
      [apply Memory_GetApp_inv in H | apply Bolt_GetApp_inv in H];
      destruct H as (? & ? & ? & _ & -> & _); reflexivity.
  - destruct H as [H|H];
      [apply Memory_GetApp_inv in H | apply Bolt_GetApp_inv in H];
      destruct H as (? & ? & ? & _ & _ & ->); reflexivity.
Qed.

Lemma GetApp_stops_at_first_error_witness :
  Bolt.GetApp (Fixture.env 1000 Fixture.draw_0 Fixture.api_down)
    (Fixture.bolt_config false 4000 []) Fixture.GUID Fixture.empty_world
  = (Done (None, Some (ErrBadStatus "404 Not Found")),
     snd (Bolt.getEntity (Fixture.env 1000 Fixture.draw_0 Fixture.api_down)
            (Fixture.bolt_config false 4000 []) "apps" Fixture.GUID
            Fixture.empty_world)).
Proof.
  apply (proj1 (GetApp_stops_at_first_error
                  (Fixture.env 1000 Fixture.draw_0 Fixture.api_down)
                  (Fixture.bolt_config false 4000 [])
                  (Fixture.memory_config false 4000)
                  Fixture.GUID Fixture.empty_world eq_refl eq_refl)).
  vm_compute. reflexivity.
Defined.

(** X9. Only the canonical form of the guid reaches the cache and the
    remote API: two strings that the parser maps to the same canonical
    guid give the same lookup, with the same result and the same effects,
    and [GetApp] differs for them only in the [Guid] it echoes. *)
Theorem lookups_depend_on_canonical_guid_only
    (E : Env) (bc : Bolt.CachingBoltConfig) (mc : Memory.CachingMemoryConfig)
    (entityType g1 g2 uuid : string) (w : World) :
  uuid_FromString E g1 = inr uuid →
  uuid_FromString E g2 = inr uuid →
  Bolt.getEntity E bc entityType g1 w = Bolt.getEntity E bc entityType g2 w ∧
  Memory.getEntity E mc entityType g1 w
  = Memory.getEntity E mc entityType g2 w ∧
  fst (Bolt.GetApp E bc g2 w) = respelled g2 (fst (Bolt.GetApp E bc g1 w)) ∧
  snd (Bolt.GetApp E bc g2 w) = snd (Bolt.GetApp E bc g1 w) ∧
  fst (Memory.GetApp E mc g2 w) = respelled g2 (fst (Memory.GetApp E mc g1 w)) ∧
  snd (Memory.GetApp E mc g2 w) = snd (Memory.GetApp E mc g1 w).
Proof.
  intros H1 H2.
  assert (Hb : ∀ k, Bolt.getEntity E bc k g1 w = Bolt.getEntity E bc k g2 w)
    by (intros k; unfold Bolt.getEntity; by rewrite H1, H2).
  assert (Hm : ∀ k, Memory.getEntity E mc k g1 w = Memory.getEntity E mc k g2 w)
    by (intros k; unfold Memory.getEntity; by rewrite H1, H2).
  split; [apply Hb|]. split; [apply Hm|].
  unfold Bolt.GetApp, Memory.GetApp, Bolt.getSpaceAndOrg, bind, ret.
  rewrite <- (Hb "apps"), <- (Hm "apps").
  repeat split; repeat case_match; simplify_eq; reflexivity.
Qed.

Lemma lookups_depend_on_canonical_guid_only_witness :
  Bolt.getEntity (Fixture.env 1000 Fixture.draw_0 Fixture.api)
    (Fixture.bolt_config false 4000 []) "apps" Fixture.GUID Fixture.empty_world
  = Bolt.getEntity (Fixture.env 1000 Fixture.draw_0 Fixture.api)
      (Fixture.bolt_config false 4000 []) "apps" Fixture.guid
      Fixture.empty_world.
Proof.
  apply (lookups_depend_on_canonical_guid_only
           (Fixture.env 1000 Fixture.draw_0 Fixture.api)
           (Fixture.bolt_config false 4000 [])
           (Fixture.memory_config false 4000)
           "apps" Fixture.GUID Fixture.guid Fixture.guid Fixture.empty_world);
    reflexivity.
Defined.

(** ** The entries of the cache *)

Lemma keeps_ret {A} (a : A) : keeps_entries (ret a).
Proof. intros w k H. exact H. Qed.

Lemma keeps_bind {A B} (m : M A) (f : A → M B) :
  keeps_entries m → (∀ a, keeps_entries (f a)) → keeps_entries (bind m f).
Proof.
  intros Hm Hf w k H. unfold bind. specialize (Hm w k H).
  destruct (m w) as [[a| |] w1]; simpl in *; auto.
  by apply Hf.
Qed.

Lemma keeps_updatePut (E : Env) (key : string) (v : entity) :
  keeps_entries (Bolt.updatePut E key v).
Proof.
  intros w k H. unfold Bolt.updatePut.
  destruct (bolt_fault E _); simpl; [exact H|].
  destruct (decide (key = k)) as [->|Hne].
  - rewrite lookup_insert_eq. eauto.
  - by rewrite lookup_insert_ne.
Qed.

Lemma keeps_cacheStore (key : string) (v : entity) :
  keeps_entries (Memory.cacheStore key v).
Proof.
  intros w k H. unfold Memory.cacheStore. simpl.
  destruct (decide (key = k)) as [->|Hne].
  - rewrite lookup_insert_eq. eauto.
  - by rewrite lookup_insert_ne.
Qed.

Lemma keeps_viewEntity (E : Env) (key : string) :
  keeps_entries (Bolt.viewEntity E key).
Proof. intros w k H. unfold Bolt.viewEntity. by repeat case_match. Qed.

(** Going through a computation made of [bind], [ret] and matches. *)
Ltac keeps_step :=
  first
    [ apply keeps_ret
    | apply keeps_updatePut
    | apply keeps_cacheStore
    | apply keeps_viewEntity
    | (intros ? ? ?; assumption)
    | apply keeps_bind; [|intros ?]
    | match goal with
      | |- keeps_entries (match ?x with _ => _ end) => destruct x
      | |- keeps_entries (if ?x then _ else _) => destruct x
      end ].

Lemma keeps_normaliseAndSave (E : Env) (c : Bolt.CachingBoltConfig)
    (entityType uuid : string) (nv : option entity) :
  keeps_entries (Bolt.normaliseAndSaveEntityToDatabase E c entityType uuid nv).
Proof. unfold Bolt.normaliseAndSaveEntityToDatabase. repeat keeps_step. Qed.

Lemma keeps_makeRequestAndDecodeJSON (E : Env) (url : string) :
  keeps_entries (Bolt.makeRequestAndDecodeJSON E url).
Proof. unfold Bolt.makeRequestAndDecodeJSON. repeat keeps_step. Qed.

Lemma keeps_Bolt_getEntity (E : Env) (c : Bolt.CachingBoltConfig)
    (entityType guid : string) :
  keeps_entries (Bolt.getEntity E c entityType guid).
Proof.
  unfold Bolt.getEntity, Bolt.fetchAndSave, Bolt.fetchEntityFromAPI.
  repeat first [apply keeps_normaliseAndSave
               | apply keeps_makeRequestAndDecodeJSON | keeps_step].
Qed.

Lemma keeps_getSpaceAndOrg (E : Env) (c : Bolt.CachingBoltConfig)
    (spaceGuid : string) :
  keeps_entries (Bolt.getSpaceAndOrg E c spaceGuid).
Proof.
  unfold Bolt.getSpaceAndOrg.
  repeat first [apply keeps_Bolt_getEntity | keeps_step].
Qed.

Lemma keeps_Bolt_GetApp (E : Env) (c : Bolt.CachingBoltConfig)
    (appGuid : string) :
  keeps_entries (Bolt.GetApp E c appGuid).
Proof.
  unfold Bolt.GetApp.
  repeat first [apply keeps_Bolt_getEntity | apply keeps_getSpaceAndOrg
               | keeps_step].
Qed.

Lemma keeps_fetchPages (E : Env) (fuel : nat) (url : string)
    (rv : gmap string (option entity)) :
  keeps_entries (Bolt.fetchPages E fuel url rv).
Proof.
  revert url rv. induction fuel as [|fuel IH]; intros url rv; simpl.
  - intros w k H. exact H.
  - repeat first [apply IH | apply keeps_makeRequestAndDecodeJSON | keeps_step].
Qed.

Lemma keeps_fillApps (E : Env) (c : Bolt.CachingBoltConfig)
    (l : list (string * option entity)) :
  keeps_entries (Bolt.fillApps E c l).
Proof.
  induction l as [|[g app] l IH]; simpl.
  - apply keeps_ret.
  - repeat first [apply IH | apply keeps_normaliseAndSave
                 | apply keeps_getSpaceAndOrg | keeps_step].
Qed.

Lemma keeps_FillCache (E : Env) (c : Bolt.CachingBoltConfig) (fuel : nat) :
  keeps_entries (Bolt.FillCache E c fuel).
Proof.
  unfold Bolt.FillCache, Bolt.fetchEntityListFromAPI.
  repeat first [apply keeps_fetchPages | apply keeps_fillApps | keeps_step].
Qed.

Lemma keeps_Memory_getEntity (E : Env) (c : Memory.CachingMemoryConfig)
    (entityType guid : string) :
  keeps_entries (Memory.getEntity E c entityType guid).
Proof.
  unfold Memory.getEntity, Memory.fetchAndStore.
  repeat keeps_step.
Qed.

Lemma keeps_Memory_GetApp (E : Env) (c : Memory.CachingMemoryConfig)
    (appGuid : string) :
  keeps_entries (Memory.GetApp E c appGuid).
Proof.
  unfold Memory.GetApp.
  repeat first [apply keeps_Memory_getEntity | keeps_step].
Qed.

(** X10. No operation removes an entry from the cache: whatever key holds
    a record before [getEntity], [getSpaceAndOrg], [GetApp] or [FillCache]
    of the persistent backend, or [getEntity] or [GetApp] of the in-memory
    backend, holds one after it, whether the operation returns, fails or
    panics.  Entries are only ever overwritten. *)
Theorem cache_entries_are_never_removed
    (E : Env) (bc : Bolt.CachingBoltConfig) (mc : Memory.CachingMemoryConfig) :
  (∀ entityType guid, keeps_entries (Bolt.getEntity E bc entityType guid)) ∧
  (∀ spaceGuid, keeps_entries (Bolt.getSpaceAndOrg E bc spaceGuid)) ∧
  (∀ appGuid, keeps_entries (Bolt.GetApp E bc appGuid)) ∧
  (∀ fuel, keeps_entries (Bolt.FillCache E bc fuel)) ∧
  (∀ entityType guid, keeps_entries (Memory.getEntity E mc entityType guid)) ∧
  (∀ appGuid, keeps_entries (Memory.GetApp E mc appGuid)).
Proof.
  repeat split; intros.
  - apply keeps_Bolt_getEntity.
  - apply keeps_getSpaceAndOrg.
  - apply keeps_Bolt_GetApp.
  - apply keeps_FillCache.
  - apply keeps_Memory_getEntity.
  - apply keeps_Memory_GetApp.
Qed.

(** X11. A lookup touches one entry only: after [getEntity] for a kind and
    a guid, in either backend, every entry under another key than the one
    of this kind and the canonical guid is as it was before. *)
Theorem getEntity_touches_only_its_key
    (E : Env) (bc : Bolt.CachingBoltConfig) (mc : Memory.CachingMemoryConfig)
    (entityType guid uuid k : string) (w : World) :
  uuid_FromString E guid = inr uuid →
  k ≠ (entityType ++ "/" ++ uuid)%string →
  store (snd (Bolt.getEntity E bc entityType guid w)) !! k = store w !! k ∧
  store (snd (Memory.getEntity E mc entityType guid w)) !! k = store w !! k.
Proof.
  intros Hp Hk. split.
  - unfold Bolt.getEntity, Bolt.fetchAndSave, Bolt.fetchEntityFromAPI,
      Bolt.makeRequestAndDecodeJSON, Bolt.normaliseAndSaveEntityToDatabase,
      Bolt.viewEntity, bind, ret, panic, DoRequest, time_Now, rand_Float64,
      Bolt.updatePut, Bolt.makeBoltKey.
    rewrite Hp.
    repeat case_match; simplify_eq; simpl; rewrite ?lookup_insert_ne;
      auto.
  - unfold Memory.getEntity, Memory.fetchAndStore, bind, ret, DoRequest,
      time_Now, Memory.cacheLookup, Memory.cacheStore.
    rewrite Hp.
    repeat case_match; simplify_eq; simpl; rewrite ?lookup_insert_ne;
      auto.
Qed.

Lemma getEntity_touches_only_its_key_witness :
  store (snd (Bolt.getEntity (Fixture.env 1000 Fixture.draw_0 Fixture.api)
                (Fixture.bolt_config false 4000 []) "spaces"
                Fixture.space_guid (Fixture.cached_world 2000)))
  !! ("apps/" ++ Fixture.guid)%string
  = store (Fixture.cached_world 2000) !! ("apps/" ++ Fixture.guid)%string ∧
  store (snd (Memory.getEntity (Fixture.env 1000 Fixture.draw_0 Fixture.api)
                (Fixture.memory_config false 4000) "spaces"
                Fixture.space_guid (Fixture.cached_world 2000)))
  !! ("apps/" ++ Fixture.guid)%string
  = store (Fixture.cached_world 2000) !! ("apps/" ++ Fixture.guid)%string.
Proof.
  apply (getEntity_touches_only_its_key
           (Fixture.env 1000 Fixture.draw_0 Fixture.api)
           (Fixture.bolt_config false 4000 [])
           (Fixture.memory_config false 4000)
           "spaces" Fixture.space_guid Fixture.space_guid
           ("apps/" ++ Fixture.guid)%string (Fixture.cached_world 2000)).
  - reflexivity.
  - discriminate.
Defined.

(** ** The list of all apps *)

Lemma collect_app (rv : gmap string (option entity))
    (l1 l2 : list (string * option entity)) :
  collect rv (l1 ++ l2) = collect (collect rv l1) l2.
Proof. unfold collect. apply fold_left_app. Qed.

Lemma find_app_first {A} (f : A → bool) (l1 l2 : list A) :
  List.find f (l1 ++ l2)
  = match List.find f l1 with
    | Some x => Some x
    | None => List.find f l2
    end.
Proof.
  induction l1 as [|a l1 IH]; simpl; [reflexivity|].
  by destruct (f a).
Qed.

Lemma collect_lookup (resources : list (string * option entity))
    (rv : gmap string (option entity)) (g : string) :
  collect rv resources !! g
  = match List.find (λ r, String.eqb (fst r) g) (rev resources) with
    | Some r => Some (snd r)
    | None => rv !! g
    end.
Proof.
  revert rv. induction resources as [|[g0 e0] l IH]; intros rv; simpl.
  - reflexivity.
  - change (collect (<[g0 := e0]> rv) l !! g = 
            match List.find (λ r, String.eqb (fst r) g) (rev l ++ [(g0, e0)])
            with Some r => Some (snd r) | None => rv !! g end).
    rewrite IH, find_app_first.
    destruct (List.find (λ r, String.eqb (fst r) g) (rev l)) as [r|] eqn:Hf;
      [reflexivity|].
    simpl. destruct (String.eqb_spec g0 g) as [->|Hne].
    + by rewrite lookup_insert_eq.
    + by rewrite lookup_insert_ne.
Qed.

Lemma fetchPages_page (E : Env) (fuel : nat) (url st : string) (b : json_body)
    (rv : gmap string (option entity)) (w : World) :
  http_Do E (count is_request (trace w)) url = RespHTTP 200 st (inr b) →
  Bolt.fetchPages E (S fuel) url rv w
  = let w1 := log (EvRequest url (RespHTTP 200 st (inr b))) w in
    if String.eqb (j_next_url b) ""
    then (Done (Ok (collect rv (j_resources b))), w1)
    else Bolt.fetchPages E fuel (j_next_url b) (collect rv (j_resources b)) w1.
Proof.
  intros Hresp. simpl.
  unfold Bolt.makeRequestAndDecodeJSON, bind, ret, DoRequest.
  rewrite Hresp. cbn [Z.eqb Pos.eqb]. cbv beta zeta.
  by destruct (String.eqb (j_next_url b) "").
Qed.

Lemma fetchPages_walk (E : Env) (final : nat → string → Prop)
    (pages : list json_body) :
  ∀ url rv w,
    pages_then E final (count is_request (trace w)) url pages →
    ∃ w1 url1,
      store w1 = store w ∧
      count is_request (trace w1)
      = (count is_request (trace w) + length pages)%nat ∧
      final (count is_request (trace w1)) url1 ∧
      ∀ fuel,
        Bolt.fetchPages E (length pages + fuel) url rv w
        = Bolt.fetchPages E fuel url1 (collect rv (listed pages)) w1.
Proof.
  induction pages as [|b pages IH]; intros url rv w Hpages; simpl in Hpages.
  - exists w, url. repeat split; [simpl; lia | exact Hpages].
  - destruct Hpages as ([st Hresp] & Hnext & Hrest).
    set (w0 := log (EvRequest url (RespHTTP 200 st (inr b))) w).
    assert (Hc : count is_request (trace w0)
                 = S (count is_request (trace w)))
      by (unfold w0; rewrite count_log; simpl; lia).
    rewrite <- Hc in Hrest.
    destruct (IH (j_next_url b) (collect rv (j_resources b)) w0 Hrest)
      as (w1 & url1 & Hs & Hn & Hfinal & Hrun).
    exists w1, url1. split; [exact Hs|]. split; [simpl; lia|].
    split; [exact Hfinal|]. intros fuel.
    change (length (b :: pages) + fuel)%nat with (S (length pages + fuel)).
    rewrite (fetchPages_page E _ url st b rv w Hresp). cbv zeta. fold w0.
    destruct (String.eqb_spec (j_next_url b) ""); [contradiction|].
    rewrite Hrun. unfold listed. simpl. by rewrite collect_app.
Qed.

(** X12. The list of all entities of a kind is fetched page by page: when
    the remote API serves some pages with a [next_url] and then one
    without, [fetchEntityListFromAPI] sends one request for each of them,
    the first to [/v2/<kind>?results-per-page=100] and each next one to the
    [next_url] of the page before, and returns the map that holds every
    guid they list, each with the entity of its last listing.  Any fuel
    above the number of pages gives this result; the cache is not
    touched. *)
Theorem fetchEntityListFromAPI_walks_the_pages
    (E : Env) (entityType : string) (pages : list json_body) (b : json_body)
    (fuel : nat) (w : World) :
  pages_then E (last_page E b) (count is_request (trace w))
    ("/v2/" ++ entityType ++ "?results-per-page=100") pages →
  (length pages < fuel)%nat →
  let res := Bolt.fetchEntityListFromAPI E fuel entityType w in
  let all := listed (pages ++ [b]) in
  fst res = Done (Ok (collect ∅ all)) ∧
  count is_request (trace (snd res))
  = (count is_request (trace w) + length pages + 1)%nat ∧
  store (snd res) = store w ∧
  (∀ g e, In (g, e) all → is_Some (collect ∅ all !! g)) ∧
  (∀ g, collect ∅ all !! g
        = option_map snd (List.find (λ r, String.eqb (fst r) g) (rev all))).
Proof.
  intros Hpages Hfuel res all.
  destruct (fetchPages_walk E (last_page E b) pages _ ∅ w Hpages)
    as (w1 & url1 & Hs & Hn & [[st Hresp] Hlast] & Hrun).
  assert (Hres : res
    = (Done (Ok (collect ∅ all)),
       log (EvRequest url1 (RespHTTP 200 st (inr b))) w1)).
  { unfold res, Bolt.fetchEntityListFromAPI.
    replace fuel with (length pages + S (fuel - length pages - 1))%nat by lia.
    rewrite Hrun, (fetchPages_page E _ url1 st b _ w1 Hresp). cbv zeta.
    rewrite Hlast. simpl. unfold all, listed.
    rewrite map_app, concat_app, collect_app. simpl.
    by rewrite app_nil_r. }
  assert (Hlookup : ∀ g, collect ∅ all !! g
            = option_map snd
                (List.find (λ r, String.eqb (fst r) g) (rev all))).
  { intros g. rewrite collect_lookup.
    destruct (List.find _ (rev all)); [reflexivity | apply lookup_empty]. }
  rewrite Hres. cbn [fst snd]. split; [reflexivity|].
  split; [rewrite count_log; simpl; lia|]. split; [exact Hs|].
  split; [|exact Hlookup].
  intros g e Hin. rewrite Hlookup.
  destruct (List.find (λ r, String.eqb (fst r) g) (rev all)) as [r|] eqn:Hf.
  - simpl. eauto.
  - apply in_rev in Hin.
    pose proof (List.find_none _ _ Hf (g, e) Hin) as Hno.
    simpl in Hno. rewrite String.eqb_refl in Hno. discriminate Hno.
Qed.

Lemma fetchEntityListFromAPI_walks_the_pages_witness :
  fst (Bolt.fetchEntityListFromAPI
         (Fixture.env 1000 Fixture.draw_0 paged_api) 2 "apps"
         Fixture.empty_world)
  = Done (Ok (collect ∅ (listed ([first_page] ++ [second_page])))).
Proof.
  apply (fetchEntityListFromAPI_walks_the_pages
           (Fixture.env 1000 Fixture.draw_0 paged_api) "apps"
           [first_page] second_page 2 Fixture.empty_world).
  - simpl. split; [eexists; reflexivity|]. split; [discriminate|].
    split; [eexists; reflexivity | reflexivity].
  - simpl. lia.
Defined.

(** X13. A page that fails ends the enumeration: when, after any number of
    pages with a [next_url], a request fails (client error, status other
    than 200, or undecodable body), [fetchEntityListFromAPI] returns an
    error and nothing of what the pages before have listed; the cache is
    not touched. *)
Theorem fetchEntityListFromAPI_aborts_on_failure
    (E : Env) (entityType : string) (pages : list json_body)
    (fuel : nat) (w : World) :
  pages_then E (failing_page E) (count is_request (trace w))
    ("/v2/" ++ entityType ++ "?results-per-page=100") pages →
  (length pages < fuel)%nat →
  let res := Bolt.fetchEntityListFromAPI E fuel entityType w in
  (∃ err, fst res = Done (Error err)) ∧
  count is_request (trace (snd res))
  = (count is_request (trace w) + length pages + 1)%nat ∧
  store (snd res) = store w.
Proof.
  intros Hpages Hfuel res.
  destruct (fetchPages_walk E (failing_page E) pages _ ∅ w Hpages)
    as (w1 & url1 & Hs & Hn & Hfail & Hrun).
  unfold res, Bolt.fetchEntityListFromAPI.
  replace fuel with (length pages + S (fuel - length pages - 1))%nat by lia.
  rewrite Hrun. simpl.
  unfold Bolt.makeRequestAndDecodeJSON, bind, ret, DoRequest.
  unfold failing_page in Hfail.
  destruct (http_Do E (count is_request (trace w1)) url1)
    as [m|code st [m|b]] eqn:Hresp; simpl in Hfail; cbn [fst snd];
    try destruct (code =? 200) eqn:Hcode; try discriminate Hfail;
    cbn [fst snd]; rewrite count_log; simpl;
    (split; [eauto|]); (split; [lia | exact Hs]).
Qed.

Lemma fetchEntityListFromAPI_aborts_on_failure_witness :
  ∃ err,
    fst (Bolt.fetchEntityListFromAPI
           (Fixture.env 1000 Fixture.draw_0 truncated_api) 2 "apps"
           Fixture.empty_world)
    = Done (Error err).
Proof.
  apply (fetchEntityListFromAPI_aborts_on_failure
           (Fixture.env 1000 Fixture.draw_0 truncated_api) "apps"
           [first_page] 2 Fixture.empty_world).
  - simpl. split; [eexists; reflexivity|]. split; [discriminate|].
    reflexivity.
  - simpl. lia.
Defined.

(** ** Filling the cache *)

Lemma normaliseAndSave_saved (E : Env) (c : Bolt.CachingBoltConfig)
    (entityType uuid : string) (e : entity) (w : World) :
  ∃ e' err w1,
    Bolt.normaliseAndSaveEntityToDatabase E c entityType uuid (Some e) w
    = (Done (e', err), w1) ∧
    (err = None →
     store w1 !! Bolt.makeBoltKey entityType uuid = Some e').
Proof.
  unfold Bolt.normaliseAndSaveEntityToDatabase, bind, ret, time_Now,
    rand_Float64, Bolt.updatePut.
  cbv beta.
  repeat case_match; simplify_eq; do 3 eexists;
    (split; [reflexivity|]); try discriminate.
  intros _. simpl. apply lookup_insert_eq.
Qed.

Lemma fillApps_done (E : Env) (c : Bolt.CachingBoltConfig)
    (apps : list (string * option entity)) :
  ∀ w,
    fst (Bolt.fillApps E c apps w) = Done None →
    ∀ g a, In (g, a) apps →
      ∃ u e,
        uuid_FromString E g = inr u ∧ a = Some e ∧
        is_Some (store (snd (Bolt.fillApps E c apps w))
                 !! Bolt.makeBoltKey "apps" u).
Proof.
  induction apps as [|[g0 a0] rest IH]; intros w Hdone g a Hin;
    [destruct Hin|].
  simpl in Hdone |- *.
  destruct (uuid_FromString E g0) as [msg|u0] eqn:Hp;
    [discriminate Hdone|].
  destruct a0 as [e0|]; cycle 1.
  { exfalso. revert Hdone.
    unfold Bolt.normaliseAndSaveEntityToDatabase, bind, ret, panic,
      time_Now, rand_Float64.
    by repeat case_match. }
  destruct (normaliseAndSave_saved E c "apps" u0 e0 w)
    as (e' & err & w1 & Hsave & Hstored).
  unfold bind in Hdone |- *. rewrite Hsave in Hdone |- *.
  destruct err as [err|]; [discriminate Hdone|].
  specialize (Hstored eq_refl).
  pose proof (keeps_getSpaceAndOrg E c (SpaceGUID e') w1
                (Bolt.makeBoltKey "apps" u0)) as Hkeep.
  destruct (Bolt.getSpaceAndOrg E c (SpaceGUID e') w1)
    as [[[so|err]| |] w2]; try discriminate Hdone.
  cbn [fst snd] in *.
  destruct Hin as [Heq|Hin].
  - injection Heq as <- <-. exists u0, e0.
    split; [exact Hp|]. split; [reflexivity|].
    apply keeps_fillApps, Hkeep. rewrite Hstored. eauto.
  - exact (IH w2 Hdone g a Hin).
Qed.

(** X14. What a successful [FillCache] leaves behind: when [FillCache]
    returns without an error, the enumeration of the apps has succeeded,
    and for every app it lists the guid is one the UUID parser accepts, the
    entity is not nil, and the cache holds a record under the key [apps/]
    followed by the canonical guid.  The iteration over the list is assumed
    to meet every entry, in whatever order. *)
Theorem FillCache_caches_every_listed_app
    (E : Env) (c : Bolt.CachingBoltConfig) (fuel : nat) (w : World) :
  range_meets_every_entry E →
  fst (Bolt.FillCache E c fuel w) = Done None →
  ∃ allApps,
    fst (Bolt.fetchEntityListFromAPI E fuel "apps" w) = Done (Ok allApps) ∧
    ∀ g a, allApps !! g = Some a →
      ∃ u e,
        uuid_FromString E g = inr u ∧ a = Some e ∧
        is_Some (store (snd (Bolt.FillCache E c fuel w))
                 !! ("apps/" ++ u)%string).
Proof.
  intros Hrange Hdone. unfold Bolt.FillCache, bind in Hdone |- *.
  destruct (Bolt.fetchEntityListFromAPI E fuel "apps" w)
    as [[[allApps|err]| |] w1]; try discriminate Hdone.
  exists allApps. split; [reflexivity|]. intros g a Hg.
  exact (fillApps_done E c _ w1 Hdone g a (Hrange _ _ _ Hg)).
Qed.

Lemma FillCache_caches_every_listed_app_witness :
  ∃ allApps,
    fst (Bolt.fetchEntityListFromAPI
           (Fixture.env 1000 Fixture.draw_0 paged_api) 2 "apps"
           Fixture.empty_world)
    = Done (Ok allApps) ∧
    ∀ g a, allApps !! g = Some a →
      ∃ u e,
        Fixture.parseUUID g = inr u ∧ a = Some e ∧
        is_Some (store (snd (Bolt.FillCache
                               (Fixture.env 1000 Fixture.draw_0 paged_api)
                               (Fixture.bolt_config false 4000 ["-venerable"])
                               2 Fixture.empty_world))
                 !! ("apps/" ++ u)%string).
Proof.
  apply (FillCache_caches_every_listed_app
           (Fixture.env 1000 Fixture.draw_0 paged_api)
           (Fixture.bolt_config false 4000 ["-venerable"])
           2 Fixture.empty_world).
  - intros m g a Hg. apply list_elem_of_In.
    by apply (elem_of_map_to_list m g a).
  - vm_compute. reflexivity.
Defined.

(** ** A reply without an entity *)

(** X15. A reply with status 200 whose body holds no entity.  On a miss,
    the persistent backend decodes it into a nil pointer and
    [normaliseAndSaveEntityToDatabase] dereferences it: [getEntity] panics,
    the cache as it was.  The in-memory backend decodes into a struct: it
    stores and returns the zero record with the expiry at the clock reading
    plus the TTL. *)
Theorem getEntity_reply_without_entity
    (E : Env) (bc : Bolt.CachingBoltConfig) (mc : Memory.CachingMemoryConfig)
    (entityType guid uuid st : string) (b : json_body) (w : World) :
  uuid_FromString E guid = inr uuid →
  store w !! (entityType ++ "/" ++ uuid)%string = None →
  http_Do E (count is_request (trace w)) ("/v2/" ++ entityType ++ "/" ++ uuid)
  = RespHTTP 200 st (inr b) →
  j_entity b = None →
  let key := (entityType ++ "/" ++ uuid)%string in
  let e_mem :=
    set_TTL (time_Now_at E (count is_now (trace w))
             + Memory.CacheInvalidateTTL mc) zero_entity in
  (bolt_fault E (count is_bolt_tx (trace w)) = None →
   fst (Bolt.getEntity E bc entityType guid w) = Panic ∧
   store (snd (Bolt.getEntity E bc entityType guid w)) = store w) ∧
  (fst (Memory.getEntity E mc entityType guid w) = Done (Ok e_mem) ∧
   store (snd (Memory.getEntity E mc entityType guid w))
   = <[key := e_mem]> (store w)).
Proof.
  intros Hp Hmiss Hresp Hnil key e_mem. split.
  - intros Hf1.
    rewrite (Bolt_getEntity_absent E bc entityType guid uuid w Hp Hf1 Hmiss).
    unfold Bolt.fetchAndSave, bind. rewrite Bolt_fetchEntityFromAPI_eq.
    count_events. rewrite Hresp. cbn [Z.eqb Pos.eqb]. rewrite Hnil.
    unfold Bolt.normaliseAndSaveEntityToDatabase, bind, ret, panic, time_Now,
      rand_Float64.
    by destruct (String.eqb entityType "apps" && _).
  - rewrite (Memory_getEntity_absent E mc entityType guid uuid w Hp Hmiss).
    unfold Memory.fetchAndStore, bind, ret, DoRequest, time_Now,
      Memory.cacheStore.
    cbv beta. count_events. rewrite Hresp. cbn [Z.eqb Pos.eqb].
    cbv beta. count_events. rewrite Hnil. auto.
Qed.

Lemma getEntity_reply_without_entity_witness :
  (fst (Bolt.getEntity (Fixture.env 1000 Fixture.draw_0 hollow_api)
          (Fixture.bolt_config false 4000 []) "apps" Fixture.GUID
          Fixture.empty_world)
   = Panic ∧
   store (snd (Bolt.getEntity (Fixture.env 1000 Fixture.draw_0 hollow_api)
                 (Fixture.bolt_config false 4000 []) "apps" Fixture.GUID
                 Fixture.empty_world))
   = ∅) ∧
  (fst (Memory.getEntity (Fixture.env 1000 Fixture.draw_0 hollow_api)
          (Fixture.memory_config false 4000) "apps" Fixture.GUID
          Fixture.empty_world)
   = Done (Ok (set_TTL 5000 zero_entity)) ∧
   store (snd (Memory.getEntity (Fixture.env 1000 Fixture.draw_0 hollow_api)
                 (Fixture.memory_config false 4000) "apps" Fixture.GUID
                 Fixture.empty_world))
   = <[("apps/" ++ Fixture.guid)%string := set_TTL 5000 zero_entity]> ∅).
Proof.
  destruct (getEntity_reply_without_entity
              (Fixture.env 1000 Fixture.draw_0 hollow_api)
              (Fixture.bolt_config false 4000 [])
              (Fixture.memory_config false 4000)
              "apps" Fixture.GUID Fixture.guid "200 OK"
              {| j_entity := None; j_next_url := ""; j_resources := [] |}
              Fixture.empty_world
              eq_refl eq_refl eq_refl eq_refl) as [Hbolt Hmem].
  split; [exact (Hbolt eq_refl) | exact Hmem].
Defined.

(** ** The cost of a lookup *)

Lemma costs_ret {A} (a : A) : costs_at_most 0 (ret a).
Proof. intros w. simpl. lia. Qed.

Lemma costs_weaken {A} (n n' : nat) (m : M A) :
  (n ≤ n')%nat → costs_at_most n m → costs_at_most n' m.
Proof. intros Hle Hm w. destruct (Hm w). lia. Qed.

Lemma costs_bind {A B} (n1 n2 : nat) (m : M A) (f : A → M B) :
  costs_at_most n1 m → (∀ a, costs_at_most n2 (f a)) →
  costs_at_most (n1 + n2) (bind m f).
Proof.
  intros Hm Hf w. unfold bind. specialize (Hm w).
  destruct (m w) as [[a| |] w1]; cbn [fst snd] in *; try lia.
  destruct (Hf a w1). lia.
Qed.

Lemma costs_Bolt_getEntity (E : Env) (c : Bolt.CachingBoltConfig)
    (entityType guid : string) :
  costs_at_most 1 (Bolt.getEntity E c entityType guid).
Proof.
  intros w.
  unfold Bolt.getEntity, Bolt.fetchAndSave, Bolt.fetchEntityFromAPI,
    Bolt.makeRequestAndDecodeJSON, Bolt.normaliseAndSaveEntityToDatabase,
    Bolt.viewEntity, bind, ret, panic, DoRequest, time_Now, rand_Float64,
    Bolt.updatePut.
  repeat case_match; simplify_eq; cbn [fst snd]; unfold log, set_store;
    cbn [trace]; rewrite ?count_app;
    cbn [count List.filter length is_request is_put]; lia.
Qed.

Lemma costs_Memory_getEntity (E : Env) (c : Memory.CachingMemoryConfig)
    (entityType guid : string) :
  costs_at_most 1 (Memory.getEntity E c entityType guid).
Proof.
  intros w.
  unfold Memory.getEntity, Memory.fetchAndStore, bind, ret, DoRequest,
    time_Now, Memory.cacheLookup, Memory.cacheStore.
  repeat case_match; simplify_eq; cbn [fst snd]; unfold log, set_store;
    cbn [trace]; rewrite ?count_app;
    cbn [count List.filter length is_request is_put]; lia.
Qed.

(** X16. The cost of a lookup is bounded: [getEntity] sends at most one
    request and writes at most one record, and [GetApp] at most three of
    each, in both backends and whatever the cache holds, the remote API
    answers and the store does. *)
Theorem GetApp_costs_at_most_three_requests
    (E : Env) (bc : Bolt.CachingBoltConfig) (mc : Memory.CachingMemoryConfig) :
  (∀ entityType guid,
     costs_at_most 1 (Bolt.getEntity E bc entityType guid) ∧
     costs_at_most 1 (Memory.getEntity E mc entityType guid)) ∧
  (∀ appGuid,
     costs_at_most 3 (Bolt.GetApp E bc appGuid) ∧
     costs_at_most 3 (Memory.GetApp E mc appGuid)).
Proof.
  split; [intros; split;
          [apply costs_Bolt_getEntity | apply costs_Memory_getEntity]|].
  intros appGuid. split.
  - unfold Bolt.GetApp, Bolt.getSpaceAndOrg.
    apply (costs_bind 1 2); [apply costs_Bolt_getEntity|]. intros a.
    destruct (match a with Ok _ => _ | Error _ => _ end) as [app|err];
      [|apply (costs_weaken 0); [lia | apply costs_ret]].
    apply (costs_weaken (2 + 0)); [lia|]. apply costs_bind.
    + apply (costs_bind 1 1); [apply costs_Bolt_getEntity|]. intros s.
      destruct (match s with Ok _ => _ | Error _ => _ end) as [space|err];
        [|apply (costs_weaken 0); [lia | apply costs_ret]].
      apply (costs_weaken (1 + 0)); [lia|].
      apply costs_bind; [apply costs_Bolt_getEntity|]. intros o.
      repeat case_match; apply costs_ret.
    + intros so. repeat case_match; apply costs_ret.
  - unfold Memory.GetApp.
    apply (costs_bind 1 2); [apply costs_Memory_getEntity|]. intros a.
    destruct (match a with Ok _ => _ | Error _ => _ end) as [app|err];
      [|apply (costs_weaken 0); [lia | apply costs_ret]].
    apply (costs_bind 1 1); [apply costs_Memory_getEntity|]. intros s.
    destruct (match s with Ok _ => _ | Error _ => _ end) as [space|err];
      [|apply (costs_weaken 0); [lia | apply costs_ret]].
    apply (costs_weaken (1 + 0)); [lia|].
    apply costs_bind; [apply costs_Memory_getEntity|]. intros o.
    repeat case_match; apply costs_ret.
Qed.
